(** * capacitor-mwp-client: key manager, round trip and chain switch

    A shallow embedding of three parts of the client:

    - [KeyManager] (the secure channel manager): the four in-memory key
      fields, the scoped preferences storage behind them and the
      key-loading algorithm;
    - [postRequestToWallet] (the round-trip coordinator): the promise,
      the two listeners, the timer and the three race branches, as a
      transition system in which the events of the host, the resumptions
      of [start()] and the settlements of [InAppBrowser.close()] reach
      the attempt one at a time, in any order;
    - [switchChain] of the connector: the add-chain payload sent after
      error code 4902;
    - the other methods of the connector and the listeners it keeps on
      the provider; [storeObject], [loadObject] and [clear] of the scoped
      storage.

    Asynchronous functions are run one after the other on an explicit
    state; an [await] that rejects is an error result that skips the rest
    of the function and leaves the fields written so far in place. *)

From Stdlib Require Import Ascii String List ZArith Lia Bool.
From Stdlib Require Import DecimalString HexadecimalString.
From stdpp Require Import base option gmap strings list.

Local Open Scope string_scope.
Local Open Scope list_scope.

(** ** Errors *)

(** A thrown JavaScript value, kept by its message. *)
Inductive Error : Type :=
| Thrown (message : string).

(** ** Collaborators of the key manager *)

Inductive KeyType : Type := public | private.

Record StorageItem : Type := {
  storageKey : string;
  keyType : KeyType
}.

Definition OWN_PRIVATE_KEY : StorageItem :=
  {| storageKey := "ownPrivateKey"; keyType := private |}.
Definition OWN_PUBLIC_KEY : StorageItem :=
  {| storageKey := "ownPublicKey"; keyType := public |}.
Definition PEER_PUBLIC_KEY : StorageItem :=
  {| storageKey := "peerPublicKey"; keyType := public |}.

Record KeyPair (CryptoKey : Type) : Type := {
  privateKey : CryptoKey;
  publicKey : CryptoKey
}.
Arguments privateKey {CryptoKey} _.
Arguments publicKey {CryptoKey} _.

(** The cipher module (":core/cipher/cipher") is imported, not part of the
    sources at hand: it is an interface.  Key generation is the only
    function of it that is not a function of its arguments; its [n]-th
    call in the life of the device answers [cipher_generateKeyPair n]. *)
Class Cipher (CryptoKey : Type) : Type := {
  cipher_generateKeyPair : nat -> Error + KeyPair CryptoKey;
  deriveSharedSecret : CryptoKey -> CryptoKey -> Error + CryptoKey;
  exportKeyToHexString : KeyType -> CryptoKey -> Error + string;
  importKeyFromHexString : KeyType -> string -> Error + CryptoKey
}.

(** One call of the Capacitor Preferences plugin. *)
Inductive PreferencesCall : Type :=
| PreferencesGet (key : string)
| PreferencesSet (key value : string)
| PreferencesRemove (key : string).

(** The storage side: [scopedKey] of the ScopedStorage base class (its
    source is not at hand) and the faults of the plugin.  The call made
    when [n] calls were made before it rejects with [e] when
    [preferences_fault n call = Some e]; a rejected call changes nothing. *)
Class Storage : Type := {
  scopedKey : string -> string;
  preferences_fault : nat -> PreferencesCall -> option Error
}.

(** ** State *)

(** What outlives the manager object: the preferences, the calls made to
    them so far and the number of key pairs generated so far. *)
Record World : Type := {
  preferences : gmap string string;
  calls : list PreferencesCall;
  generated : nat
}.

(** The private fields of the class. *)
Record KeyManager (CryptoKey : Type) : Type := {
  ownPrivateKey : option CryptoKey;
  ownPublicKey : option CryptoKey;
  peerPublicKey : option CryptoKey;
  sharedSecret : option CryptoKey
}.
Arguments ownPrivateKey {CryptoKey} _.
Arguments ownPublicKey {CryptoKey} _.
Arguments peerPublicKey {CryptoKey} _.
Arguments sharedSecret {CryptoKey} _.

Record State (CryptoKey : Type) : Type := {
  this : KeyManager CryptoKey;
  world : World
}.
Arguments this {CryptoKey} _.
Arguments world {CryptoKey} _.

(** The fields right after the constructor. *)
Definition new_KeyManager {CryptoKey : Type} : KeyManager CryptoKey :=
  {| ownPrivateKey := None; ownPublicKey := None;
     peerPublicKey := None; sharedSecret := None |}.

(** ** Asynchronous functions *)

Definition Async (CryptoKey A : Type) : Type :=
  State CryptoKey -> State CryptoKey * (Error + A).

Section KeyManagerModel.

Context {CryptoKey : Type} {cipher : Cipher CryptoKey} {storage : Storage}.

Abbreviation St := (State CryptoKey).
Abbreviation M := (Async CryptoKey).

Definition ret {A : Type} (a : A) : M A := fun s => (s, inr a).

Definition bind {A B : Type} (m : M A) (k : A -> M B) : M B :=
  fun s =>
    match m s with
    | (s1, inl e) => (s1, inl e)
    | (s1, inr a) => k a s1
    end.

Declare Scope async_scope.
Delimit Scope async_scope with async.
Notation "x <- m ;; k" := (bind m (fun x => k))
  (at level 20, m at level 99, k at level 200, only parsing) : async_scope.
Notation "m ;; k" := (bind m (fun _ => k))
  (at level 100, k at level 200, only parsing, right associativity)
  : async_scope.
Local Open Scope async_scope.

(** An awaited call of a cipher function. *)
Definition await {A : Type} (r : Error + A) : M A := fun s => (s, r).

Definition get_this : M (KeyManager CryptoKey) := fun s => (s, inr (this s)).

Definition set_this (f : KeyManager CryptoKey -> KeyManager CryptoKey) : M unit :=
  fun s => ({| this := f (this s); world := world s |}, inr tt).

Definition set_ownPrivateKey (v : option CryptoKey) (k : KeyManager CryptoKey) :=
  {| ownPrivateKey := v; ownPublicKey := ownPublicKey k;
     peerPublicKey := peerPublicKey k; sharedSecret := sharedSecret k |}.
Definition set_ownPublicKey (v : option CryptoKey) (k : KeyManager CryptoKey) :=
  {| ownPrivateKey := ownPrivateKey k; ownPublicKey := v;
     peerPublicKey := peerPublicKey k; sharedSecret := sharedSecret k |}.
Definition set_peerPublicKey (v : option CryptoKey) (k : KeyManager CryptoKey) :=
  {| ownPrivateKey := ownPrivateKey k; ownPublicKey := ownPublicKey k;
     peerPublicKey := v; sharedSecret := sharedSecret k |}.
Definition set_sharedSecret (v : option CryptoKey) (k : KeyManager CryptoKey) :=
  {| ownPrivateKey := ownPrivateKey k; ownPublicKey := ownPublicKey k;
     peerPublicKey := peerPublicKey k; sharedSecret := v |}.

(** *** ScopedPreferencesStorage *)

(** One call of the plugin: it is recorded, then it either rejects or
    takes effect. *)
Definition preferences_call {A : Type} (c : PreferencesCall)
    (effect : gmap string string -> gmap string string)
    (answer : gmap string string -> A) : M A :=
  fun s =>
    let w := world s in
    match preferences_fault (length (calls w)) c with
    | Some e =>
        ({| this := this s;
            world := {| preferences := preferences w;
                        calls := calls w ++ [c];
                        generated := generated w |} |}, inl e)
    | None =>
        ({| this := this s;
            world := {| preferences := effect (preferences w);
                        calls := calls w ++ [c];
                        generated := generated w |} |},
         inr (answer (preferences w)))
    end.

Definition setItem (key value : string) : M unit :=
  preferences_call (PreferencesSet (scopedKey key) value)
    (fun p => <[scopedKey key := value]> p) (fun _ => tt).

Definition getItem (key : string) : M (option string) :=
  preferences_call (PreferencesGet (scopedKey key))
    (fun p => p) (fun p => p !! scopedKey key).

Definition removeItem (key : string) : M unit :=
  preferences_call (PreferencesRemove (scopedKey key))
    (fun p => delete (scopedKey key) p) (fun _ => tt).

(** [Promise.all]: every promise of the array was created, so every call
    was started, before any of them is awaited; the result rejects when
    one of them does (here with the first rejection in array order). *)
Fixpoint promise_all (ps : list (M unit)) : M unit :=
  fun s =>
    match ps with
    | [] => (s, inr tt)
    | p :: ps' =>
        match p s with
        | (s1, r1) =>
            match promise_all ps' s1 with
            | (s2, r2) =>
                (s2, match r1 with inl e => inl e | inr _ => r2 end)
            end
        end
    end.

(** *** KeyManager: storage methods *)

(** [if (!key) return null]: a missing and an empty string are both
    "no key". *)
Definition loadKey (item : StorageItem) : M (option CryptoKey) :=
  key <- getItem (storageKey item) ;;
  match key with
  | None => ret None
  | Some "" => ret None
  | Some hex =>
      k <- await (importKeyFromHexString (keyType item) hex) ;;
      ret (Some k)
  end.

Definition storeKey (item : StorageItem) (key : CryptoKey) : M unit :=
  hexString <- await (exportKeyToHexString (keyType item) key) ;;
  setItem (storageKey item) hexString.

(** *** KeyManager: key loading *)

(** The cipher's [generateKeyPair()]: the next key pair of the device. *)
Definition next_key_pair : M (KeyPair CryptoKey) :=
  fun s =>
    let w := world s in
    ({| this := this s;
        world := {| preferences := preferences w;
                    calls := calls w;
                    generated := S (generated w) |} |},
     cipher_generateKeyPair (generated w)).

Definition generateKeyPair : M unit :=
  newKeyPair <- next_key_pair ;;
  set_this (set_ownPrivateKey (Some (privateKey newKeyPair))) ;;
  set_this (set_ownPublicKey (Some (publicKey newKeyPair))) ;;
  storeKey OWN_PRIVATE_KEY (privateKey newKeyPair) ;;
  storeKey OWN_PUBLIC_KEY (publicKey newKeyPair).

Definition when (b : bool) (m : M unit) : M unit :=
  if b then m else ret tt.

Definition is_null {A : Type} (o : option A) : bool :=
  match o with None => true | Some _ => false end.

(** The five statements of [loadKeysIfNeeded], in order. *)

Definition load_ownPrivateKey : M unit :=
  k <- get_this ;;
  when (is_null (ownPrivateKey k))
    (v <- loadKey OWN_PRIVATE_KEY ;; set_this (set_ownPrivateKey v)).

Definition load_ownPublicKey : M unit :=
  k <- get_this ;;
  when (is_null (ownPublicKey k))
    (v <- loadKey OWN_PUBLIC_KEY ;; set_this (set_ownPublicKey v)).

Definition generate_if_incomplete : M unit :=
  k <- get_this ;;
  when (is_null (ownPrivateKey k) || is_null (ownPublicKey k))
    generateKeyPair.

Definition load_peerPublicKey : M unit :=
  k <- get_this ;;
  when (is_null (peerPublicKey k))
    (v <- loadKey PEER_PUBLIC_KEY ;; set_this (set_peerPublicKey v)).

Definition derive_if_possible : M unit :=
  k <- get_this ;;
  when (is_null (sharedSecret k))
    match ownPrivateKey k, peerPublicKey k with
    | Some own, Some peer =>
        secret <- await (deriveSharedSecret own peer) ;;
        set_this (set_sharedSecret (Some secret))
    | _, _ => ret tt
    end.

Definition loadKeysIfNeeded : M unit :=
  load_ownPrivateKey ;;
  load_ownPublicKey ;;
  generate_if_incomplete ;;
  load_peerPublicKey ;;
  derive_if_possible.

(** *** KeyManager: public methods *)

(** [return this.ownPublicKey!]: the [!] is erased at run time, the field
    is returned as it is. *)
Definition getOwnPublicKey : M (option CryptoKey) :=
  loadKeysIfNeeded ;;
  k <- get_this ;;
  ret (ownPublicKey k).

Definition getSharedSecret : M (option CryptoKey) :=
  loadKeysIfNeeded ;;
  k <- get_this ;;
  ret (sharedSecret k).

Definition setPeerPublicKey (key : CryptoKey) : M unit :=
  set_this (set_sharedSecret None) ;;
  set_this (set_peerPublicKey (Some key)) ;;
  storeKey PEER_PUBLIC_KEY key ;;
  loadKeysIfNeeded.

Definition clear : M unit :=
  set_this (set_ownPrivateKey None) ;;
  set_this (set_ownPublicKey None) ;;
  set_this (set_peerPublicKey None) ;;
  set_this (set_sharedSecret None) ;;
  promise_all
    [ removeItem (storageKey OWN_PUBLIC_KEY);
      removeItem (storageKey OWN_PRIVATE_KEY);
      removeItem (storageKey PEER_PUBLIC_KEY) ].

(** *** Calls and runs *)

Inductive Call : Type :=
| GetOwnPublicKey
| GetSharedSecret
| SetPeerPublicKey (key : CryptoKey)
| Clear.

(** The state a call leaves, whether it returned or threw. *)
Definition call_after (c : Call) (s : St) : St :=
  match c with
  | GetOwnPublicKey => fst (getOwnPublicKey s)
  | GetSharedSecret => fst (getSharedSecret s)
  | SetPeerPublicKey key => fst (setPeerPublicKey key s)
  | Clear => fst (clear s)
  end.

Definition returned {A : Type} (r : Error + A) : bool :=
  match r with inr _ => true | inl _ => false end.

(** Whether the call returned (its promise was fulfilled). *)
Definition call_completed (c : Call) (s : St) : bool :=
  match c with
  | GetOwnPublicKey => returned (snd (getOwnPublicKey s))
  | GetSharedSecret => returned (snd (getSharedSecret s))
  | SetPeerPublicKey key => returned (snd (setPeerPublicKey key s))
  | Clear => returned (snd (clear s))
  end.

Definition calls_after (cs : list Call) (s : St) : St :=
  fold_left (fun s c => call_after c s) cs s.

Definition is_setPeerPublicKey (c : Call) : bool :=
  match c with SetPeerPublicKey _ => true | _ => false end.

(** The states of a manager: constructed over any world, then used
    through its public methods, one call after the other. *)
Inductive reachable : St -> Prop :=
| reachable_new (w : World) :
    reachable {| this := new_KeyManager; world := w |}
| reachable_call (s : St) (c : Call) :
    reachable s -> reachable (call_after c s).

(** *** Properties of states *)

(** The cached secret, when there is one, is the derivation from the own
    private key and the peer key that the fields hold now. *)
Definition secret_is_derived (k : KeyManager CryptoKey) : Prop :=
  forall secret, sharedSecret k = Some secret ->
    exists own peer,
      ownPrivateKey k = Some own /\ peerPublicKey k = Some peer /\
      is_Some (ownPublicKey k) /\
      deriveSharedSecret own peer = inr secret.

Definition own_pair_present (k : KeyManager CryptoKey) : Prop :=
  is_Some (ownPrivateKey k) /\ is_Some (ownPublicKey k).

(** The invariant of section 3 of the specification. *)
Definition secret_iff_inputs (k : KeyManager CryptoKey) : Prop :=
  is_Some (sharedSecret k) <->
  own_pair_present k /\ is_Some (peerPublicKey k).

(** The three storage slots and the field each of them persists. *)
Inductive Slot : Type := OwnPrivate | OwnPublic | PeerPublic.

Definition item_of (slot : Slot) : StorageItem :=
  match slot with
  | OwnPrivate => OWN_PRIVATE_KEY
  | OwnPublic => OWN_PUBLIC_KEY
  | PeerPublic => PEER_PUBLIC_KEY
  end.

Definition field_of (slot : Slot) (k : KeyManager CryptoKey) : option CryptoKey :=
  match slot with
  | OwnPrivate => ownPrivateKey k
  | OwnPublic => ownPublicKey k
  | PeerPublic => peerPublicKey k
  end.

Definition stored (item : StorageItem) (s : St) : option string :=
  preferences (world s) !! scopedKey (storageKey item).

(** What [loadKey] finds for an item without touching the plugin:
    nothing, a key, or a string that does not import. *)
Definition absent (item : StorageItem) (s : St) : Prop :=
  stored item s = None \/ stored item s = Some "".

Definition loadable (item : StorageItem) (s : St) : Prop :=
  exists hex key,
    stored item s = Some hex /\ hex <> "" /\
    importKeyFromHexString (keyType item) hex = inr key.

(** Exactly one half of the own key pair is in storage. *)
Definition orphaned_half (s : St) : Prop :=
  (loadable OWN_PRIVATE_KEY s /\ absent OWN_PUBLIC_KEY s) \/
  (absent OWN_PRIVATE_KEY s /\ loadable OWN_PUBLIC_KEY s).

(** The manager holds the pair [kp] and both halves of it are stored. *)
Definition holds_and_persists (kp : KeyPair CryptoKey) (s : St) : Prop :=
  ownPrivateKey (this s) = Some (privateKey kp) /\
  ownPublicKey (this s) = Some (publicKey kp) /\
  (exists hex, exportKeyToHexString private (privateKey kp) = inr hex /\
               stored OWN_PRIVATE_KEY s = Some hex) /\
  (exists hex, exportKeyToHexString public (publicKey kp) = inr hex /\
               stored OWN_PUBLIC_KEY s = Some hex).

(** The collaborators do not fail. *)
Definition storage_reliable : Prop :=
  forall n c, preferences_fault n c = None.

Definition cipher_reliable : Prop :=
  (forall n, exists kp, cipher_generateKeyPair n = inr kp) /\
  (forall t key, exists hex, exportKeyToHexString t key = inr hex) /\
  (forall own peer, exists secret, deriveSharedSecret own peer = inr secret).

(** Key generation yields fresh keys: no public key comes twice. *)
Definition generates_fresh_keys : Prop :=
  forall i j kpi kpj,
    cipher_generateKeyPair i = inr kpi ->
    cipher_generateKeyPair j = inr kpj ->
    i <> j -> publicKey kpi <> publicKey kpj.

(** The invariant of the fields, with the peer key [o] that must stay. *)
Definition fields_invariant (o : option CryptoKey) (s : St) : Prop :=
  secret_is_derived (this s) /\
  (forall p, o = Some p -> peerPublicKey (this s) = Some p).

(** The peer key a call brings. *)
Definition peer_argument (c : Call) : option CryptoKey :=
  match c with
  | SetPeerPublicKey key => Some key
  | _ => None
  end.

(** What a write of the preferences may be: the export of a half of a
    generated key pair under the storage key of that half, or the export
    of the peer key [peer] under the storage key of the peer key. *)
Definition key_write (peer : option CryptoKey) (c : PreferencesCall) : Prop :=
  match c with
  | PreferencesSet key value =>
      (exists n kp,
          cipher_generateKeyPair n = inr kp /\
          key = scopedKey (storageKey OWN_PRIVATE_KEY) /\
          exportKeyToHexString private (privateKey kp) = inr value) \/
      (exists n kp,
          cipher_generateKeyPair n = inr kp /\
          key = scopedKey (storageKey OWN_PUBLIC_KEY) /\
          exportKeyToHexString public (publicKey kp) = inr value) \/
      (exists k,
          peer = Some k /\
          key = scopedKey (storageKey PEER_PUBLIC_KEY) /\
          exportKeyToHexString public k = inr value)
  | _ => True
  end.

(** The calls of the plugin since the log was [log0] all satisfy [ok]. *)
Definition appended (ok : PreferencesCall -> Prop)
    (log0 : list PreferencesCall) (s : St) : Prop :=
  exists new, calls (world s) = log0 ++ new /\ Forall ok new.

(** No peer key, neither in the fields nor in storage. *)
Definition peer_unknown (s : St) : Prop :=
  peerPublicKey (this s) = None /\
  sharedSecret (this s) = None /\
  stored PEER_PUBLIC_KEY s = None.

(** Whatever field is null can be read back: its slot is empty or holds a
    string that imports. *)
Definition readable (slot : Slot) (s : St) : Prop :=
  field_of slot (this s) = None ->
  absent (item_of slot) s \/ loadable (item_of slot) s.

Definition all_readable (s : St) : Prop := forall slot, readable slot s.

(** One half of the own key pair is nowhere: neither in the fields nor in
    storage. *)
Definition missing_half (s : St) : Prop :=
  (ownPrivateKey (this s) = None /\ absent OWN_PRIVATE_KEY s) \/
  (ownPublicKey (this s) = None /\ absent OWN_PUBLIC_KEY s).

(** *** Hoare triples

    [hoare P m Q E]: from a state in [P], [m] ends in [Q] when it returns
    and in [E] when it throws. *)
Definition hoare {A : Type} (P : St -> Prop) (m : M A)
    (Q : A -> St -> Prop) (E : St -> Prop) : Prop :=
  forall s, P s ->
    match m s with
    | (s', inr a) => Q a s'
    | (s', inl _) => E s'
    end.

End KeyManagerModel.

(** ** The round trip: postRequestToWallet *)

Inductive WalletType : Type := web | native | unsupported.

Record Wallet : Type := {
  type : WalletType;
  scheme : string
}.

(** Modelled from the spec: [standardErrors.provider.userRejectedRequest()]
    of the error module, which is not among the sources; it is the single
    normalized user-rejected error of section 7, kept here by the message
    that the tests of [postRequestToWallet] expect. *)
Definition userRejectedRequest : Error := Thrown "User rejected the request".

(** The URL codec ("./utils/encoding") together with [new URL]: an
    interface.  [requestUrl scheme request] is [new URL(scheme)] with
    [encodeRequestURLParams(request)] as its search, as a string, or what
    is thrown on the way: [new URL] throws for a scheme that is no URL.
    [decodeResponse url] is
    [decodeResponseURLParams(new URL(url).searchParams)], an error when
    either throws. *)
Class Codec (Request Response : Type) : Type := {
  requestUrl : string -> Request -> Error + string;
  decodeResponse : string -> Error + Response
}.

(** How the host settles a plugin call that the code awaits. *)
Inductive HostReply : Type :=
| Fulfils
| Rejects (e : Error).

Definition fulfils (r : HostReply) : bool :=
  match r with Fulfils => true | Rejects _ => false end.

(** The handles that [addListener] resolves to. *)
Inductive Handle : Type := appUrlOpen_handle | browserClosed_handle.

Inductive Settlement (Response : Type) : Type :=
| Pending
| Completed (response : Response)
| Rejected (e : Error).
Arguments Pending {Response}.
Arguments Completed {Response} _.
Arguments Rejected {Response} _.

(** The promise that [postRequestToWallet] returns, with the number of
    calls of [resolve] and [reject] made so far. *)
Record Promise (Response : Type) : Type := {
  settlement : Settlement Response;
  settle_calls : nat
}.
Arguments settlement {Response} _.
Arguments settle_calls {Response} _.

(** The three variables of the promise executor. *)
Record Closure : Type := {
  listener : option Handle;
  browserClosedListener : option Handle;
  timeoutId : option nat
}.

(** The host: which callbacks it holds, the timer (its delay in
    milliseconds while it is armed), the embedded browser, the calls of
    [InAppBrowser.close()] so far. *)
Record Host : Type := {
  appUrlOpen_listening : bool;
  browserClosed_listening : bool;
  timer : option N;
  browser_open : option string;
  close_calls : nat
}.

(** The three calls that [start()] awaits, in their order. *)
Inductive Awaited : Type :=
| App_addListener
| InAppBrowser_addListener
| InAppBrowser_openInWebView.

(** Where [start()] is: at one of its awaits, with the URL to open, or
    not running (never called, or returned). *)
Inductive Start : Type :=
| start_awaits (call : Awaited) (url : string)
| start_not_running.

(** What a callback does once its [await InAppBrowser.close()] is
    fulfilled: the deep link's decodes the URL and settles, the timer's
    rejects. *)
Inductive Continuation : Type :=
| decode_and_settle (url : string)
| reject_after_close.

(** One call of [postRequestToWallet] for a web wallet: the variables,
    the promise, the host, where [start()] is and the callbacks that
    await [InAppBrowser.close()], the oldest first. *)
Record Attempt (Response : Type) : Type := {
  closure : Closure;
  promise : Promise Response;
  host : Host;
  start_state : Start;
  close_awaited : list Continuation
}.
Arguments closure {Response} _.
Arguments promise {Response} _.
Arguments host {Response} _.
Arguments start_state {Response} _.
Arguments close_awaited {Response} _.

(** What happens to an attempt, one at a time: the host delivers a deep
    link, the dismissal of the browser or the firing of the timer; the
    call that [start()] awaits is settled; the oldest awaited
    [InAppBrowser.close()] is settled. *)
Inductive Event : Type :=
| appUrlOpen (url : string)
| browserClosed
| timeout
| start_resumes (reply : HostReply)
| close_settles (reply : HostReply).

Section RoundTrip.

Context {Request Response : Type} {codec : Codec Request Response}.

Abbreviation Att := (Attempt Response).

(** *** The promise *)

(** [resolve] and [reject] settle a pending promise and do nothing to a
    settled one. *)
Definition settle (v : Settlement Response) (p : Promise Response) :
    Promise Response :=
  {| settlement := match settlement p with
                   | Pending => v
                   | settled => settled
                   end;
     settle_calls := S (settle_calls p) |}.

Definition resolve (response : Response) (a : Att) : Att :=
  {| closure := closure a;
     promise := settle (Completed response) (promise a);
     host := host a; start_state := start_state a;
     close_awaited := close_awaited a |}.

Definition reject (e : Error) (a : Att) : Att :=
  {| closure := closure a;
     promise := settle (Rejected e) (promise a);
     host := host a; start_state := start_state a;
     close_awaited := close_awaited a |}.

(** *** The host's side of the calls *)

(** [handle.remove()]: the host drops the callback; dropping it again
    changes nothing. *)
Definition remove (h : Handle) (x : Host) : Host :=
  match h with
  | appUrlOpen_handle =>
      {| appUrlOpen_listening := false;
         browserClosed_listening := browserClosed_listening x;
         timer := timer x; browser_open := browser_open x;
         close_calls := close_calls x |}
  | browserClosed_handle =>
      {| appUrlOpen_listening := appUrlOpen_listening x;
         browserClosed_listening := false;
         timer := timer x; browser_open := browser_open x;
         close_calls := close_calls x |}
  end.

(** [clearTimeout(id)]: clearing a timer that is not armed changes
    nothing. *)
Definition clearTimeout (id : nat) (x : Host) : Host :=
  {| appUrlOpen_listening := appUrlOpen_listening x;
     browserClosed_listening := browserClosed_listening x;
     timer := None; browser_open := browser_open x;
     close_calls := close_calls x |}.

Definition setTimeout (delay : N) (x : Host) : Host :=
  {| appUrlOpen_listening := appUrlOpen_listening x;
     browserClosed_listening := browserClosed_listening x;
     timer := Some delay; browser_open := browser_open x;
     close_calls := close_calls x |}.

(** [addListener(event, callback)] is called: the host has the callback
    from then on, before the promise of the handle is settled. *)
Definition addListener (h : Handle) (x : Host) : Host :=
  match h with
  | appUrlOpen_handle =>
      {| appUrlOpen_listening := true;
         browserClosed_listening := browserClosed_listening x;
         timer := timer x; browser_open := browser_open x;
         close_calls := close_calls x |}
  | browserClosed_handle =>
      {| appUrlOpen_listening := appUrlOpen_listening x;
         browserClosed_listening := true;
         timer := timer x; browser_open := browser_open x;
         close_calls := close_calls x |}
  end.

(** [InAppBrowser.openInWebView] is fulfilled: the browser shows the
    URL. *)
Definition openInWebView (url : string) (x : Host) : Host :=
  {| appUrlOpen_listening := appUrlOpen_listening x;
     browserClosed_listening := browserClosed_listening x;
     timer := timer x; browser_open := Some url;
     close_calls := close_calls x |}.

(** [InAppBrowser.close()] is called. *)
Definition close (x : Host) : Host :=
  {| appUrlOpen_listening := appUrlOpen_listening x;
     browserClosed_listening := browserClosed_listening x;
     timer := timer x; browser_open := browser_open x;
     close_calls := S (close_calls x) |}.

(** [InAppBrowser.close()] is fulfilled: the browser is closed. *)
Definition closed (x : Host) : Host :=
  {| appUrlOpen_listening := appUrlOpen_listening x;
     browserClosed_listening := browserClosed_listening x;
     timer := timer x; browser_open := None;
     close_calls := close_calls x |}.

(** The user dismisses the browser. *)
Definition dismissed (x : Host) : Host :=
  {| appUrlOpen_listening := appUrlOpen_listening x;
     browserClosed_listening := browserClosed_listening x;
     timer := timer x; browser_open := None;
     close_calls := close_calls x |}.

(** The timer fires: it is no longer armed. *)
Definition fired (x : Host) : Host :=
  {| appUrlOpen_listening := appUrlOpen_listening x;
     browserClosed_listening := browserClosed_listening x;
     timer := None; browser_open := browser_open x;
     close_calls := close_calls x |}.

Definition with_host (f : Host -> Host) (a : Att) : Att :=
  {| closure := closure a; promise := promise a; host := f (host a);
     start_state := start_state a; close_awaited := close_awaited a |}.

Definition with_start (s : Start) (a : Att) : Att :=
  {| closure := closure a; promise := promise a; host := host a;
     start_state := s; close_awaited := close_awaited a |}.

Definition with_close_awaited (l : list Continuation) (a : Att) : Att :=
  {| closure := closure a; promise := promise a; host := host a;
     start_state := start_state a; close_awaited := l |}.

(** *** The statements of the callbacks *)

(** [if (listener) listener.remove();
     if (browserClosedListener) browserClosedListener.remove();]
    A variable that is still null removes nothing. *)
Definition remove_listeners (a : Att) : Att :=
  let a1 := match listener (closure a) with
            | Some h => with_host (remove h) a
            | None => a
            end in
  match browserClosedListener (closure a1) with
  | Some h => with_host (remove h) a1
  | None => a1
  end.

(** [if (timeoutId) clearTimeout(timeoutId);] *)
Definition clear_timer (a : Att) : Att :=
  match timeoutId (closure a) with
  | Some id => with_host (clearTimeout id) a
  | None => a
  end.

Definition cleanup (a : Att) : Att := clear_timer (remove_listeners a).

(** [await InAppBrowser.close();] and what follows it: the call is
    made, and the rest of the callback waits for its settlement. *)
Definition await_close (rest : Continuation) (a : Att) : Att :=
  with_close_awaited (close_awaited a ++ [rest]) (with_host close a).

(** The callback of "appUrlOpen", up to its await. *)
Definition on_appUrlOpen (appCustomScheme url : string) (a : Att) : Att :=
  if String.prefix appCustomScheme url then
    await_close (decode_and_settle url) (cleanup a)
  else a.

(** The callback of "browserClosed". *)
Definition on_browserClosed (a : Att) : Att :=
  reject userRejectedRequest (cleanup a).

(** The callback of the timer, up to its await. *)
Definition on_timeout (a : Att) : Att :=
  await_close reject_after_close (remove_listeners a).

(** The rest of a callback, after a fulfilled [InAppBrowser.close()]. *)
Definition continue (rest : Continuation) (a : Att) : Att :=
  match rest with
  | decode_and_settle url =>
      match decodeResponse url with
      | inr response => resolve response a
      | inl _ => reject userRejectedRequest a
      end
  | reject_after_close => reject userRejectedRequest a
  end.

(** The oldest awaited [InAppBrowser.close()] is settled.  The await is
    in no [try] block: when the call is rejected the callback ends there
    and neither [resolve] nor [reject] is called. *)
Definition on_close_settled (reply : HostReply) (a : Att) : option Att :=
  match close_awaited a with
  | [] => None
  | rest :: others =>
      let a1 := with_close_awaited others a in
      match reply with
      | Fulfils => Some (continue rest (with_host closed a1))
      | Rejects _ => Some a1
      end
  end.

(** The timer is armed for five minutes, whatever the arguments. *)
Definition TIMEOUT_MS : N := 5 * 60 * 1000.

Definition set_listener (h : Handle) (a : Att) : Att :=
  {| closure := {| listener := Some h;
                   browserClosedListener := browserClosedListener (closure a);
                   timeoutId := timeoutId (closure a) |};
     promise := promise a; host := host a;
     start_state := start_state a; close_awaited := close_awaited a |}.

Definition set_browserClosedListener (h : Handle) (a : Att) : Att :=
  {| closure := {| listener := listener (closure a);
                   browserClosedListener := Some h;
                   timeoutId := timeoutId (closure a) |};
     promise := promise a; host := host a;
     start_state := start_state a; close_awaited := close_awaited a |}.

(** The [catch] block of [start]. *)
Definition start_catch (a : Att) : Att :=
  reject userRejectedRequest (cleanup (with_start start_not_running a)).

(** [start()] up to its first await: [App.addListener] is called. *)
Definition start (url : string) (a : Att) : Att :=
  with_start (start_awaits App_addListener url)
    (with_host (addListener appUrlOpen_handle) a).

(** The call that [start()] awaits is settled.  When it is fulfilled the
    handle is assigned, only now, and the next call is made; when it is
    rejected the host has not kept the callback and the [catch] block
    runs. *)
Definition on_start_resumed (reply : HostReply) (a : Att) : option Att :=
  match start_state a with
  | start_not_running => None
  | start_awaits App_addListener url =>
      match reply with
      | Fulfils =>
          Some (with_start (start_awaits InAppBrowser_addListener url)
                  (with_host (addListener browserClosed_handle)
                     (set_listener appUrlOpen_handle a)))
      | Rejects _ =>
          Some (start_catch (with_host (remove appUrlOpen_handle) a))
      end
  | start_awaits InAppBrowser_addListener url =>
      match reply with
      | Fulfils =>
          Some (with_start (start_awaits InAppBrowser_openInWebView url)
                  (set_browserClosedListener browserClosed_handle a))
      | Rejects _ =>
          Some (start_catch (with_host (remove browserClosed_handle) a))
      end
  | start_awaits InAppBrowser_openInWebView url =>
      match reply with
      | Fulfils =>
          Some (with_start start_not_running
                  (with_host (openInWebView url) a))
      | Rejects _ => Some (start_catch a)
      end
  end.

(** The executor: the three variables are null, the timer is armed, the
    request URL is made and [start()] is called.  When making the URL
    throws, the executor ends there, with the timer armed, and the
    promise is rejected with what was thrown. *)
Definition armed : Att :=
  {| closure := {| listener := None; browserClosedListener := None;
                   timeoutId := Some 1 |};
     promise := {| settlement := Pending; settle_calls := 0 |};
     host := setTimeout TIMEOUT_MS
               {| appUrlOpen_listening := false;
                  browserClosed_listening := false;
                  timer := None; browser_open := None;
                  close_calls := 0 |};
     start_state := start_not_running;
     close_awaited := [] |}.

Definition executor (url : Error + string) : Att :=
  match url with
  | inr u => start u armed
  | inl thrown => reject thrown armed
  end.

(** The call: for a web wallet the attempt as it is when the promise is
    returned, the thrown error otherwise. *)
Definition postRequestToWallet (request : Request) (appCustomScheme : string)
    (wallet : Wallet) : Error + Att :=
  match type wallet with
  | web => inr (executor (requestUrl (scheme wallet) request))
  | native => inl (Thrown "Native wallet not supported yet")
  | unsupported => inl (Thrown "Unsupported wallet type")
  end.

(** *** Events *)

(** The host calls a callback only while it holds it, the timer fires
    only while it is armed; the events reach the attempt one at a time,
    in any order, also while [start()] is at an await. *)
Definition deliver (appCustomScheme : string) (a : Att) (e : Event) :
    option Att :=
  match e with
  | appUrlOpen url =>
      if appUrlOpen_listening (host a)
      then Some (on_appUrlOpen appCustomScheme url a)
      else None
  | browserClosed =>
      if browserClosed_listening (host a)
      then Some (on_browserClosed (with_host dismissed a))
      else None
  | timeout =>
      match timer (host a) with
      | Some _ => Some (on_timeout (with_host fired a))
      | None => None
      end
  | start_resumes reply => on_start_resumed reply a
  | close_settles reply => on_close_settled reply a
  end.

Fixpoint run (appCustomScheme : string) (a : Att) (es : list Event) :
    option Att :=
  match es with
  | [] => Some a
  | e :: es' =>
      match deliver appCustomScheme a e with
      | Some a' => run appCustomScheme a' es'
      | None => None
      end
  end.

(** One of the three race branches: a deep link that matches the return
    scheme, a dismissal, the timer. *)
Definition race_branch (appCustomScheme : string) (e : Event) : bool :=
  match e with
  | appUrlOpen url => String.prefix appCustomScheme url
  | browserClosed => true
  | timeout => true
  | _ => false
  end.

(** The three calls of [start()] are fulfilled, one after the other. *)
Definition launch : list Event :=
  [start_resumes Fulfils; start_resumes Fulfils; start_resumes Fulfils].

(** Nothing is registered with the host any more. *)
Definition torn_down (a : Att) : Prop :=
  appUrlOpen_listening (host a) = false /\
  browserClosed_listening (host a) = false /\
  timer (host a) = None.

Definition settled (a : Att) : bool :=
  match settlement (promise a) with
  | Pending => false
  | _ => true
  end.

(** The attempt while it awaits the return: [start()] went through
    before anything else happened, so that both handles are assigned. *)
Definition awaiting_return (url : string) : Att :=
  {| closure := {| listener := Some appUrlOpen_handle;
                   browserClosedListener := Some browserClosed_handle;
                   timeoutId := Some 1 |};
     promise := {| settlement := Pending; settle_calls := 0 |};
     host := {| appUrlOpen_listening := true;
                browserClosed_listening := true;
                timer := Some TIMEOUT_MS; browser_open := Some url;
                close_calls := 0 |};
     start_state := start_not_running;
     close_awaited := [] |}.

Definition unmatched (appCustomScheme url : string) : Prop :=
  String.prefix appCustomScheme url = false.

Definition deep_links (urls : list string) : list Event :=
  map appUrlOpen urls.

(** The moments of an attempt whose launch went through before anything
    else happened: it awaits the return; or one race branch has run,
    nothing is registered any more and its callback awaits
    [InAppBrowser.close()]; or it is over. *)
Definition awaits_close (a : Att) : Prop :=
  torn_down a /\ start_state a = start_not_running /\
  (exists rest, close_awaited a = [rest]) /\
  close_calls (host a) = 1 /\
  promise a = {| settlement := Pending; settle_calls := 0 |}.

Definition over (a : Att) : Prop :=
  torn_down a /\ start_state a = start_not_running /\
  close_awaited a = [] /\
  close_calls (host a) <= 1 /\
  ((settle_calls (promise a) = 1 /\ settled a = true) \/
   (promise a = {| settlement := Pending; settle_calls := 0 |} /\
    close_calls (host a) = 1)) /\
  (forall e, settlement (promise a) = Rejected e -> e = userRejectedRequest).

Definition launched_moment (url : string) (a : Att) : Prop :=
  a = awaiting_return url \/ awaits_close a \/ over a.

(** What was delivered accounts for the deep links that await and for
    the response: every deep link whose callback awaits
    [InAppBrowser.close()] was delivered and matches, and a response
    that completed the promise is the decoding of such a deep link. *)
Definition accounted (appCustomScheme : string) (seen : list Event)
    (a : Att) : Prop :=
  (forall link,
      In (decode_and_settle link) (close_awaited a) ->
      In (appUrlOpen link) seen /\
      String.prefix appCustomScheme link = true) /\
  (forall response,
      settlement (promise a) = Completed response ->
      exists link,
        In (appUrlOpen link) seen /\
        String.prefix appCustomScheme link = true /\
        decodeResponse link = inr response).


End RoundTrip.

(** ** The connector: switchChain *)

Record NativeCurrency : Type := {
  currency_name : string;
  symbol : string;
  decimals : N
}.

(** A chain of the configuration: what [switchChain] reads of it.
    [rpcUrls_default_http] is [chain.rpcUrls.default?.http] and
    [blockExplorers_default_url] is [chain.blockExplorers?.default.url],
    each [None] where the optional chaining stops. *)
Module Chain.
Record t : Type := {
  id : N;
  name : string;
  nativeCurrency : NativeCurrency;
  rpcUrls_default_http : option (list string);
  blockExplorers_default_url : option string
}.
End Chain.

(** The caller's [addEthereumChainParameter]: every field is optional. *)
Module Supplied.
Record t : Type := {
  chainName : option string;
  nativeCurrency : option NativeCurrency;
  rpcUrls : option (list string);
  blockExplorerUrls : option (list string);
  iconUrls : option (list string)
}.
End Supplied.

(** The object sent with "wallet_addEthereumChain". *)
Module AddEthereumChain.
Record t : Type := {
  blockExplorerUrls : list string;
  chainId : string;
  chainName : string;
  iconUrls : option (list string);
  nativeCurrency : NativeCurrency;
  rpcUrls : list string
}.
End AddEthereumChain.

Record ProviderRpcError : Type := {
  code : Z;
  message : string
}.

Inductive RpcRequest : Type :=
| wallet_switchEthereumChain (chainId : string)
| wallet_addEthereumChain (params : AddEthereumChain.t).

Inductive SwitchChainResult : Type :=
| Returns (chain : Chain.t)
| ThrowsChainNotConfigured
| ThrowsUserRejectedRequestError (cause : ProviderRpcError)
| ThrowsSwitchChainError (cause : ProviderRpcError).

Section SwitchChain.

(** [numberToHex] of viem and the wallet behind [provider.request]. *)
Variable numberToHex : N -> string.
Variable provider_request : RpcRequest -> ProviderRpcError + unit.

(** A string is truthy unless it is empty. *)
Definition truthy (s : string) : bool :=
  match s with "" => false | _ => true end.

Definition blockExplorerUrls_of (supplied : option Supplied.t)
    (chain : Chain.t) : list string :=
  match supplied with
  | Some {| Supplied.blockExplorerUrls := Some urls |} => urls
  | _ =>
      match Chain.blockExplorers_default_url chain with
      | Some url => if truthy url then [url] else []
      | None => []
      end
  end.

Definition rpcUrls_of (supplied : option Supplied.t) (chain : Chain.t) :
    list string :=
  match supplied with
  | Some {| Supplied.rpcUrls := Some (url :: urls) |} => url :: urls
  | _ =>
      [ match Chain.rpcUrls_default_http chain with
        | Some (first :: _) => first
        | _ => ""
        end ]
  end.

Definition addEthereumChain (supplied : option Supplied.t) (chain : Chain.t)
    (chainId : N) : AddEthereumChain.t :=
  {| AddEthereumChain.blockExplorerUrls := blockExplorerUrls_of supplied chain;
     AddEthereumChain.chainId := numberToHex chainId;
     AddEthereumChain.chainName :=
       match supplied with
       | Some {| Supplied.chainName := Some n |} => n
       | _ => Chain.name chain
       end;
     AddEthereumChain.iconUrls :=
       match supplied with
       | Some p => Supplied.iconUrls p
       | None => None
       end;
     AddEthereumChain.nativeCurrency :=
       match supplied with
       | Some {| Supplied.nativeCurrency := Some c |} => c
       | _ => Chain.nativeCurrency chain
       end;
     AddEthereumChain.rpcUrls := rpcUrls_of supplied chain |}.

(** [switchChain]: the requests sent to the wallet, in order, and the
    result. *)
Definition switchChain (chains : list Chain.t)
    (supplied : option Supplied.t) (chainId : N) :
    list RpcRequest * SwitchChainResult :=
  match List.find (fun chain => N.eqb (Chain.id chain) chainId) chains with
  | None => ([], ThrowsChainNotConfigured)
  | Some chain =>
      let switch := wallet_switchEthereumChain (numberToHex (Chain.id chain)) in
      match provider_request switch with
      | inr _ => ([switch], Returns chain)
      | inl error =>
          if Z.eqb (code error) 4902 then
            let add := wallet_addEthereumChain
                         (addEthereumChain supplied chain chainId) in
            match provider_request add with
            | inr _ => ([switch; add], Returns chain)
            | inl error' => ([switch; add], ThrowsUserRejectedRequestError error')
            end
          else ([switch], ThrowsSwitchChainError error)
      end
  end.

(** The caller supplied a value, the network has a default. *)
Definition supplied_rpcUrls (supplied : option Supplied.t) : option (list string) :=
  match supplied with
  | Some p => Supplied.rpcUrls p
  | None => None
  end.

Definition supplied_blockExplorerUrls (supplied : option Supplied.t) :
    option (list string) :=
  match supplied with
  | Some p => Supplied.blockExplorerUrls p
  | None => None
  end.

Definition default_rpcUrl (chain : Chain.t) : option string :=
  match Chain.rpcUrls_default_http chain with
  | Some (first :: _) => Some first
  | _ => None
  end.

Definition default_blockExplorerUrl (chain : Chain.t) : option string :=
  match Chain.blockExplorers_default_url chain with
  | Some url => if truthy url then Some url else None
  | None => None
  end.

End SwitchChain.

(** ** Concrete collaborators, for the examples *)

Module Examples.

(** Keys are numbers; the [n]-th key pair is [(2n, 2n+1)]; a key is
    exported as its decimal digits. *)
Definition example_export (key : nat) : string :=
  DecimalString.NilZero.string_of_uint (Nat.to_uint key).

Definition example_import (hex : string) : Error + nat :=
  match DecimalString.NilZero.uint_of_string hex with
  | Some d => inr (Nat.of_uint d)
  | None => inl (Thrown "not a key")
  end.

#[export] Instance example_cipher : Cipher nat := {|
  cipher_generateKeyPair n := inr {| privateKey := 2 * n; publicKey := 2 * n + 1 |};
  deriveSharedSecret own peer := inr (own * peer);
  exportKeyToHexString _ key := inr (example_export key);
  importKeyFromHexString _ hex := example_import hex
|}.

(** Preferences that never fail, scoped by a prefix. *)
#[export] Instance example_storage : Storage := {|
  scopedKey key := ("wallet:KeyManager:" ++ key)%string;
  preferences_fault _ _ := None
|}.

(** Preferences whose first call fails. *)
Definition first_call_fails : Storage := {|
  scopedKey key := ("wallet:KeyManager:" ++ key)%string;
  preferences_fault n _ := if Nat.eqb n 0 then Some (Thrown "storage") else None
|}.

Definition empty_world : World :=
  {| preferences := ∅; calls := []; generated := 0 |}.

(** A new manager on a device that holds nothing. *)
Definition new_state : State nat :=
  {| this := new_KeyManager; world := empty_world |}.

(** A new manager on a device that holds an own private key only. *)
Definition orphan_state : State nat :=
  {| this := new_KeyManager;
     world := {| preferences := {[ scopedKey "ownPrivateKey" := "5" ]};
                 calls := []; generated := 3 |} |}.

(** A device that holds the three keys, before [clear()]. *)
Definition full_state : State nat :=
  {| this := {| ownPrivateKey := Some 4; ownPublicKey := Some 5;
                peerPublicKey := Some 9; sharedSecret := Some 36 |};
     world := {| preferences :=
                   {[ scopedKey "ownPrivateKey" := "4";
                      scopedKey "ownPublicKey" := "5";
                      scopedKey "peerPublicKey" := "9" ]};
                 calls := []; generated := 3 |} |}.

(** Requests and responses are strings; the request URL is the scheme,
    which is a URL when it has a colon, with the request after a
    question mark; a return URL decodes to what follows its question
    mark, and does not decode without one. *)
Fixpoint after_question_mark (url : string) : option string :=
  match url with
  | "" => None
  | String "?"%char rest => Some rest
  | String _ rest => after_question_mark rest
  end.

Fixpoint has_colon (s : string) : bool :=
  match s with
  | "" => false
  | String ":"%char _ => true
  | String _ rest => has_colon rest
  end.

#[export] Instance example_codec : Codec string string := {|
  requestUrl scheme request :=
    if has_colon scheme then inr (scheme ++ "?" ++ request)%string
    else inl (Thrown "Invalid URL");
  decodeResponse url :=
    match after_question_mark url with
    | Some response => inr response
    | None => inl (Thrown "malformed")
    end
|}.

Definition example_wallet : Wallet :=
  {| type := web; scheme := "https://example.com" |}.

(** A wallet whose scheme is no URL. *)
Definition misconfigured_wallet : Wallet :=
  {| type := web; scheme := "not a url" |}.

Definition example_attempt : Attempt string :=
  awaiting_return "https://example.com?request".

(** A chain without default RPC URL and without block explorer, and a
    wallet that does not know it. *)
Definition bare_chain : Chain.t :=
  {| Chain.id := 5;
     Chain.name := "bare";
     Chain.nativeCurrency :=
       {| currency_name := "Ether"; symbol := "ETH"; decimals := 18 |};
     Chain.rpcUrls_default_http := None;
     Chain.blockExplorers_default_url := None |}.

Definition example_numberToHex (n : N) : string :=
  ("0x" ++ HexadecimalString.NilZero.string_of_uint (N.to_hex_uint n))%string.

Definition unrecognized_chain (r : RpcRequest) : ProviderRpcError + unit :=
  match r with
  | wallet_switchEthereumChain _ =>
      inl {| code := 4902; message := "Unrecognized chain ID" |}
  | wallet_addEthereumChain _ => inr tt
  end.

End Examples.

(** ** More of the key manager and of its storage *)

Section KeyManagerMore.

Context {CryptoKey : Type} {cipher : Cipher CryptoKey} {storage : Storage}.

Abbreviation St := (State CryptoKey).
Abbreviation M := (Async CryptoKey).

(** The process ends and a manager is constructed again: the fields are
    new, the world is what it was. *)
Definition restarted (s : St) : St :=
  {| this := new_KeyManager; world := world s |}.

(** A key comes back from its export, and no export is the empty
    string. *)
Definition exports_import_back : Prop :=
  forall t (key : CryptoKey),
  exists hex, exportKeyToHexString t key = inr hex /\ hex <> "" /\
              importKeyFromHexString t hex = inr key.

(** The slot of [item] holds the export of [key]. *)
Definition persisted (item : StorageItem) (key : CryptoKey) (s : St) : Prop :=
  exists hex, exportKeyToHexString (keyType item) key = inr hex /\
              stored item s = Some hex.

(** A call of the plugin on the slot of the peer key that is no
    removal. *)
Definition peer_slot_call (c : PreferencesCall) : Prop :=
  match c with
  | PreferencesGet key => key = scopedKey (storageKey PEER_PUBLIC_KEY)
  | PreferencesSet key _ => key = scopedKey (storageKey PEER_PUBLIC_KEY)
  | PreferencesRemove _ => False
  end.

Definition is_clear (c : Call (CryptoKey := CryptoKey)) : bool :=
  match c with Clear => true | _ => false end.

(** The manager holds the pair [kp]. *)
Definition holds (kp : KeyPair CryptoKey) (s : St) : Prop :=
  ownPrivateKey (this s) = Some (privateKey kp) /\
  ownPublicKey (this s) = Some (publicKey kp).

(** *** ScopedPreferencesStorage: objects and clear *)

(** [JSON.stringify] and [JSON.parse] at the type of the stored objects. *)
Class Json (T : Type) : Type := {
  JSON_stringify : T -> string;
  JSON_parse : string -> Error + T
}.

Definition storeObject {T : Type} {json : Json T} (key : string) (item : T) :
    M unit :=
  setItem key (JSON_stringify item).

(** [return item ? JSON.parse(item) : undefined]. *)
Definition loadObject {T : Type} {json : Json T} (key : string) :
    M (option T) :=
  bind (getItem key) (fun item =>
    match item with
    | None => ret None
    | Some "" => ret None
    | Some text => bind (await (JSON_parse text)) (fun v => ret (Some v))
    end).

(** [Preferences.remove({ key })], the key taken as it is. *)
Definition Preferences_remove (key : string) : M unit :=
  preferences_call (PreferencesRemove key) (fun p => delete key p) (fun _ => tt).

(** [clear()] of the storage.  [keys_reply] is how the plugin settles
    [Preferences.keys()]: it rejects, or it lists the keys in some
    order. *)
Definition storage_clear (keys_reply : Error + list string) : M unit :=
  bind (await keys_reply) (fun keys =>
    promise_all
      (map Preferences_remove
         (List.filter (fun key => String.prefix (scopedKey "") key) keys))).

(** The reply lists the keys that the preferences hold. *)
Definition lists_the_keys (keys : list string) (s : St) : Prop :=
  forall key, In key keys <-> is_Some (preferences (world s) !! key).

End KeyManagerMore.

(** ** The connector: the other methods

    [createConnectorFromWallet] keeps four variables in its closure: the
    provider, made at its first use, and the three listeners registered
    on it.  A listener is a method bound to the connector; every [and_then]
    makes a new function, told from the others here by a number.  The
    methods are run one at a time, and what the dynamic import and the
    wallet answer during one call is given with the call. *)

Module Closure.
Record t : Type := {
  walletProvider : bool;
  accountsChanged : option nat;
  chainChanged : option nat;
  disconnect : option nat
}.
End Closure.

(** The requests of the connector; [rpc] is a request of [switchChain]. *)
Inductive Method : Type :=
| eth_requestAccounts
| eth_accounts
| eth_chainId
| rpc (request : RpcRequest).

(** What [config.emitter.emit] was called with. *)
Inductive Emitted : Type :=
| change_accounts (accounts : list string)
| change_chainId (chainId : option N)
| emitted_disconnect.

(** What the methods throw: what a collaborator threw, as it was thrown,
    or an error made by the connector around its cause. *)
Inductive ConnectorError : Type :=
| Raised (error : ProviderRpcError)
| ChainNotConfiguredError
| SwitchChainError (cause : ConnectorError)
| UserRejectedRequestError (cause : ConnectorError).

(** The answers during one call: of the dynamic import with the
    construction of the provider, and of the wallet to each request. *)
Record Replies : Type := {
  import_reply : ProviderRpcError + unit;
  eth_requestAccounts_reply : ProviderRpcError + list string;
  eth_accounts_reply : ProviderRpcError + list string;
  eth_chainId_reply : ProviderRpcError + string;
  provider_request : RpcRequest -> ProviderRpcError + unit
}.

(** The test of [connect]:
    /(user closed modal|accounts received is empty|user denied account|request rejected)/i *)
Definition lower (c : ascii) : ascii :=
  let n := nat_of_ascii c in
  if Nat.leb 65 n && Nat.leb n 90 then ascii_of_nat (n + 32) else c.

Fixpoint lowered (s : string) : string :=
  match s with
  | EmptyString => EmptyString
  | String c rest => String (lower c) (lowered rest)
  end.

Fixpoint includes (phrase text : string) : bool :=
  String.prefix phrase text ||
  match text with
  | EmptyString => false
  | String _ rest => includes phrase rest
  end.

Definition rejection_phrases : list string :=
  [ "user closed modal"; "accounts received is empty";
    "user denied account"; "request rejected" ].

Definition names_a_rejection (message : string) : bool :=
  existsb (fun phrase => includes phrase (lowered message)) rejection_phrases.

Module Connector.

(** The closure, the provider's side (its listeners by event and
    function, the requests made to it, the calls of its [disconnect]),
    the functions bound so far and what the emitter was given. *)
Record t : Type := {
  closure : Closure.t;
  listeners : list (string * nat);
  requested : list Method;
  disconnect_calls : nat;
  bound : nat;
  emitted : list Emitted
}.

(** Right after [createConnectorFromWallet]. *)
Definition new : t :=
  {| closure := {| Closure.walletProvider := false;
                   Closure.accountsChanged := None;
                   Closure.chainChanged := None;
                   Closure.disconnect := None |};
     listeners := []; requested := []; disconnect_calls := 0;
     bound := 0; emitted := [] |}.

Definition C (A : Type) : Type := t -> t * (ConnectorError + A).

Definition pure {A : Type} (a : A) : C A := fun c => (c, inr a).

Definition throw {A : Type} (e : ConnectorError) : C A := fun c => (c, inl e).

Definition and_then {A B : Type} (m : C A) (k : A -> C B) : C B :=
  fun c =>
    match m c with
    | (c1, inl e) => (c1, inl e)
    | (c1, inr a) => k a c1
    end.

(** try m catch (error) handler *)
Definition try_catch {A : Type} (m : C A) (handler : ConnectorError -> C A) :
    C A :=
  fun c =>
    match m c with
    | (c1, inl e) => handler e c1
    | (c1, inr a) => (c1, inr a)
    end.

Declare Scope connector_scope.
Delimit Scope connector_scope with connector.
Notation "x <- m ;; k" := (and_then m (fun x => k))
  (at level 20, m at level 99, k at level 200, only parsing) : connector_scope.
Notation "m ;; k" := (and_then m (fun _ => k))
  (at level 100, k at level 200, only parsing, right associativity)
  : connector_scope.
Local Open Scope connector_scope.

(** What a collaborator answered, awaited or called. *)
Definition answered {A : Type} (r : ProviderRpcError + A) : C A :=
  fun c => (c, match r with inl e => inl (Raised e) | inr a => inr a end).

Definition with_closure (f : Closure.t -> Closure.t) (c : t) : t :=
  {| closure := f (closure c); listeners := listeners c;
     requested := requested c; disconnect_calls := disconnect_calls c;
     bound := bound c; emitted := emitted c |}.

Definition with_listeners (f : list (string * nat) -> list (string * nat))
    (c : t) : t :=
  {| closure := closure c; listeners := f (listeners c);
     requested := requested c; disconnect_calls := disconnect_calls c;
     bound := bound c; emitted := emitted c |}.

(** [provider.request]. *)
Definition request {A : Type} (method : Method) (reply : ProviderRpcError + A) :
    C A :=
  fun c =>
    answered reply
      {| closure := closure c; listeners := listeners c;
         requested := requested c ++ [method];
         disconnect_calls := disconnect_calls c;
         bound := bound c; emitted := emitted c |}.

(** [config.emitter.emit]. *)
Definition emit (e : Emitted) : C unit :=
  fun c =>
    ({| closure := closure c; listeners := listeners c;
        requested := requested c; disconnect_calls := disconnect_calls c;
        bound := bound c; emitted := emitted c ++ [e] |}, inr tt).

(** [provider.disconnect()], not awaited. *)
Definition provider_disconnect : C unit :=
  fun c =>
    ({| closure := closure c; listeners := listeners c;
        requested := requested c;
        disconnect_calls := S (disconnect_calls c);
        bound := bound c; emitted := emitted c |}, inr tt).

(** [this.onX.and_then(this)]: a new function. *)
Definition bind_this : C nat :=
  fun c =>
    ({| closure := closure c; listeners := listeners c;
        requested := requested c; disconnect_calls := disconnect_calls c;
        bound := S (bound c); emitted := emitted c |}, inr (bound c)).

(** [provider.on] and [provider.removeListener]. *)
Definition provider_on (event : string) (listener : nat) : C unit :=
  fun c => (with_listeners (fun l => l ++ [(event, listener)]) c, inr tt).

Definition same_listener (event : string) (listener : nat)
    (registered : string * nat) : bool :=
  String.eqb (fst registered) event && Nat.eqb (snd registered) listener.

(** [removeListener] takes away the registrations of that function for
    that event. *)
Definition provider_removeListener (event : string) (listener : nat) : C unit :=
  fun c =>
    (with_listeners
       (List.filter (fun r => negb (same_listener event listener r))) c,
     inr tt).

Definition set_walletProvider (v : bool) (x : Closure.t) : Closure.t :=
  {| Closure.walletProvider := v;
     Closure.accountsChanged := Closure.accountsChanged x;
     Closure.chainChanged := Closure.chainChanged x;
     Closure.disconnect := Closure.disconnect x |}.

Definition set_accountsChanged (v : option nat) (x : Closure.t) : Closure.t :=
  {| Closure.walletProvider := Closure.walletProvider x;
     Closure.accountsChanged := v;
     Closure.chainChanged := Closure.chainChanged x;
     Closure.disconnect := Closure.disconnect x |}.

Definition set_chainChanged (v : option nat) (x : Closure.t) : Closure.t :=
  {| Closure.walletProvider := Closure.walletProvider x;
     Closure.accountsChanged := Closure.accountsChanged x;
     Closure.chainChanged := v;
     Closure.disconnect := Closure.disconnect x |}.

Definition set_disconnect (v : option nat) (x : Closure.t) : Closure.t :=
  {| Closure.walletProvider := Closure.walletProvider x;
     Closure.accountsChanged := Closure.accountsChanged x;
     Closure.chainChanged := Closure.chainChanged x;
     Closure.disconnect := v |}.

(** if (!variable) { variable = this.onX.and_then(this); provider.on(event, variable) } *)
Definition register (event : string) (variable : Closure.t -> option nat)
    (set : option nat -> Closure.t -> Closure.t) : C unit :=
  fun c =>
    match variable (closure c) with
    | Some _ => (c, inr tt)
    | None =>
        (listener <- bind_this ;;
         (fun c1 => (with_closure (set (Some listener)) c1, inr tt)) ;;
         provider_on event listener) c
    end.

(** if (variable) { provider.removeListener(event, variable); variable = undefined } *)
Definition unregister (event : string) (variable : Closure.t -> option nat)
    (set : option nat -> Closure.t -> Closure.t) : C unit :=
  fun c =>
    match variable (closure c) with
    | None => (c, inr tt)
    | Some listener =>
        (provider_removeListener event listener ;;
         (fun c1 => (with_closure (set None) c1, inr tt))) c
    end.

Definition register_all : C unit :=
  register "accountsChanged" Closure.accountsChanged set_accountsChanged ;;
  register "chainChanged" Closure.chainChanged set_chainChanged ;;
  register "disconnect" Closure.disconnect set_disconnect.

Definition unregister_all : C unit :=
  unregister "accountsChanged" Closure.accountsChanged set_accountsChanged ;;
  unregister "chainChanged" Closure.chainChanged set_chainChanged ;;
  unregister "disconnect" Closure.disconnect set_disconnect.

(** The code of a thrown value, as [connect] reads it:
    [UserRejectedRequestError.code] is 4001 and a [SwitchChainError] has
    4902 (viem); wagmi's [ChainNotConfiguredError] has none. *)
Definition error_code (e : ConnectorError) : option Z :=
  match e with
  | Raised error => Some (code error)
  | ChainNotConfiguredError => None
  | SwitchChainError _ => Some 4902%Z
  | UserRejectedRequestError _ => Some 4001%Z
  end.

Definition is_user_rejection (e : ConnectorError) : bool :=
  match error_code e with
  | Some n => Z.eqb n 4001
  | None => false
  end.

Section Methods.

(** [config.chains]; [numberToHex] and [getAddress] of viem, the second
    throws on what is no address; [Number], with [None] for a result
    that is no natural number; the message viem gives to an error made
    around a cause. *)
Variable chains : list Chain.t.
Variable numberToHex : N -> string.
Variable getAddress : string -> ProviderRpcError + string.
Variable Number : string -> option N.
Variable viem_message : ConnectorError -> string.

Definition error_message (e : ConnectorError) : string :=
  match e with
  | Raised error => message error
  | _ => viem_message e
  end.

(** accounts.map((x) => getAddress(x)) *)
Fixpoint addresses (accounts : list string) : ProviderRpcError + list string :=
  match accounts with
  | [] => inr []
  | x :: rest =>
      match getAddress x with
      | inl e => inl e
      | inr a =>
          match addresses rest with
          | inl e => inl e
          | inr l => inr (a :: l)
          end
      end
  end.

Definition getProvider (replies : Replies) : C unit :=
  fun c =>
    if Closure.walletProvider (closure c) then (c, inr tt)
    else
      (answered (import_reply replies) ;;
       (fun c1 => (with_closure (set_walletProvider true) c1, inr tt))) c.

Definition getAccounts (replies : Replies) : C (list string) :=
  getProvider replies ;;
  accounts <- request eth_accounts (eth_accounts_reply replies) ;;
  answered (addresses accounts).

Definition getChainId (replies : Replies) : C (option N) :=
  getProvider replies ;;
  chainId <- request eth_chainId (eth_chainId_reply replies) ;;
  pure (Number chainId).

Definition isAuthorized (replies : Replies) : C bool :=
  try_catch
    (accounts <- getAccounts replies ;;
     pure (negb (Nat.eqb (length accounts) 0)))
    (fun _ => pure false).

(** The requests of [switchChain] and its result, as the connector's. *)
Definition switched (sent : list RpcRequest * SwitchChainResult) : C Chain.t :=
  fun c =>
    ({| closure := closure c; listeners := listeners c;
        requested := requested c ++ map rpc (fst sent);
        disconnect_calls := disconnect_calls c;
        bound := bound c; emitted := emitted c |},
     match snd sent with
     | Returns chain => inr chain
     | ThrowsChainNotConfigured => inl (SwitchChainError ChainNotConfiguredError)
     | ThrowsUserRejectedRequestError cause =>
         inl (UserRejectedRequestError (Raised cause))
     | ThrowsSwitchChainError cause => inl (SwitchChainError (Raised cause))
     end).

Definition switch_requests (replies : Replies) (supplied : option Supplied.t)
    (chainId : N) : list RpcRequest * SwitchChainResult :=
  switchChain numberToHex (provider_request replies) chains supplied chainId.

(** [switchChain] with its [getProvider], which comes after the chain
    was found. *)
Definition switchChain_with_provider (replies : Replies)
    (supplied : option Supplied.t) (chainId : N) : C Chain.t :=
  match List.find (fun chain => N.eqb (Chain.id chain) chainId) chains with
  | None => throw (SwitchChainError ChainNotConfiguredError)
  | Some _ =>
      getProvider replies ;;
      switched (switch_requests replies supplied chainId)
  end.

(** chainId && currentChainId !== chainId *)
Definition asks_to_switch (chainId : option N) (currentChainId : option N) :
    option N :=
  match chainId with
  | Some n =>
      if N.eqb n 0 then None
      else
        match currentChainId with
        | Some current => if N.eqb current n then None else Some n
        | None => Some n
        end
  | None => None
  end.

Definition connect (replies : Replies) (chainId : option N) :
    C (list string * option N) :=
  try_catch
    (getProvider replies ;;
     requested_accounts <-
       request eth_requestAccounts (eth_requestAccounts_reply replies) ;;
     accounts <- answered (addresses requested_accounts) ;;
     register_all ;;
     currentChainId <- getChainId replies ;;
     match asks_to_switch chainId currentChainId with
     | Some n =>
         id <- try_catch
                 (chain <- switchChain_with_provider replies None n ;;
                  pure (Some (Chain.id chain)))
                 (fun error =>
                    if is_user_rejection error then throw error
                    else pure currentChainId) ;;
         pure (accounts, id)
     | None => pure (accounts, currentChainId)
     end)
    (fun error =>
       if names_a_rejection (error_message error)
       then throw (UserRejectedRequestError error)
       else throw error).

(** The catch of [connect]. *)
Definition caught (e : ConnectorError) : ConnectorError :=
  if names_a_rejection (error_message e)
  then UserRejectedRequestError e else e.

Definition disconnect (replies : Replies) : C unit :=
  getProvider replies ;;
  unregister_all ;;
  provider_disconnect.

Definition onDisconnect (replies : Replies) : C unit :=
  emit emitted_disconnect ;;
  getProvider replies ;;
  unregister_all.

(** [this.onDisconnect()] is not awaited: its rejection is not the
    method's. *)
Definition onAccountsChanged (replies : Replies) (accounts : list string) :
    C unit :=
  match accounts with
  | [] => fun c => (fst (onDisconnect replies c), inr tt)
  | _ =>
      normalized <- answered (addresses accounts) ;;
      emit (change_accounts normalized)
  end.

Definition onChainChanged (chain : string) : C unit :=
  emit (change_chainId (Number chain)).

(** The calls made to a connector, each with the answers during it. *)
Inductive Invocation : Type :=
| Connect (chainId : option N)
| Disconnect
| GetAccounts
| GetChainId
| GetProvider
| IsAuthorized
| SwitchChain (supplied : option Supplied.t) (chainId : N)
| OnAccountsChanged (accounts : list string)
| OnChainChanged (chain : string)
| OnDisconnect.

Definition call (replies : Replies) (k : Invocation) (c : t) : t :=
  match k with
  | Connect chainId => fst (connect replies chainId c)
  | Disconnect => fst (disconnect replies c)
  | GetAccounts => fst (getAccounts replies c)
  | GetChainId => fst (getChainId replies c)
  | GetProvider => fst (getProvider replies c)
  | IsAuthorized => fst (isAuthorized replies c)
  | SwitchChain supplied chainId =>
      fst (switchChain_with_provider replies supplied chainId c)
  | OnAccountsChanged accounts => fst (onAccountsChanged replies accounts c)
  | OnChainChanged chain => fst (onChainChanged chain c)
  | OnDisconnect => fst (onDisconnect replies c)
  end.

Definition invocations_after (ks : list (Invocation * Replies)) (c : t) : t :=
  fold_left (fun c k => call (snd k) (fst k) c) ks c.

(** The listeners that the closure holds, as the provider has them
    after a [connect]: none, or the three, in the order of their
    registration. *)
Definition in_step (c : t) : Prop :=
  (Closure.accountsChanged (closure c) = None /\
   Closure.chainChanged (closure c) = None /\
   Closure.disconnect (closure c) = None /\
   listeners c = []) \/
  (exists i j k,
      Closure.walletProvider (closure c) = true /\
      Closure.accountsChanged (closure c) = Some i /\
      Closure.chainChanged (closure c) = Some j /\
      Closure.disconnect (closure c) = Some k /\
      listeners c =
      [ ("accountsChanged", i); ("chainChanged", j); ("disconnect", k) ]).

End Methods.

(** The three listeners are registered. *)
Definition registered (c : t) : Prop :=
  exists i j k,
    Closure.accountsChanged (closure c) = Some i /\
    Closure.chainChanged (closure c) = Some j /\
    Closure.disconnect (closure c) = Some k /\
    listeners c =
    [ ("accountsChanged", i); ("chainChanged", j); ("disconnect", k) ].

(** What a step may do to a state without touching the closure's
    listener variables and the provider's listeners: the provider may
    come to be, never cease to be. *)
Definition same_listeners (c c' : t) : Prop :=
  listeners c' = listeners c /\
  Closure.accountsChanged (closure c') = Closure.accountsChanged (closure c) /\
  Closure.chainChanged (closure c') = Closure.chainChanged (closure c) /\
  Closure.disconnect (closure c') = Closure.disconnect (closure c) /\
  (Closure.walletProvider (closure c) = true ->
   Closure.walletProvider (closure c') = true).

Definition keeps {A : Type} (m : C A) : Prop :=
  forall c, same_listeners c (fst (m c)).

(** A step that does not take the provider away. *)
Definition provider_stays {A : Type} (m : C A) : Prop :=
  forall c, Closure.walletProvider (closure c) = true ->
            Closure.walletProvider (closure (fst (m c))) = true.

Definition with_requested (l : list Method) (c : t) : t :=
  {| closure := closure c; listeners := listeners c;
     requested := requested c ++ l;
     disconnect_calls := disconnect_calls c;
     bound := bound c; emitted := emitted c |}.

End Connector.

(** ** More concrete collaborators, for the examples *)

Module MoreExamples.

Import Examples.

(** Keys are numbers, generated and combined as before, but exported
    as a "k" and as many strokes as the number. *)
Fixpoint strokes (n : nat) : string :=
  match n with
  | O => ""
  | S m => String "i" (strokes m)
  end.

Definition stroke_cipher : Cipher nat := {|
  cipher_generateKeyPair n := inr {| privateKey := 2 * n; publicKey := 2 * n + 1 |};
  deriveSharedSecret own peer := inr (own * peer);
  exportKeyToHexString _ key := inr (String "k" (strokes key));
  importKeyFromHexString _ hex :=
    match hex with
    | String "k" rest => inr (String.length rest)
    | _ => inl (Thrown "not a key")
    end
|}.

(** A new manager on a device that holds the pair (2, 3) and the peer
    key 4. *)
Definition stroke_state : State nat :=
  {| this := new_KeyManager;
     world := {| preferences :=
                   {[ scopedKey "ownPrivateKey" := "kii";
                      scopedKey "ownPublicKey" := "kiii";
                      scopedKey "peerPublicKey" := "kiiii" ]};
                 calls := []; generated := 2 |} |}.

(** Objects are strings, written after a quotation sign. *)
Definition quoted_json : Json string := {|
  JSON_stringify item := String "'" item;
  JSON_parse text :=
    match text with
    | String "'" rest => inr rest
    | _ => inl (Thrown "Unexpected token")
    end
|}.

(** A connector of one chain, and a wallet that reports chain 1 and
    refuses every request of [switchChain] as not supported. *)
Definition example_getAddress (x : string) : ProviderRpcError + string :=
  if String.prefix "0x" x then inr x
  else inl {| code := 0; message := "Address is invalid" |}.

Definition example_Number (hex : string) : option N :=
  match hex with
  | String "0" (String "x" digits) =>
      option_map N.of_hex_uint (HexadecimalString.NilZero.uint_of_string digits)
  | _ => None
  end.

Definition example_viem_message (e : ConnectorError) : string :=
  "User rejected the request.".

Definition refusing_wallet : Replies :=
  {| import_reply := inr tt;
     eth_requestAccounts_reply := inr ["0xab"];
     eth_accounts_reply := inr ["0xab"];
     eth_chainId_reply := inr "0x1";
     provider_request _ :=
       inl {| code := 4200; message := "Method not supported" |} |}.

End MoreExamples.

(** * Proofs: the key manager *)

Set Warnings "-clear-no-such-hyp".
Section KeyManagerProofs.

Context {CryptoKey : Type} {cipher : Cipher CryptoKey} {storage : Storage}.

Abbreviation St := (State CryptoKey).
Abbreviation M := (Async CryptoKey).

(** ** Rules of the triples *)

Lemma hoare_bind {A B : Type} (P : St -> Prop) (m : M A) (k : A -> M B)
    (R : A -> St -> Prop) (Q : B -> St -> Prop) (E : St -> Prop) :
  hoare P m R E -> (forall a, hoare (R a) (k a) Q E) ->
  hoare P (bind m k) Q E.
Proof.
  intros Hm Hk s HP. unfold bind. specialize (Hm s HP).
  destruct (m s) as [s1 [e | a]]; [exact Hm |].
  exact (Hk a s1 Hm).
Qed.

Lemma hoare_consequence {A : Type} (P P' : St -> Prop) (m : M A)
    (Q Q' : A -> St -> Prop) (E E' : St -> Prop) :
  hoare P' m Q' E' ->
  (forall s, P s -> P' s) ->
  (forall a s, Q' a s -> Q a s) ->
  (forall s, E' s -> E s) ->
  hoare P m Q E.
Proof.
  intros Hm HP HQ HE s Hs. specialize (Hm s (HP s Hs)).
  destruct (m s) as [s1 [e | a]]; auto.
Qed.

Lemma hoare_conj {A : Type} (P1 P2 : St -> Prop) (m : M A)
    (Q1 Q2 : A -> St -> Prop) (E1 E2 : St -> Prop) :
  hoare P1 m Q1 E1 -> hoare P2 m Q2 E2 ->
  hoare (fun s => P1 s /\ P2 s) m
        (fun a s => Q1 a s /\ Q2 a s) (fun s => E1 s /\ E2 s).
Proof.
  intros H1 H2 s [HP1 HP2]. specialize (H1 s HP1). specialize (H2 s HP2).
  destruct (m s) as [s1 [e | a]]; auto.
Qed.

(** Sequencing when one assertion serves as invariant on both exits. *)
Lemma hoare_seq {A B : Type} (P R : St -> Prop) (m : M A) (k : A -> M B)
    (Q : B -> St -> Prop) (E : St -> Prop) :
  hoare P m (fun _ => R) E -> (forall a, hoare R (k a) Q E) ->
  hoare P (bind m k) Q E.
Proof. intros Hm Hk. exact (hoare_bind P m k (fun _ => R) Q E Hm Hk). Qed.

(** ** Symbolic execution of one statement *)

Ltac unfold_statement :=
  unfold load_ownPrivateKey, load_ownPublicKey, generate_if_incomplete,
    load_peerPublicKey, derive_if_possible, generateKeyPair, loadKey,
    storeKey, getItem, setItem, removeItem, next_key_pair,
    preferences_call, bind, when, get_this, set_this, ret, await.

Ltac case_step :=
  match goal with
  | |- context [is_null ?o] => is_var o; destruct o
  | |- context [match ?x with _ => _ end] =>
      lazymatch x with
      | context [match _ with _ => _ end] => fail
      | _ => destruct x eqn:?
      end
  end.

Ltac run_statement :=
  let s := fresh "s" in
  let H := fresh "Hpre" in
  intros s H;
  destruct s as [[own_priv own_pub peer secret] [prefs log count]];
  unfold_statement; simpl in *;
  repeat (case_step; simpl in * ).

(** ** The cached secret is the derivation from the fields *)

Ltac solve_fields :=
  unfold fields_invariant, secret_iff_inputs, secret_is_derived,
    own_pair_present, set_ownPrivateKey, set_ownPublicKey,
    set_peerPublicKey, set_sharedSecret in *; simpl in *;
  try solve [naive_solver eauto using mk_is_Some].

Lemma load_ownPrivateKey_fields (o : option CryptoKey) :
  hoare (fields_invariant o) load_ownPrivateKey
        (fun _ => fields_invariant o) (fields_invariant o).
Proof. run_statement; solve_fields. Qed.

Lemma load_ownPublicKey_fields (o : option CryptoKey) :
  hoare (fields_invariant o) load_ownPublicKey
        (fun _ => fields_invariant o) (fields_invariant o).
Proof. run_statement; solve_fields. Qed.

Lemma generate_if_incomplete_fields (o : option CryptoKey) :
  hoare (fields_invariant o) generate_if_incomplete
        (fun _ s => fields_invariant o s /\ own_pair_present (this s))
        (fields_invariant o).
Proof. run_statement; solve_fields. Qed.

Lemma load_peerPublicKey_fields (o : option CryptoKey) :
  hoare (fun s => fields_invariant o s /\ own_pair_present (this s))
        load_peerPublicKey
        (fun _ s => fields_invariant o s /\ own_pair_present (this s))
        (fields_invariant o).
Proof. run_statement; solve_fields. Qed.

Lemma derive_if_possible_fields (o : option CryptoKey) :
  hoare (fun s => fields_invariant o s /\ own_pair_present (this s))
        derive_if_possible
        (fun _ s => fields_invariant o s /\ own_pair_present (this s) /\
                    secret_iff_inputs (this s))
        (fields_invariant o).
Proof. run_statement; solve_fields. Qed.


Lemma loadKeysIfNeeded_fields (o : option CryptoKey) :
  hoare (fields_invariant o) loadKeysIfNeeded
        (fun _ s => fields_invariant o s /\ own_pair_present (this s) /\
                    secret_iff_inputs (this s))
        (fields_invariant o).
Proof.
  unfold loadKeysIfNeeded.
  eapply hoare_seq; [apply load_ownPrivateKey_fields | intros _].
  eapply hoare_seq; [apply load_ownPublicKey_fields | intros _].
  eapply hoare_seq; [apply generate_if_incomplete_fields | intros _].
  eapply hoare_seq; [apply load_peerPublicKey_fields | intros _].
  apply derive_if_possible_fields.
Qed.

(** With every field set there is nothing to load. *)
Lemma loadKeysIfNeeded_nothing_to_load (s : St) :
  own_pair_present (this s) -> is_Some (peerPublicKey (this s)) ->
  is_Some (sharedSecret (this s)) ->
  loadKeysIfNeeded s = (s, inr tt).
Proof.
  destruct s as [[own_priv own_pub peer secret] w].
  unfold own_pair_present; simpl.
  intros [[a ->] [b ->]] [c ->] [d ->]. reflexivity.
Qed.


(** *** The public methods keep the invariant *)

Lemma getOwnPublicKey_fields (o : option CryptoKey) :
  hoare (fields_invariant o) getOwnPublicKey
        (fun r s => fields_invariant o s /\ own_pair_present (this s) /\
                    secret_iff_inputs (this s) /\ r = ownPublicKey (this s))
        (fields_invariant o).
Proof.
  unfold getOwnPublicKey.
  eapply hoare_bind; [apply loadKeysIfNeeded_fields | intros u].
  intros s H. unfold bind, get_this, ret; simpl. tauto.
Qed.

Lemma getSharedSecret_fields (o : option CryptoKey) :
  hoare (fields_invariant o) getSharedSecret
        (fun r s => fields_invariant o s /\ own_pair_present (this s) /\
                    secret_iff_inputs (this s) /\ r = sharedSecret (this s))
        (fields_invariant o).
Proof.
  unfold getSharedSecret.
  eapply hoare_bind; [apply loadKeysIfNeeded_fields | intros u].
  intros s H. unfold bind, get_this, ret; simpl. tauto.
Qed.

Lemma storeKey_this (item : StorageItem) (key : CryptoKey) (s : St) :
  this (fst (storeKey item key s)) = this s.
Proof.
  unfold storeKey, setItem, preferences_call, bind, await.
  destruct (exportKeyToHexString (keyType item) key); simpl; [reflexivity |].
  destruct (preferences_fault _ _); reflexivity.
Qed.

(** [setPeerPublicKey] sets up the invariant from any state. *)
Lemma setPeerPublicKey_fields (key : CryptoKey) :
  hoare (fun _ => True) (setPeerPublicKey key)
        (fun _ s => fields_invariant (Some key) s /\
                    own_pair_present (this s) /\ secret_iff_inputs (this s))
        (fields_invariant (Some key)).
Proof.
  unfold setPeerPublicKey.
  eapply hoare_seq with (R := fun s => sharedSecret (this s) = None).
  { intros s _. reflexivity. }
  intros _.
  eapply hoare_seq with (R := fields_invariant (Some key)).
  { intros s H. unfold set_this; simpl. solve_fields. }
  intros _.
  eapply hoare_seq with (R := fields_invariant (Some key)).
  { intros s H. pose proof (storeKey_this PEER_PUBLIC_KEY key s) as Hs.
    destruct (storeKey PEER_PUBLIC_KEY key s) as [s1 [e | []]]; simpl in Hs;
      unfold fields_invariant; rewrite Hs; exact H. }
  intros _. apply loadKeysIfNeeded_fields.
Qed.

Lemma promise_all_this (ps : list (M unit)) :
  (forall p s, In p ps -> this (fst (p s)) = this s) ->
  forall s, this (fst (promise_all ps s)) = this s.
Proof.
  induction ps as [| p ps IH]; intros Hps s; simpl; [reflexivity |].
  pose proof (Hps p s (or_introl eq_refl)) as Hp.
  destruct (p s) as [s1 r1]. simpl in Hp.
  assert (IH' := IH (fun q t Hq => Hps q t (or_intror Hq)) s1).
  destruct (promise_all ps s1) as [s2 r2]. simpl in *. congruence.
Qed.

Lemma removeItem_this (key : string) (s : St) :
  this (fst (removeItem key s)) = this s.
Proof.
  unfold removeItem, preferences_call.
  destruct (preferences_fault _ _); reflexivity.
Qed.

Lemma clear_unfold (s : St) :
  clear s =
  promise_all
    [ removeItem (storageKey OWN_PUBLIC_KEY);
      removeItem (storageKey OWN_PRIVATE_KEY);
      removeItem (storageKey PEER_PUBLIC_KEY) ]
    {| this := new_KeyManager; world := world s |}.
Proof. reflexivity. Qed.

Lemma clear_this (s : St) : this (fst (clear s)) = new_KeyManager.
Proof.
  rewrite clear_unfold, promise_all_this; [reflexivity |].
  intros p t [<- | [<- | [<- | []]]]; apply removeItem_this.
Qed.

Lemma clear_fields (o : option CryptoKey) :
  hoare (fun _ => True) clear
        (fun _ s => secret_is_derived (this s) /\ secret_iff_inputs (this s))
        (fun s => secret_is_derived (this s)).
Proof.
  intros s _. pose proof (clear_this s) as H.
  destruct (clear s) as [s1 [e | []]]; simpl in H; rewrite H;
    unfold new_KeyManager; solve_fields.
Qed.

(** Every state of a manager keeps its cached secret derived from its
    fields. *)
Lemma reachable_secret_is_derived (s : St) :
  reachable s -> secret_is_derived (this s).
Proof.
  induction 1 as [w | s c _ IH].
  - intros secret H. discriminate.
  - assert (Hinv : fields_invariant None s).
    { split; [exact IH | discriminate]. }
    destruct c as [| | key |]; simpl.
    + pose proof (getOwnPublicKey_fields None s Hinv) as H.
      destruct (getOwnPublicKey s) as [s1 [e | r]]; simpl; apply H.
    + pose proof (getSharedSecret_fields None s Hinv) as H.
      destruct (getSharedSecret s) as [s1 [e | r]]; simpl; apply H.
    + pose proof (setPeerPublicKey_fields key s I) as H.
      destruct (setPeerPublicKey key s) as [s1 [e | r]]; simpl; apply H.
    + pose proof (clear_fields None s I) as H.
      destruct (clear s) as [s1 [e | r]]; simpl; apply H.
Qed.

(** After a call that returned, the secret is there exactly when its
    inputs are. *)
Lemma completed_call_secret_iff_inputs (s : St) (c : Call) :
  reachable s -> call_completed c s = true ->
  secret_iff_inputs (this (call_after c s)).
Proof.
  intros Hr Hc. apply reachable_secret_is_derived in Hr.
  assert (Hinv : fields_invariant None s).
  { split; [exact Hr | discriminate]. }
  destruct c as [| | key |]; simpl in *.
  - pose proof (getOwnPublicKey_fields None s Hinv) as H.
    destruct (getOwnPublicKey s) as [s1 [e | r]]; simpl in *;
      [discriminate | apply H].
  - pose proof (getSharedSecret_fields None s Hinv) as H.
    destruct (getSharedSecret s) as [s1 [e | r]]; simpl in *;
      [discriminate | apply H].
  - pose proof (setPeerPublicKey_fields key s I) as H.
    destruct (setPeerPublicKey key s) as [s1 [e | r]]; simpl in *;
      [discriminate | apply H].
  - pose proof (clear_fields None s I) as H.
    destruct (clear s) as [s1 [e | r]]; simpl in *;
      [discriminate | apply H].
Qed.


(** ** What is written to the preferences *)

Ltac solve_appended :=
  unfold appended in *; simpl in *;
  match goal with
  | H : exists new, _ = _ ++ new /\ Forall _ new |- _ =>
      let new := fresh "new" in
      let HF := fresh "HF" in
      destruct H as (new & -> & HF);
      repeat rewrite <- app_assoc;
      eexists; split; [reflexivity |];
      rewrite ?Forall_app, ?Forall_cons, ?Forall_nil;
      repeat split; try exact HF; simpl;
      first [ exact I
            | left; solve [eauto 10]
            | right; left; solve [eauto 10]
            | right; right; solve [eauto 10]
            | idtac ]
  end.

Section Appended.

Variable peer_key : option CryptoKey.
Variable log0 : list PreferencesCall.

Let logged : St -> Prop := appended (key_write peer_key) log0.

Lemma load_ownPrivateKey_appended :
  hoare logged load_ownPrivateKey (fun _ => logged) logged.
Proof. subst logged. run_statement; solve_appended. Qed.

Lemma load_ownPublicKey_appended :
  hoare logged load_ownPublicKey (fun _ => logged) logged.
Proof. subst logged. run_statement; solve_appended. Qed.

Lemma generate_if_incomplete_appended :
  hoare logged generate_if_incomplete (fun _ => logged) logged.
Proof. subst logged. run_statement; solve_appended. Qed.

Lemma load_peerPublicKey_appended :
  hoare logged load_peerPublicKey (fun _ => logged) logged.
Proof. subst logged. run_statement; solve_appended. Qed.

Lemma derive_if_possible_appended :
  hoare logged derive_if_possible (fun _ => logged) logged.
Proof. subst logged. run_statement; solve_appended. Qed.

Lemma loadKeysIfNeeded_appended :
  hoare logged loadKeysIfNeeded (fun _ => logged) logged.
Proof.
  unfold loadKeysIfNeeded.
  eapply hoare_seq; [apply load_ownPrivateKey_appended | intros _].
  eapply hoare_seq; [apply load_ownPublicKey_appended | intros _].
  eapply hoare_seq; [apply generate_if_incomplete_appended | intros _].
  eapply hoare_seq; [apply load_peerPublicKey_appended | intros _].
  apply derive_if_possible_appended.
Qed.

Lemma getOwnPublicKey_appended :
  hoare logged getOwnPublicKey (fun _ => logged) logged.
Proof.
  unfold getOwnPublicKey.
  eapply hoare_seq; [apply loadKeysIfNeeded_appended | intros u].
  intros s H. exact H.
Qed.

Lemma getSharedSecret_appended :
  hoare logged getSharedSecret (fun _ => logged) logged.
Proof.
  unfold getSharedSecret.
  eapply hoare_seq; [apply loadKeysIfNeeded_appended | intros u].
  intros s H. exact H.
Qed.

Lemma clear_appended : hoare logged clear (fun _ => logged) logged.
Proof.
  subst logged. intros s H. rewrite clear_unfold.
  destruct s as [k [prefs log count]].
  unfold promise_all, removeItem, preferences_call; simpl in *.
  repeat (case_step; simpl in * ); solve_appended.
Qed.

End Appended.

Lemma setPeerPublicKey_appended (key : CryptoKey) (log0 : list PreferencesCall) :
  hoare (appended (key_write (Some key)) log0) (setPeerPublicKey key)
        (fun _ => appended (key_write (Some key)) log0)
        (appended (key_write (Some key)) log0).
Proof.
  unfold setPeerPublicKey.
  eapply hoare_seq with (R := appended (key_write (Some key)) log0).
  { intros s H. exact H. }
  intros _.
  eapply hoare_seq with (R := appended (key_write (Some key)) log0).
  { intros s H. exact H. }
  intros _.
  eapply hoare_seq with (R := appended (key_write (Some key)) log0).
  { run_statement; solve_appended. }
  intros _. apply loadKeysIfNeeded_appended.
Qed.

(** A call writes nothing but exports of generated own keys and of the
    peer key it was given. *)
Lemma call_writes_keys_only (s : St) (c : Call) :
  appended (key_write (peer_argument c)) (calls (world s)) (call_after c s).
Proof.
  assert (H0 : appended (key_write (peer_argument c)) (calls (world s)) s).
  { exists []. split; [symmetry; apply app_nil_r | constructor]. }
  destruct c as [| | key |]; simpl.
  - pose proof (getOwnPublicKey_appended None _ s H0) as H.
    destruct (getOwnPublicKey s) as [s1 [e | r]]; exact H.
  - pose proof (getSharedSecret_appended None _ s H0) as H.
    destruct (getSharedSecret s) as [s1 [e | r]]; exact H.
  - pose proof (setPeerPublicKey_appended key _ s H0) as H.
    destruct (setPeerPublicKey key s) as [s1 [e | r]]; exact H.
  - pose proof (clear_appended None _ s H0) as H.
    destruct (clear s) as [s1 [e | r]]; exact H.
Qed.


(** ** What the loading finds in storage *)

Section ScopedKeysApart.

Hypothesis scopedKey_inj : forall a b : string, scopedKey a = scopedKey b -> a = b.

Lemma private_public_apart : scopedKey "ownPrivateKey" <> scopedKey "ownPublicKey".
Proof. intros H. apply scopedKey_inj in H. discriminate. Qed.

Lemma private_peer_apart : scopedKey "ownPrivateKey" <> scopedKey "peerPublicKey".
Proof. intros H. apply scopedKey_inj in H. discriminate. Qed.

Lemma public_peer_apart : scopedKey "ownPublicKey" <> scopedKey "peerPublicKey".
Proof. intros H. apply scopedKey_inj in H. discriminate. Qed.

Ltac solve_stored :=
  pose proof private_public_apart;
  pose proof private_peer_apart;
  pose proof public_peer_apart;
  unfold missing_half, holds_and_persists, peer_unknown, absent,
    loadable, stored, set_ownPrivateKey, set_ownPublicKey,
    set_peerPublicKey, set_sharedSecret in *;
  simpl in *;
  try solve [ exact I
            | naive_solver (simplify_map_eq; eauto 10) ].

(** *** One half missing: a new pair *)

Section Regeneration.

Variable n : nat.

Lemma load_ownPrivateKey_half :
  hoare (fun s => missing_half s /\ generated (world s) = n)
        load_ownPrivateKey
        (fun _ s => (ownPrivateKey (this s) = None \/
                     (ownPublicKey (this s) = None /\
                      absent OWN_PUBLIC_KEY s)) /\
                    generated (world s) = n)
        (fun _ => True).
Proof. run_statement; solve_stored. Qed.

Lemma load_ownPublicKey_half :
  hoare (fun s => (ownPrivateKey (this s) = None \/
                   (ownPublicKey (this s) = None /\
                    absent OWN_PUBLIC_KEY s)) /\
                  generated (world s) = n)
        load_ownPublicKey
        (fun _ s => (ownPrivateKey (this s) = None \/
                     ownPublicKey (this s) = None) /\
                    generated (world s) = n)
        (fun _ => True).
Proof. run_statement; solve_stored. Qed.

Lemma generate_if_incomplete_half :
  hoare (fun s => (ownPrivateKey (this s) = None \/
                   ownPublicKey (this s) = None) /\
                  generated (world s) = n)
        generate_if_incomplete
        (fun _ s => exists kp, cipher_generateKeyPair n = inr kp /\
                               holds_and_persists kp s /\
                               generated (world s) = S n)
        (fun _ => True).
Proof. run_statement; solve_stored. Qed.

Lemma load_peerPublicKey_half :
  hoare (fun s => exists kp, cipher_generateKeyPair n = inr kp /\
                             holds_and_persists kp s /\
                             generated (world s) = S n)
        load_peerPublicKey
        (fun _ s => exists kp, cipher_generateKeyPair n = inr kp /\
                               holds_and_persists kp s /\
                               generated (world s) = S n)
        (fun _ => True).
Proof. run_statement; solve_stored. Qed.

Lemma derive_if_possible_half :
  hoare (fun s => exists kp, cipher_generateKeyPair n = inr kp /\
                             holds_and_persists kp s /\
                             generated (world s) = S n)
        derive_if_possible
        (fun _ s => exists kp, cipher_generateKeyPair n = inr kp /\
                               holds_and_persists kp s /\
                               generated (world s) = S n)
        (fun _ => True).
Proof. run_statement; solve_stored. Qed.

Lemma loadKeysIfNeeded_half :
  hoare (fun s => missing_half s /\ generated (world s) = n)
        loadKeysIfNeeded
        (fun _ s => exists kp, cipher_generateKeyPair n = inr kp /\
                               holds_and_persists kp s /\
                               generated (world s) = S n)
        (fun _ => True).
Proof.
  unfold loadKeysIfNeeded.
  eapply hoare_seq; [apply load_ownPrivateKey_half | intros _].
  eapply hoare_seq; [apply load_ownPublicKey_half | intros _].
  eapply hoare_seq; [apply generate_if_incomplete_half | intros _].
  eapply hoare_seq; [apply load_peerPublicKey_half | intros _].
  apply derive_if_possible_half.
Qed.

End Regeneration.

(** *** No peer key: no secret *)

Lemma load_ownPrivateKey_peer_unknown :
  hoare peer_unknown load_ownPrivateKey (fun _ => peer_unknown) peer_unknown.
Proof. run_statement; solve_stored. Qed.

Lemma load_ownPublicKey_peer_unknown :
  hoare peer_unknown load_ownPublicKey (fun _ => peer_unknown) peer_unknown.
Proof. run_statement; solve_stored. Qed.

Lemma generate_if_incomplete_peer_unknown :
  hoare peer_unknown generate_if_incomplete (fun _ => peer_unknown) peer_unknown.
Proof. run_statement; solve_stored. Qed.

Lemma load_peerPublicKey_peer_unknown :
  hoare peer_unknown load_peerPublicKey (fun _ => peer_unknown) peer_unknown.
Proof. run_statement; solve_stored. Qed.

Lemma derive_if_possible_peer_unknown :
  hoare peer_unknown derive_if_possible (fun _ => peer_unknown) peer_unknown.
Proof. run_statement; solve_stored. Qed.

Lemma loadKeysIfNeeded_peer_unknown :
  hoare peer_unknown loadKeysIfNeeded (fun _ => peer_unknown) peer_unknown.
Proof.
  unfold loadKeysIfNeeded.
  eapply hoare_seq; [apply load_ownPrivateKey_peer_unknown | intros _].
  eapply hoare_seq; [apply load_ownPublicKey_peer_unknown | intros _].
  eapply hoare_seq; [apply generate_if_incomplete_peer_unknown | intros _].
  eapply hoare_seq; [apply load_peerPublicKey_peer_unknown | intros _].
  apply derive_if_possible_peer_unknown.
Qed.

(** *** Collaborators that do not fail: every call returns *)

Section Reliable.

Hypothesis storage_ok : storage_reliable.
Hypothesis cipher_ok : cipher_reliable.

Ltac use_reliable :=
  let Hgen := fresh "Hgen" in
  let Hexp := fresh "Hexp" in
  let Hder := fresh "Hder" in
  destruct cipher_ok as (Hgen & Hexp & Hder);
  try match goal with
      | H : preferences_fault _ _ = Some _ |- _ =>
          rewrite storage_ok in H; discriminate
      | H : cipher_generateKeyPair ?n = inl _ |- _ =>
          destruct (Hgen n); congruence
      | H : exportKeyToHexString ?t ?k = inl _ |- _ =>
          destruct (Hexp t k); congruence
      | H : deriveSharedSecret ?a ?b = inl _ |- _ =>
          destruct (Hder a b); congruence
      end;
  clear Hgen Hexp Hder.

Ltac solve_readable :=
  use_reliable;
  pose proof private_public_apart;
  pose proof private_peer_apart;
  pose proof public_peer_apart;
  match goal with
  | H : all_readable _ |- _ =>
      pose proof (H OwnPrivate); pose proof (H OwnPublic);
      pose proof (H PeerPublic); clear H
  end;
  try (let slot := fresh "slot" in
       let Hnone := fresh "Hnone" in
       intros slot; destruct slot; intros Hnone;
       try discriminate Hnone);
  unfold readable, absent, loadable, stored, set_ownPrivateKey,
    set_ownPublicKey, set_peerPublicKey, set_sharedSecret in *;
  simpl in *;
  repeat match goal with
         | H : None = None -> _ |- _ => specialize (H eq_refl)
         | H : Some _ = None -> _ |- _ => clear H
         | H : ?x = None -> _, H' : ?x = None |- _ => specialize (H H')
         end;
  rewrite ?lookup_insert_ne by congruence;
  try assumption;
  try solve [ repeat match goal with
                     | H : _ \/ _ |- _ => destruct H
                     | H : ex _ |- _ => destruct H
                     | H : _ /\ _ |- _ => destruct H
                     end;
              try congruence; simplify_eq; eauto 8 ].

Lemma load_ownPrivateKey_returns :
  hoare all_readable load_ownPrivateKey (fun _ => all_readable) (fun _ => False).
Proof. run_statement; solve_readable. Qed.

Lemma load_ownPublicKey_returns :
  hoare all_readable load_ownPublicKey (fun _ => all_readable) (fun _ => False).
Proof. run_statement; solve_readable. Qed.

Lemma generate_if_incomplete_returns :
  hoare all_readable generate_if_incomplete (fun _ => all_readable) (fun _ => False).
Proof. run_statement; solve_readable. Qed.

Lemma load_peerPublicKey_returns :
  hoare all_readable load_peerPublicKey (fun _ => all_readable) (fun _ => False).
Proof. run_statement; solve_readable. Qed.

Lemma derive_if_possible_returns :
  hoare all_readable derive_if_possible (fun _ => all_readable) (fun _ => False).
Proof. run_statement; solve_readable. Qed.

Lemma loadKeysIfNeeded_returns :
  hoare all_readable loadKeysIfNeeded (fun _ => all_readable) (fun _ => False).
Proof.
  unfold loadKeysIfNeeded.
  eapply hoare_seq; [apply load_ownPrivateKey_returns | intros _].
  eapply hoare_seq; [apply load_ownPublicKey_returns | intros _].
  eapply hoare_seq; [apply generate_if_incomplete_returns | intros _].
  eapply hoare_seq; [apply load_peerPublicKey_returns | intros _].
  apply derive_if_possible_returns.
Qed.

Lemma getOwnPublicKey_returns :
  hoare all_readable getOwnPublicKey
        (fun r s => all_readable s /\ r = ownPublicKey (this s))
        (fun _ => False).
Proof.
  unfold getOwnPublicKey.
  eapply hoare_seq; [apply loadKeysIfNeeded_returns | intros u].
  intros s H. unfold bind, get_this, ret; simpl. tauto.
Qed.

Lemma getSharedSecret_returns :
  hoare all_readable getSharedSecret
        (fun r s => all_readable s /\ r = sharedSecret (this s))
        (fun _ => False).
Proof.
  unfold getSharedSecret.
  eapply hoare_seq; [apply loadKeysIfNeeded_returns | intros u].
  intros s H. unfold bind, get_this, ret; simpl. tauto.
Qed.

Lemma clear_returns :
  hoare all_readable clear (fun _ => all_readable) (fun _ => False).
Proof.
  intros s H. rewrite clear_unfold.
  destruct s as [k [prefs log count]].
  unfold promise_all, removeItem, preferences_call; simpl in *.
  rewrite !storage_ok. simpl.
  intros slot _. left. left. destruct slot; unfold stored; simpl;
    rewrite ?lookup_delete_eq;
    repeat (rewrite lookup_delete_ne by
              first [ apply private_public_apart | apply private_peer_apart
                    | apply public_peer_apart
                    | apply not_eq_sym, private_public_apart
                    | apply not_eq_sym, private_peer_apart
                    | apply not_eq_sym, public_peer_apart ]);
    rewrite ?lookup_delete_eq; reflexivity.
Qed.

(** From a state whose slots can be read, calls other than
    [setPeerPublicKey] return and leave such a state. *)
Lemma call_returns (c : Call) (s : St) :
  is_setPeerPublicKey c = false -> all_readable s ->
  call_completed c s = true /\ all_readable (call_after c s).
Proof.
  intros Hc Hs. destruct c as [| | key |]; simpl in *; try discriminate.
  - pose proof (getOwnPublicKey_returns s Hs) as H.
    destruct (getOwnPublicKey s) as [s1 [e | r]]; simpl; [contradiction |].
    split; [reflexivity | apply H].
  - pose proof (getSharedSecret_returns s Hs) as H.
    destruct (getSharedSecret s) as [s1 [e | r]]; simpl; [contradiction |].
    split; [reflexivity | apply H].
  - pose proof (clear_returns s Hs) as H.
    destruct (clear s) as [s1 [e | r]]; simpl; [contradiction |].
    split; [reflexivity | apply H].
Qed.

Lemma calls_after_readable (cs : list Call) (s : St) :
  forallb (fun c => negb (is_setPeerPublicKey c)) cs = true ->
  all_readable s -> all_readable (calls_after cs s).
Proof.
  revert s. induction cs as [| c cs IH]; intros s Hcs Hs; simpl; [exact Hs |].
  simpl in Hcs. apply andb_true_iff in Hcs as [Hc Hcs].
  apply negb_true_iff in Hc.
  apply IH; [exact Hcs |]. apply call_returns; assumption.
Qed.

End Reliable.

(** *** The calls that do not bring a peer key *)

Lemma getSharedSecret_peer_unknown :
  hoare peer_unknown getSharedSecret
        (fun r s => peer_unknown s /\ r = None) peer_unknown.
Proof.
  unfold getSharedSecret.
  eapply hoare_seq; [apply loadKeysIfNeeded_peer_unknown | intros u].
  intros s H. unfold bind, get_this, ret; simpl.
  split; [exact H | apply H].
Qed.

Lemma getOwnPublicKey_peer_unknown :
  hoare peer_unknown getOwnPublicKey (fun _ => peer_unknown) peer_unknown.
Proof.
  unfold getOwnPublicKey.
  eapply hoare_seq; [apply loadKeysIfNeeded_peer_unknown | intros u].
  intros s H. exact H.
Qed.

Lemma clear_peer_unknown :
  hoare peer_unknown (clear (CryptoKey := CryptoKey))
        (fun _ => peer_unknown) peer_unknown.
Proof.
  intros s H. rewrite clear_unfold.
  destruct s as [k [prefs log count]].
  unfold promise_all, removeItem, preferences_call; simpl in *.
  repeat (case_step; simpl in * );
    unfold peer_unknown, stored in *; simpl in *;
    destruct H as (_ & _ & H); repeat split;
    rewrite ?lookup_delete_eq; try reflexivity;
    repeat (rewrite lookup_delete_ne by
              first [ apply private_peer_apart | apply public_peer_apart ]);
    rewrite ?lookup_delete_eq; try reflexivity; exact H.
Qed.

Lemma call_peer_unknown (c : Call) (s : St) :
  is_setPeerPublicKey c = false -> peer_unknown s ->
  peer_unknown (call_after c s).
Proof.
  intros Hc Hs. destruct c as [| | key |]; simpl in *; try discriminate.
  - pose proof (getOwnPublicKey_peer_unknown s Hs) as H.
    destruct (getOwnPublicKey s) as [s1 [e | r]]; exact H.
  - pose proof (getSharedSecret_peer_unknown s Hs) as H.
    destruct (getSharedSecret s) as [s1 [e | r]]; simpl; [exact H | apply H].
  - pose proof (clear_peer_unknown s Hs) as H.
    destruct (clear s) as [s1 [e | r]]; exact H.
Qed.

Lemma calls_after_peer_unknown (cs : list Call) (s : St) :
  forallb (fun c => negb (is_setPeerPublicKey c)) cs = true ->
  peer_unknown s -> peer_unknown (calls_after cs s).
Proof.
  revert s. induction cs as [| c cs IH]; intros s Hcs Hs; simpl; [exact Hs |].
  simpl in Hcs. apply andb_true_iff in Hcs as [Hc Hcs].
  apply negb_true_iff in Hc.
  apply IH; [exact Hcs |]. apply call_peer_unknown; assumption.
Qed.

End ScopedKeysApart.


Lemma clear_returned (s s1 : St) :
  clear s = (s1, inr tt) ->
  this s1 = new_KeyManager /\ generated (world s1) = generated (world s) /\
  stored OWN_PRIVATE_KEY s1 = None /\ stored OWN_PUBLIC_KEY s1 = None /\
  stored PEER_PUBLIC_KEY s1 = None.
Proof.
  rewrite clear_unfold. destruct s as [k [prefs log count]].
  unfold promise_all, removeItem, preferences_call, stored; simpl.
  repeat (case_step; simpl); intros H; try discriminate H.
  injection H as <-. simpl. repeat split.
  - destruct (decide (scopedKey "peerPublicKey" = scopedKey "ownPrivateKey"))
      as [-> | Hne];
      [apply lookup_delete_eq | rewrite (lookup_delete_ne _ _ _ Hne)].
    apply lookup_delete_eq.
  - destruct (decide (scopedKey "peerPublicKey" = scopedKey "ownPublicKey"))
      as [-> | Hne];
      [apply lookup_delete_eq | rewrite (lookup_delete_ne _ _ _ Hne)].
    destruct (decide (scopedKey "ownPrivateKey" = scopedKey "ownPublicKey"))
      as [-> | Hne'];
      [apply lookup_delete_eq | rewrite (lookup_delete_ne _ _ _ Hne')].
    apply lookup_delete_eq.
  - apply lookup_delete_eq.
Qed.

(** ** The claims about the key manager *)

Lemma setPeerPublicKey_unfold (key : CryptoKey) (s : St) :
  setPeerPublicKey key s =
  match storeKey PEER_PUBLIC_KEY key
          {| this := set_peerPublicKey (Some key)
                       (set_sharedSecret None (this s));
             world := world s |} with
  | (s1, inl e) => (s1, inl e)
  | (s1, inr _) => loadKeysIfNeeded s1
  end.
Proof. reflexivity. Qed.

Lemma setPeerPublicKey_stores (key : CryptoKey) (s : St) :
  returned (snd (setPeerPublicKey key s)) = true ->
  exists hex rest,
    exportKeyToHexString public key = inr hex /\
    calls (world (fst (setPeerPublicKey key s))) =
    calls (world s) ++ PreferencesSet (scopedKey "peerPublicKey") hex :: rest.
Proof.
  rewrite setPeerPublicKey_unfold.
  unfold storeKey, setItem, preferences_call, bind, await; simpl.
  destruct (exportKeyToHexString public key) as [e | hex]; simpl;
    [discriminate |].
  destruct (preferences_fault _ _) as [e |]; simpl; [discriminate |].
  intros _.
  match goal with
  | |- context [loadKeysIfNeeded ?s1] =>
      pose proof (loadKeysIfNeeded_appended None (calls (world s1)) s1) as H;
      destruct (loadKeysIfNeeded s1) as [s2 [e | []]]; simpl in *
  end.
  all: destruct H as (new & Hnew & _);
    [exists []; split; [symmetry; apply app_nil_r | constructor] |].
  all: exists hex, new; split; [reflexivity |];
    rewrite Hnew, <- app_assoc; reflexivity.
Qed.

(** C1. After any sequence of setPeerPublicKey calls, the fields hold the
    latest peer key and a secret derived from it or none; a getSharedSecret
    that follows returns the derivation from the own private key and the
    latest peer key, never null and never a secret of an earlier key; and
    when the last setPeerPublicKey returned, it stored the key and derived
    the secret already, so that getSharedSecret returns it without loading
    anything. *)
Theorem setPeerPublicKey_latest_secret
    (s : St) (keys : list CryptoKey) (key : CryptoKey) :
  let s1 := calls_after (map SetPeerPublicKey keys) s in
  let s2 := fst (setPeerPublicKey key s1) in
  (peerPublicKey (this s2) = Some key /\ secret_is_derived (this s2)) /\
  (forall s3 r,
      getSharedSecret s2 = (s3, inr r) ->
      exists own secret,
        r = Some secret /\ ownPrivateKey (this s3) = Some own /\
        deriveSharedSecret own key = inr secret) /\
  (returned (snd (setPeerPublicKey key s1)) = true ->
   exists own secret hex rest,
     ownPrivateKey (this s2) = Some own /\
     deriveSharedSecret own key = inr secret /\
     getSharedSecret s2 = (s2, inr (Some secret)) /\
     exportKeyToHexString public key = inr hex /\
     calls (world s2) =
     calls (world s1) ++ PreferencesSet (scopedKey "peerPublicKey") hex :: rest).
Proof.
  intros s1 s2.
  pose proof (setPeerPublicKey_fields key s1 I) as Hset.
  pose proof (setPeerPublicKey_stores key s1) as Hstore.
  fold s2 in Hstore.
  assert (Hinv : fields_invariant (Some key) s2).
  { subst s2. destruct (setPeerPublicKey key s1) as [t [e | []]];
      simpl; apply Hset. }
  split; [| split].
  - destruct Hinv as [Hd Hp]. split; [apply Hp; reflexivity | exact Hd].
  - intros s3 r Hget.
    pose proof (getSharedSecret_fields (Some key) s2 Hinv) as H.
    rewrite Hget in H. destruct H as ([Hd Hp] & Hown & Hiff & ->).
    specialize (Hp key eq_refl).
    destruct Hiff as [_ Hsome].
    destruct Hsome as [secret Hsecret].
    { split; [exact Hown | rewrite Hp; eauto]. }
    destruct (Hd secret Hsecret) as (own & peer & Ho & Hpeer & _ & Hder).
    exists own, secret. rewrite Hp in Hpeer. injection Hpeer as <-.
    auto.
  - intros Hret. destruct (Hstore Hret) as (hex & rest & Hexp & Hcalls).
    assert (Hpost : fields_invariant (Some key) s2 /\
                    own_pair_present (this s2) /\ secret_iff_inputs (this s2)).
    { subst s2. destruct (setPeerPublicKey key s1) as [t [e | []]];
        simpl in *; [discriminate | exact Hset]. }
    destruct Hpost as ([Hd Hp] & Hown & Hiff).
    specialize (Hp key eq_refl).
    destruct Hiff as [_ Hsome].
    destruct Hsome as [secret Hsecret].
    { split; [exact Hown | rewrite Hp; eauto]. }
    destruct (Hd secret Hsecret) as (own & peer & Ho & Hpeer & _ & Hder).
    rewrite Hp in Hpeer. injection Hpeer as <-.
    exists own, secret, hex, rest. repeat split; try assumption.
    unfold getSharedSecret, bind, get_this, ret.
    rewrite loadKeysIfNeeded_nothing_to_load; simpl;
      [rewrite Hsecret; reflexivity | exact Hown | rewrite Hp; eauto
      | rewrite Hsecret; eauto].
Qed.

(** C6. After a call of a public method that returned, on any state a
    manager can be in, the shared secret is in memory if and only if the
    own key pair and the peer key are; and whatever a call writes to the
    preferences is the export of a generated own key or of the peer key it
    was given, each under its own storage key: the secret is not
    written. *)
Theorem secret_iff_inputs_and_never_stored (s : St) (c : Call) :
  reachable s ->
  (call_completed c s = true -> secret_iff_inputs (this (call_after c s))) /\
  appended (key_write (peer_argument c)) (calls (world s)) (call_after c s).
Proof.
  intros Hr. split.
  - apply completed_call_secret_iff_inputs; exact Hr.
  - apply call_writes_keys_only.
Qed.

(** C9. clear() makes the three deletions, own-public, own-private and
    peer-public, on every call and whatever fails; a deletion that does
    not fail takes effect even when an earlier one failed; the call
    returns exactly when none failed. *)
Theorem clear_attempts_every_deletion (s : St) :
  let n := length (calls (world s)) in
  let own_public := PreferencesRemove (scopedKey "ownPublicKey") in
  let own_private := PreferencesRemove (scopedKey "ownPrivateKey") in
  let peer_public := PreferencesRemove (scopedKey "peerPublicKey") in
  let s' := fst (clear s) in
  calls (world s') = calls (world s) ++ [own_public; own_private; peer_public] /\
  (preferences_fault n own_public = None ->
   stored OWN_PUBLIC_KEY s' = None) /\
  (preferences_fault (S n) own_private = None ->
   stored OWN_PRIVATE_KEY s' = None) /\
  (preferences_fault (S (S n)) peer_public = None ->
   stored PEER_PUBLIC_KEY s' = None) /\
  (returned (snd (clear s)) = true <->
   preferences_fault n own_public = None /\
   preferences_fault (S n) own_private = None /\
   preferences_fault (S (S n)) peer_public = None).
Proof.
  intros n own_public own_private peer_public s'.
  subst s' n own_public own_private peer_public.
  rewrite clear_unfold.
  destruct s as [k [prefs log count]].
  unfold promise_all, removeItem, preferences_call, stored; simpl.
  destruct (preferences_fault (length log) _) as [e1 |]; simpl;
    rewrite ?length_app; simpl; rewrite ?Nat.add_1_r;
    destruct (preferences_fault (S (length log)) _) as [e2 |]; simpl;
    rewrite ?length_app; simpl; rewrite ?Nat.add_1_r;
    destruct (preferences_fault (S (S (length log))) _) as [e3 |];
    simpl; rewrite <- ?app_assoc; simpl;
    (split; [reflexivity |]);
    repeat split; intros; try discriminate; try tauto;
    repeat match goal with
           | |- delete ?k _ !! ?k = None => apply lookup_delete_eq
           | |- delete ?j _ !! ?k = None =>
               let Hne := fresh "Hne" in
               destruct (decide (j = k)) as [-> | Hne];
               [apply lookup_delete_eq | rewrite (lookup_delete_ne _ _ _ Hne)]
           end;
    try match goal with H : _ /\ _ |- _ => destruct H as (? & ? & ?) end;
    try discriminate.
Qed.

Section ScopedClaims.

Hypothesis scopedKey_inj : forall a b : string, scopedKey a = scopedKey b -> a = b.

Lemma getOwnPublicKey_half (n : nat) :
  hoare (fun s => missing_half s /\ generated (world s) = n)
        getOwnPublicKey
        (fun r s => exists kp, cipher_generateKeyPair n = inr kp /\
                               holds_and_persists kp s /\
                               generated (world s) = S n /\
                               r = Some (publicKey kp))
        (fun _ => True).
Proof.
  unfold getOwnPublicKey.
  eapply hoare_seq; [apply (loadKeysIfNeeded_half scopedKey_inj n) | intros u].
  intros s (kp & Hgen & Hkp & Hn). unfold bind, get_this, ret; simpl.
  exists kp. repeat split; try assumption; apply Hkp.
Qed.

Lemma getSharedSecret_half (n : nat) :
  hoare (fun s => (missing_half s /\ generated (world s) = n) /\
                  fields_invariant None s)
        getSharedSecret
        (fun r s => exists kp, cipher_generateKeyPair n = inr kp /\
                               holds_and_persists kp s /\
                               generated (world s) = S n /\
                               forall secret, r = Some secret ->
                                 exists peer,
                                   peerPublicKey (this s) = Some peer /\
                                   deriveSharedSecret (privateKey kp) peer
                                   = inr secret)
        (fun _ => True).
Proof.
  unfold getSharedSecret.
  eapply hoare_bind.
  { eapply hoare_consequence;
      [ apply (hoare_conj _ _ _ _ _ _ _
                 (loadKeysIfNeeded_half scopedKey_inj n)
                 (loadKeysIfNeeded_fields None))
      | intros s H; exact H
      | intros a s H; exact H
      | intros s H; exact I ]. }
  intros u s ((kp & Hgen & Hkp & Hn) & ([Hd _] & _ & _)).
  unfold bind, get_this, ret; simpl.
  exists kp. split; [exact Hgen |]. split; [exact Hkp |].
  split; [exact Hn |].
  intros secret Hs. destruct (Hd secret Hs) as (own & peer & Ho & Hp & _ & Hder).
  exists peer. split; [exact Hp |].
  destruct Hkp as (Hpriv & _). rewrite Hpriv in Ho. injection Ho as <-.
  exact Hder.
Qed.

(** C2. When storage holds exactly one half of the own key pair and the
    half it lacks is not in memory either, a key-loading access that
    returns has generated the next key pair of the device, holds it and
    has stored both halves; getOwnPublicKey returns its public key and the
    secret that getSharedSecret returns, if any, comes from its private
    key.  With collaborators that do not fail and a peer slot that can be
    read, both accesses return. *)
Theorem orphaned_half_is_regenerated (s : St) :
  reachable s -> orphaned_half s -> missing_half s ->
  let n := generated (world s) in
  (forall s' r,
      getOwnPublicKey s = (s', inr r) ->
      exists kp, cipher_generateKeyPair n = inr kp /\
                 holds_and_persists kp s' /\
                 generated (world s') = S n /\
                 r = Some (publicKey kp)) /\
  (forall s' r,
      getSharedSecret s = (s', inr r) ->
      exists kp, cipher_generateKeyPair n = inr kp /\
                 holds_and_persists kp s' /\
                 generated (world s') = S n /\
                 forall secret, r = Some secret ->
                   exists peer,
                     peerPublicKey (this s') = Some peer /\
                     deriveSharedSecret (privateKey kp) peer = inr secret) /\
  (storage_reliable -> cipher_reliable -> readable PeerPublic s ->
   (exists s' key, getOwnPublicKey s = (s', inr (Some key))) /\
   (exists s' r, getSharedSecret s = (s', inr r))).
Proof.
  intros Hr Horphan Hmissing n.
  assert (Hinv : fields_invariant None s).
  { split; [apply reachable_secret_is_derived; exact Hr | discriminate]. }
  assert (Hown : forall s' r,
             getOwnPublicKey s = (s', inr r) ->
             exists kp, cipher_generateKeyPair n = inr kp /\
                        holds_and_persists kp s' /\
                        generated (world s') = S n /\
                        r = Some (publicKey kp)).
  { intros s' r Hget.
    pose proof (getOwnPublicKey_half n s (conj Hmissing eq_refl)) as H.
    rewrite Hget in H. exact H. }
  split; [exact Hown | split].
  - intros s' r Hget.
    pose proof (getSharedSecret_half n s
                  (conj (conj Hmissing eq_refl) Hinv)) as H.
    rewrite Hget in H. exact H.
  - intros Hst Hci Hpeer.
    assert (Hall : all_readable s).
    { intros slot. destruct slot; [| | exact Hpeer]; intros _;
        destruct Horphan as [[H1 H2] | [H1 H2]]; auto. }
    split.
    + pose proof (getOwnPublicKey_returns scopedKey_inj Hst Hci s Hall) as H.
      destruct (getOwnPublicKey s) as [s' [e | r]] eqn:Hget; [contradiction |].
      destruct (Hown s' r eq_refl) as (kp & _ & _ & _ & ->). eauto.
    + pose proof (getSharedSecret_returns scopedKey_inj Hst Hci s Hall) as H.
      destruct (getSharedSecret s) as [s' [e | r]] eqn:Hget; [contradiction |].
      eauto.
Qed.

(** C8. After a clear() that returned, a getOwnPublicKey that returns
    gives the public key of the key pair generated during that access, the
    next one of the device: when key generation yields fresh keys it
    differs from every public key generated before.  Whatever calls other
    than setPeerPublicKey follow the clear(), a getSharedSecret that
    returns gives null.  With collaborators that do not fail, both
    return. *)
Theorem clear_then_fresh_identity (s s1 : St) :
  clear s = (s1, inr tt) ->
  let n := generated (world s1) in
  (forall s2 r,
      getOwnPublicKey s1 = (s2, inr r) ->
      exists kp, cipher_generateKeyPair n = inr kp /\
                 generated (world s2) = S n /\
                 r = Some (publicKey kp) /\
                 (generates_fresh_keys ->
                  forall i kp', i < n -> cipher_generateKeyPair i = inr kp' ->
                                publicKey kp' <> publicKey kp)) /\
  (forall cs s2 r,
      forallb (fun c => negb (is_setPeerPublicKey c)) cs = true ->
      getSharedSecret (calls_after cs s1) = (s2, inr r) ->
      r = None) /\
  (storage_reliable -> cipher_reliable ->
   (exists s2 key, getOwnPublicKey s1 = (s2, inr (Some key))) /\
   (forall cs,
       forallb (fun c => negb (is_setPeerPublicKey c)) cs = true ->
       exists s2, getSharedSecret (calls_after cs s1) = (s2, inr None))).
Proof.
  intros Hclear n.
  destruct (clear_returned s s1 Hclear) as (Hthis & _ & Hpriv & Hpub & Hpeer).
  assert (Hmissing : missing_half s1).
  { left. rewrite Hthis. split; [reflexivity | left; exact Hpriv]. }
  assert (Hunknown : peer_unknown s1).
  { unfold peer_unknown. rewrite Hthis. repeat split; assumption. }
  assert (Hall : all_readable s1).
  { intros slot _. left. left. destruct slot; assumption. }
  assert (Hown : forall s2 r,
             getOwnPublicKey s1 = (s2, inr r) ->
             exists kp, cipher_generateKeyPair n = inr kp /\
                        generated (world s2) = S n /\
                        r = Some (publicKey kp) /\
                        (generates_fresh_keys ->
                         forall i kp', i < n ->
                                       cipher_generateKeyPair i = inr kp' ->
                                       publicKey kp' <> publicKey kp)).
  { intros s2 r Hget.
    pose proof (getOwnPublicKey_half n s1 (conj Hmissing eq_refl)) as H.
    rewrite Hget in H. destruct H as (kp & Hgen & _ & Hn & ->).
    exists kp. repeat split; try assumption.
    intros Hfresh i kp' Hi Hgen'. apply (Hfresh i n kp' kp Hgen' Hgen). lia. }
  assert (Hsecret : forall cs s2 r,
             forallb (fun c => negb (is_setPeerPublicKey c)) cs = true ->
             getSharedSecret (calls_after cs s1) = (s2, inr r) ->
             r = None).
  { intros cs s2 r Hcs Hget.
    pose proof (getSharedSecret_peer_unknown scopedKey_inj _
                  (calls_after_peer_unknown scopedKey_inj cs s1 Hcs Hunknown))
      as H.
    rewrite Hget in H. apply H. }
  split; [exact Hown | split; [exact Hsecret |]].
  intros Hst Hci. split.
  - pose proof (getOwnPublicKey_returns scopedKey_inj Hst Hci s1 Hall) as H.
    destruct (getOwnPublicKey s1) as [s2 [e | r]] eqn:Hget; [contradiction |].
    destruct (Hown s2 r eq_refl) as (kp & _ & _ & -> & _). eauto.
  - intros cs Hcs.
    pose proof (getSharedSecret_returns scopedKey_inj Hst Hci _
                  (calls_after_readable scopedKey_inj Hst Hci cs s1 Hcs Hall))
      as H.
    destruct (getSharedSecret (calls_after cs s1)) as [s2 [e | r]] eqn:Hget;
      [contradiction |].
    rewrite (Hsecret cs s2 r Hcs Hget). eauto.
Qed.

End ScopedClaims.


End KeyManagerProofs.

(** * Proofs: the round trip *)

Section RoundTripProofs.

Context {Request Response : Type} {codec : Codec Request Response}.

Abbreviation Att := (Attempt Response).

Variable appCustomScheme : string.

Ltac break_attempt a :=
  destruct a as [[l b t] [st n] [al bl tm bo cc] ss ca].

(** ** Teardown *)

Lemma remove_idempotent (h : Handle) (x : Host) :
  remove h (remove h x) = remove h x.
Proof. destruct h; reflexivity. Qed.

Lemma clearTimeout_idempotent (id : nat) (x : Host) :
  clearTimeout id (clearTimeout id x) = clearTimeout id x.
Proof. reflexivity. Qed.

Lemma remove_listeners_idempotent (a : Att) :
  remove_listeners (remove_listeners a) = remove_listeners a.
Proof.
  break_attempt a. destruct l as [[|] |], b as [[|] |]; reflexivity.
Qed.

Lemma cleanup_idempotent (a : Att) : cleanup (cleanup a) = cleanup a.
Proof.
  break_attempt a. destruct l as [[|] |], b as [[|] |], t; reflexivity.
Qed.

(** Nothing is delivered to an attempt that is torn down, once
    [start()] has returned and no callback awaits. *)
Lemma torn_down_silent (a : Att) (e : Event) :
  torn_down a -> start_state a = start_not_running -> close_awaited a = [] ->
  deliver appCustomScheme a e = None.
Proof.
  intros (Ha & Hb & Ht) Hs Hc.
  destruct e; simpl; unfold on_start_resumed, on_close_settled;
    rewrite ?Ha, ?Hb, ?Ht, ?Hs, ?Hc; reflexivity.
Qed.

(** ** Deep links that do not match *)

Lemma on_appUrlOpen_unmatched (url : string) (a : Att) :
  unmatched appCustomScheme url -> on_appUrlOpen appCustomScheme url a = a.
Proof. unfold unmatched, on_appUrlOpen. intros ->. reflexivity. Qed.

Lemma run_unmatched (urls : list string) (a : Att) :
  Forall (unmatched appCustomScheme) urls ->
  appUrlOpen_listening (host a) = true ->
  run appCustomScheme a (deep_links urls) = Some a.
Proof.
  intros Hu Ha. induction Hu as [| url urls Hurl _ IH]; simpl; [reflexivity |].
  rewrite Ha, on_appUrlOpen_unmatched by exact Hurl. exact IH.
Qed.

Lemma run_app (a : Att) (es es' : list Event) :
  run appCustomScheme a (es ++ es') =
  match run appCustomScheme a es with
  | Some a' => run appCustomScheme a' es'
  | None => None
  end.
Proof.
  revert a. induction es as [| e es IH]; intros a; simpl; [reflexivity |].
  destruct (deliver appCustomScheme a e); [apply IH | reflexivity].
Qed.

(** ** The launch *)

Lemma postRequestToWallet_web (request : Request) (wallet : Wallet) (a : Att) :
  postRequestToWallet request appCustomScheme wallet = inr a ->
  type wallet = web /\ a = executor (requestUrl (scheme wallet) request).
Proof.
  unfold postRequestToWallet. destruct (type wallet); intros H;
    [injection H as <-; auto | discriminate | discriminate].
Qed.

(** When the three calls of [start()] are fulfilled before anything
    else happens, the attempt awaits the return with both handles
    assigned. *)
Lemma launch_awaiting_return (url : string) :
  run appCustomScheme (executor (inr url) : Att) launch
  = Some (awaiting_return url).
Proof. reflexivity. Qed.

(** ** The claims about the round trip *)

(** C10. A deep link whose URL does not start with appCustomScheme leaves
    the attempt as it was: the callback removes no listener, clears no
    timer, closes no browser and settles nothing, so the attempt stays
    pending and registered for what comes later; the same holds of any
    number of such deep links. *)
Theorem unmatched_deep_link_is_ignored (url : string) (a : Att) :
  unmatched appCustomScheme url ->
  on_appUrlOpen appCustomScheme url a = a /\
  (appUrlOpen_listening (host a) = true ->
   deliver appCustomScheme a (appUrlOpen url) = Some a) /\
  (forall urls,
      Forall (unmatched appCustomScheme) urls ->
      appUrlOpen_listening (host a) = true ->
      run appCustomScheme a (deep_links urls) = Some a).
Proof.
  intros Hu. split; [| split].
  - apply on_appUrlOpen_unmatched. exact Hu.
  - intros Ha. simpl. rewrite Ha, on_appUrlOpen_unmatched by exact Hu.
    reflexivity.
  - intros urls Hurls Ha. apply run_unmatched; assumption.
Qed.

(** C7, where the code departs from it.  For a web wallet the timer is
    armed for 300000 ms, whatever the request, the scheme and the
    wallet.  When it fires after a launch that went through and any deep
    links that do not match, the callback removes both listeners and
    calls [InAppBrowser.close()]; when that call is fulfilled the
    browser is closed and the promise is rejected with the user-rejected
    error; when that call is rejected, the callback ends at its await:
    [reject] is never called, the promise stays pending and, nothing
    being registered any more, nothing will settle it. *)
Theorem timeout_fires_and_close_decides
    (request : Request) (wallet : Wallet) :
  type wallet = web ->
  exists a0 : Att,
    postRequestToWallet request appCustomScheme wallet = inr a0 /\
    timer (host a0) = Some 300000%N /\
    forall url urls,
      requestUrl (scheme wallet) request = inr url ->
      Forall (unmatched appCustomScheme) urls ->
      exists a1 : Att,
        run appCustomScheme a0 (launch ++ deep_links urls ++ [timeout])
        = Some a1 /\
        torn_down a1 /\
        close_calls (host a1) = 1 /\
        promise a1 = {| settlement := Pending; settle_calls := 0 |} /\
        (exists a2,
            deliver appCustomScheme a1 (close_settles Fulfils) = Some a2 /\
            browser_open (host a2) = None /\
            promise a2 = {| settlement := Rejected userRejectedRequest;
                            settle_calls := 1 |}) /\
        (forall e, exists a2,
            deliver appCustomScheme a1 (close_settles (Rejects e)) = Some a2 /\
            promise a2 = {| settlement := Pending; settle_calls := 0 |} /\
            forall event, deliver appCustomScheme a2 event = None).
Proof.
  intros Hweb. unfold postRequestToWallet. rewrite Hweb.
  eexists. split; [reflexivity |]. split.
  - unfold executor. destruct (requestUrl (scheme wallet) request); reflexivity.
  - intros url urls Hurl Hu. rewrite Hurl.
    rewrite run_app, launch_awaiting_return.
    rewrite run_app, run_unmatched by (exact Hu || reflexivity).
    eexists. split; [reflexivity |].
    split; [repeat split |]. split; [reflexivity |]. split; [reflexivity |].
    split.
    + eexists. split; [reflexivity |]. split; reflexivity.
    + intros e. eexists. split; [reflexivity |]. split; [reflexivity |].
      intros event. apply torn_down_silent; repeat split.
Qed.

(** C3, where the code departs from it.  The awaited
    [InAppBrowser.close()] is in no [try] block: when it is rejected,
    in the callback of the timer or in the callback of a matching deep
    link, decodable or not, the promise is not rejected at all; it stays
    pending and nothing is left that could settle it.  Making the
    request URL is in no [try] block either: when it throws, as
    [new URL] does for a scheme that is no URL, the promise is rejected
    with what was thrown, not with the user-rejected error, and
    [start()] is never called. *)
Theorem unguarded_steps_are_not_normalized
    (request : Request) (wallet : Wallet) :
  type wallet = web ->
  exists a0 : Att,
    postRequestToWallet request appCustomScheme wallet = inr a0 /\
    (forall url e,
        requestUrl (scheme wallet) request = inr url ->
        (exists a2,
            run appCustomScheme a0
              (launch ++ [timeout; close_settles (Rejects e)]) = Some a2 /\
            promise a2 = {| settlement := Pending; settle_calls := 0 |} /\
            forall event, deliver appCustomScheme a2 event = None) /\
        (forall link,
            String.prefix appCustomScheme link = true ->
            exists a2,
              run appCustomScheme a0
                (launch ++ [appUrlOpen link; close_settles (Rejects e)])
              = Some a2 /\
              promise a2 = {| settlement := Pending; settle_calls := 0 |} /\
              forall event, deliver appCustomScheme a2 event = None)) /\
    (forall thrown,
        requestUrl (scheme wallet) request = inl thrown ->
        promise a0 = {| settlement := Rejected thrown; settle_calls := 1 |} /\
        start_state a0 = start_not_running /\
        appUrlOpen_listening (host a0) = false /\
        browserClosed_listening (host a0) = false).
Proof.
  intros Hweb. unfold postRequestToWallet. rewrite Hweb.
  eexists. split; [reflexivity |]. split.
  - intros url e Hurl. rewrite Hurl. split.
    + rewrite run_app, launch_awaiting_return.
      eexists. split; [reflexivity |]. split; [reflexivity |].
      intros event. apply torn_down_silent; repeat split.
    + intros link Hlink. rewrite run_app, launch_awaiting_return.
      cbn [run]. unfold deliver at 1. simpl appUrlOpen_listening. cbv iota.
      unfold on_appUrlOpen. rewrite Hlink.
      eexists. split; [reflexivity |]. split; [reflexivity |].
      intros event. apply torn_down_silent; repeat split.
  - intros thrown Hurl. rewrite Hurl. repeat split.
Qed.

(** C4, where the code departs from it.  The handles are assigned only
    when [start()] resumes from its awaits, and a callback that runs
    before finds them null.  A matching deep link that is delivered
    right after the call, while [App.addListener] is still awaited, as
    the test of the repository delivers it, removes no listener; the
    promise is resolved, by one call, and [start()] goes on: it
    registers the second listener and opens the browser after the
    resolution.  Both listeners stay with the host and still fire: a
    dismissal calls [reject] a second time, a matching deep link calls
    [InAppBrowser.close()] a second time. *)
Theorem early_deep_link_removes_no_listener
    (request : Request) (wallet : Wallet) (url link : string)
    (response : Response) :
  type wallet = web ->
  requestUrl (scheme wallet) request = inr url ->
  String.prefix appCustomScheme link = true ->
  decodeResponse link = inr response ->
  exists a0 a : Att,
    postRequestToWallet request appCustomScheme wallet = inr a0 /\
    listener (closure a0) = None /\
    browserClosedListener (closure a0) = None /\
    run appCustomScheme a0
      [ appUrlOpen link; start_resumes Fulfils; close_settles Fulfils;
        start_resumes Fulfils; start_resumes Fulfils ] = Some a /\
    promise a = {| settlement := Completed response; settle_calls := 1 |} /\
    appUrlOpen_listening (host a) = true /\
    browserClosed_listening (host a) = true /\
    browser_open (host a) = Some url /\
    (exists a', deliver appCustomScheme a browserClosed = Some a' /\
                settle_calls (promise a') = 2) /\
    (exists a', deliver appCustomScheme a (appUrlOpen link) = Some a' /\
                close_calls (host a') = 2).
Proof.
  intros Hweb Hurl Hlink Hdec. unfold postRequestToWallet.
  rewrite Hweb, Hurl.
  pose (timed := {| listener := None; browserClosedListener := None;
                    timeoutId := Some 1 |}).
  pose (pending := {| settlement := @Pending Response; settle_calls := 0 |}).
  pose (resolved := {| settlement := Completed response; settle_calls := 1 |}).
  pose (a1 := {| closure := timed; promise := pending;
                 host := {| appUrlOpen_listening := true;
                            browserClosed_listening := false;
                            timer := None; browser_open := None;
                            close_calls := 1 |};
                 start_state := start_awaits App_addListener url;
                 close_awaited := [decode_and_settle link] |} : Att).
  pose (a2 := {| closure := {| listener := Some appUrlOpen_handle;
                               browserClosedListener := None;
                               timeoutId := Some 1 |};
                 promise := pending;
                 host := {| appUrlOpen_listening := true;
                            browserClosed_listening := true;
                            timer := None; browser_open := None;
                            close_calls := 1 |};
                 start_state := start_awaits InAppBrowser_addListener url;
                 close_awaited := [decode_and_settle link] |} : Att).
  pose (a3 := {| closure := closure a2; promise := resolved;
                 host := host a2;
                 start_state := start_awaits InAppBrowser_addListener url;
                 close_awaited := [] |} : Att).
  pose (a4 := {| closure := {| listener := Some appUrlOpen_handle;
                               browserClosedListener := Some browserClosed_handle;
                               timeoutId := Some 1 |};
                 promise := resolved; host := host a2;
                 start_state := start_awaits InAppBrowser_openInWebView url;
                 close_awaited := [] |} : Att).
  pose (a5 := {| closure := closure a4; promise := resolved;
                 host := {| appUrlOpen_listening := true;
                            browserClosed_listening := true;
                            timer := None; browser_open := Some url;
                            close_calls := 1 |};
                 start_state := start_not_running;
                 close_awaited := [] |} : Att).
  assert (S1 : deliver appCustomScheme (executor (inr url)) (appUrlOpen link)
               = Some a1).
  { unfold deliver, executor, on_appUrlOpen. simpl appUrlOpen_listening.
    cbv iota. rewrite Hlink. reflexivity. }
  assert (S2 : deliver appCustomScheme a1 (start_resumes Fulfils) = Some a2)
    by reflexivity.
  assert (S3 : deliver appCustomScheme a2 (close_settles Fulfils) = Some a3).
  { unfold deliver, on_close_settled, a2. simpl close_awaited. cbv iota.
    unfold continue. rewrite Hdec. reflexivity. }
  assert (S4 : deliver appCustomScheme a3 (start_resumes Fulfils) = Some a4)
    by reflexivity.
  assert (S5 : deliver appCustomScheme a4 (start_resumes Fulfils) = Some a5)
    by reflexivity.
  exists (executor (inr url)), a5.
  split; [reflexivity |]. split; [reflexivity |]. split; [reflexivity |].
  split.
  { cbn [run]. rewrite S1. cbn [run]. rewrite S2. cbn [run]. rewrite S3.
    cbn [run]. rewrite S4. cbn [run]. rewrite S5. reflexivity. }
  split; [reflexivity |]. split; [reflexivity |].
  split; [reflexivity |]. split; [reflexivity |]. split.
  - eexists. split; reflexivity.
  - unfold deliver, on_appUrlOpen. simpl appUrlOpen_listening. cbv iota.
    rewrite Hlink. eexists. split; reflexivity.
Qed.

End RoundTripProofs.

(** * Proofs: the chain switch *)

Section SwitchChainProofs.

Variable numberToHex : N -> string.
Variable provider_request : RpcRequest -> ProviderRpcError + unit.

(** What [switchChain] does once the wallet answered 4902. *)
Lemma switchChain_unrecognized (chains : list Chain.t)
    (supplied : option Supplied.t) (chainId : N) (chain : Chain.t)
    (error : ProviderRpcError) :
  List.find (fun chain => N.eqb (Chain.id chain) chainId) chains = Some chain ->
  provider_request (wallet_switchEthereumChain (numberToHex (Chain.id chain)))
  = inl error ->
  code error = 4902%Z ->
  exists result,
    switchChain numberToHex provider_request chains supplied chainId =
    ([ wallet_switchEthereumChain (numberToHex (Chain.id chain));
       wallet_addEthereumChain
         (addEthereumChain numberToHex supplied chain chainId) ],
     result).
Proof.
  intros Hfind Hswitch Hcode. unfold switchChain.
  rewrite Hfind, Hswitch, Hcode. simpl.
  destruct (provider_request (wallet_addEthereumChain _)); eauto.
Qed.

Lemma blockExplorerUrls_of_cases (supplied : option Supplied.t) (chain : Chain.t) :
  blockExplorerUrls_of supplied chain =
  match supplied_blockExplorerUrls supplied with
  | Some urls => urls
  | None =>
      match default_blockExplorerUrl chain with
      | Some url => [url]
      | None => []
      end
  end.
Proof.
  unfold blockExplorerUrls_of, supplied_blockExplorerUrls,
    default_blockExplorerUrl.
  destruct supplied as [[n c r [urls |] i] |]; simpl; try reflexivity;
    destruct (Chain.blockExplorers_default_url chain) as [url |];
    try reflexivity; destruct (truthy url); reflexivity.
Qed.

Lemma rpcUrls_of_cases (supplied : option Supplied.t) (chain : Chain.t) :
  rpcUrls_of supplied chain =
  match supplied_rpcUrls supplied with
  | Some (url :: urls) => url :: urls
  | _ =>
      [ match default_rpcUrl chain with
        | Some url => url
        | None => ""
        end ]
  end.
Proof.
  unfold rpcUrls_of, supplied_rpcUrls, default_rpcUrl.
  destruct supplied as [[n c [[| url urls] |] b i] |]; simpl; try reflexivity;
    destruct (Chain.rpcUrls_default_http chain) as [[| first rest] |];
    reflexivity.
Qed.

(** C5, as amended.  When the wallet answers the switch with code 4902,
    the add-chain request carries: as blockExplorerUrls the caller's array
    when the caller gave one, else the network's default block-explorer
    URL alone, else the empty array; as rpcUrls the caller's array when
    the caller gave a non-empty one, else one element, the network's first
    default HTTP RPC URL or, without one, the empty string. *)
Theorem addEthereumChain_urls (chains : list Chain.t)
    (supplied : option Supplied.t) (chainId : N) (chain : Chain.t)
    (error : ProviderRpcError) :
  List.find (fun chain => N.eqb (Chain.id chain) chainId) chains = Some chain ->
  provider_request (wallet_switchEthereumChain (numberToHex (Chain.id chain)))
  = inl error ->
  code error = 4902%Z ->
  exists payload result,
    switchChain numberToHex provider_request chains supplied chainId =
    ([ wallet_switchEthereumChain (numberToHex (Chain.id chain));
       wallet_addEthereumChain payload ], result) /\
    AddEthereumChain.blockExplorerUrls payload =
    match supplied_blockExplorerUrls supplied with
    | Some urls => urls
    | None =>
        match default_blockExplorerUrl chain with
        | Some url => [url]
        | None => []
        end
    end /\
    AddEthereumChain.rpcUrls payload =
    match supplied_rpcUrls supplied with
    | Some (url :: urls) => url :: urls
    | _ =>
        [ match default_rpcUrl chain with
          | Some url => url
          | None => ""
          end ]
    end.
Proof.
  intros Hfind Hswitch Hcode.
  destruct (switchChain_unrecognized chains supplied chainId chain error
              Hfind Hswitch Hcode) as [result Hs].
  exists (addEthereumChain numberToHex supplied chain chainId), result.
  split; [exact Hs | split]; simpl.
  - apply blockExplorerUrls_of_cases.
  - apply rpcUrls_of_cases.
Qed.

End SwitchChainProofs.

(** * Examples and witnesses *)

Module Witnesses.

Import Examples.

Lemma example_scopedKey_inj (a b : string) : scopedKey a = scopedKey b -> a = b.
Proof. simpl. apply (inj (String.app "wallet:KeyManager:")). Qed.

Lemma example_storage_reliable : storage_reliable.
Proof. intros n c. reflexivity. Qed.

Lemma example_cipher_reliable : cipher_reliable.
Proof. repeat split; intros; eexists; reflexivity. Qed.

Lemma example_generates_fresh_keys : generates_fresh_keys.
Proof.
  intros i j kpi kpj Hi Hj Hij. simpl in *.
  injection Hi as <-. injection Hj as <-. simpl. lia.
Qed.

(** Setting a first and then a second peer key on a new manager: the
    secret is the derivation from the second key. *)
Example two_peer_keys :
  snd (getSharedSecret
         (calls_after [SetPeerPublicKey 9; SetPeerPublicKey 11] new_state))
  = inr (Some (0 * 11)).
Proof. vm_compute. reflexivity. Qed.

Lemma setPeerPublicKey_latest_secret_witness :
  returned (snd (setPeerPublicKey 11
                   (calls_after (map SetPeerPublicKey [9]) new_state))) = true /\
  exists own secret hex rest,
    ownPrivateKey
      (this (fst (setPeerPublicKey 11
                    (calls_after (map SetPeerPublicKey [9]) new_state))))
    = Some own /\
    deriveSharedSecret own 11 = inr secret /\
    getSharedSecret
      (fst (setPeerPublicKey 11
              (calls_after (map SetPeerPublicKey [9]) new_state)))
    = (fst (setPeerPublicKey 11
              (calls_after (map SetPeerPublicKey [9]) new_state)),
       inr (Some secret)) /\
    exportKeyToHexString public 11 = inr hex /\
    calls (world (fst (setPeerPublicKey 11
                         (calls_after (map SetPeerPublicKey [9]) new_state))))
    = calls (world (calls_after (map SetPeerPublicKey [9]) new_state)) ++
      PreferencesSet (scopedKey "peerPublicKey") hex :: rest.
Proof.
  assert (H : returned (snd (setPeerPublicKey 11
                (calls_after (map SetPeerPublicKey [9]) new_state))) = true).
  { vm_compute. reflexivity. }
  split; [exact H |].
  exact (proj2 (proj2 (setPeerPublicKey_latest_secret new_state [9] 11)) H).
Defined.


(** An own private key alone in storage: a new pair comes, the stored
    key [5] is not used. *)
Example orphan_is_replaced :
  snd (getOwnPublicKey orphan_state) = inr (Some 7) /\
  stored OWN_PRIVATE_KEY (fst (getOwnPublicKey orphan_state)) = Some "6" /\
  stored OWN_PUBLIC_KEY (fst (getOwnPublicKey orphan_state)) = Some "7".
Proof. vm_compute. auto. Qed.

Lemma orphaned_half_is_regenerated_witness :
  reachable orphan_state /\
  orphaned_half orphan_state /\
  missing_half orphan_state /\
  (forall s' r,
      getOwnPublicKey orphan_state = (s', inr r) ->
      exists kp, cipher_generateKeyPair 3 = inr kp /\
                 holds_and_persists kp s' /\
                 generated (world s') = 4 /\
                 r = Some (publicKey kp)) /\
  exists s' key, getOwnPublicKey orphan_state = (s', inr (Some key)).
Proof.
  assert (H1 : reachable orphan_state) by apply reachable_new.
  assert (H2 : orphaned_half orphan_state).
  { left. split.
    - exists "5", 5. split; [vm_compute; reflexivity |].
      split; [discriminate | reflexivity].
    - left. vm_compute. reflexivity. }
  assert (H3 : missing_half orphan_state).
  { right. split; [reflexivity | left; vm_compute; reflexivity]. }
  assert (H4 : readable PeerPublic orphan_state).
  { intros _. left. left. vm_compute. reflexivity. }
  split; [exact H1 |]. split; [exact H2 |]. split; [exact H3 |].
  pose proof (orphaned_half_is_regenerated example_scopedKey_inj
                orphan_state H1 H2 H3) as (Hown & _ & Hret).
  split; [exact Hown |].
  exact (proj1 (Hret example_storage_reliable example_cipher_reliable H4)).
Defined.

Lemma secret_iff_inputs_and_never_stored_witness :
  reachable new_state /\
  call_completed (SetPeerPublicKey 9) new_state = true /\
  secret_iff_inputs (this (call_after (SetPeerPublicKey 9) new_state)).
Proof.
  assert (H1 : reachable new_state) by apply reachable_new.
  assert (H2 : call_completed (SetPeerPublicKey 9) new_state = true).
  { vm_compute. reflexivity. }
  split; [exact H1 |]. split; [exact H2 |].
  exact (proj1 (secret_iff_inputs_and_never_stored
                  new_state (SetPeerPublicKey 9) H1) H2).
Defined.

(** After [clear()] the three keys are gone and the next own key is the
    next one of the device. *)
Example clear_then_new_key :
  snd (clear full_state) = inr tt /\
  snd (getOwnPublicKey (fst (clear full_state))) = inr (Some 7) /\
  snd (getSharedSecret
         (calls_after [GetOwnPublicKey; GetSharedSecret; Clear]
            (fst (clear full_state)))) = inr None.
Proof. vm_compute. auto. Qed.

Lemma clear_then_fresh_identity_witness :
  clear full_state = (fst (clear full_state), inr tt) /\
  (exists s2 key,
      getOwnPublicKey (fst (clear full_state)) = (s2, inr (Some key))) /\
  (forall cs,
      forallb (fun c => negb (is_setPeerPublicKey c)) cs = true ->
      exists s2,
        getSharedSecret (calls_after cs (fst (clear full_state)))
        = (s2, inr None)).
Proof.
  assert (H1 : clear full_state = (fst (clear full_state), inr tt)).
  { vm_compute. reflexivity. }
  split; [exact H1 |].
  exact (proj2 (proj2 (clear_then_fresh_identity example_scopedKey_inj
                         full_state (fst (clear full_state)) H1))
           example_storage_reliable example_cipher_reliable).
Defined.

(** With a first deletion that fails, [clear()] throws and the two other
    keys are gone all the same. *)
Example clear_with_a_failing_deletion :
  let s' := fst (clear (storage := first_call_fails) full_state) in
  returned (snd (clear (storage := first_call_fails) full_state)) = false /\
  length (calls (world s')) = 3 /\
  stored (storage := first_call_fails) OWN_PUBLIC_KEY s' = Some "5" /\
  stored (storage := first_call_fails) OWN_PRIVATE_KEY s' = None /\
  stored (storage := first_call_fails) PEER_PUBLIC_KEY s' = None.
Proof. vm_compute. auto. Qed.

(** *** The round trip *)

Lemma unmatched_deep_link_is_ignored_witness :
  unmatched "myapp://" "other://callback?x" /\
  deliver "myapp://" example_attempt (appUrlOpen "other://callback?x")
  = Some example_attempt.
Proof.
  assert (H : unmatched "myapp://" "other://callback?x") by reflexivity.
  split; [exact H |].
  exact (proj1 (proj2 (unmatched_deep_link_is_ignored "myapp://"
                         "other://callback?x" example_attempt H))
           eq_refl).
Defined.

(** The timer fires and the host rejects [InAppBrowser.close()]: the
    promise is left pending. *)
Lemma timeout_fires_and_close_decides_witness :
  type example_wallet = web /\
  exists a0 a1 : Attempt string,
    postRequestToWallet "request" "myapp://" example_wallet = inr a0 /\
    run "myapp://" a0
      (launch ++ deep_links ["other://callback?x"] ++ [timeout]) = Some a1 /\
    close_calls (host a1) = 1 /\
    exists a2,
      deliver "myapp://" a1 (close_settles (Rejects (Thrown "no browser")))
      = Some a2 /\
      promise a2 = {| settlement := Pending; settle_calls := 0 |} /\
      forall event, deliver "myapp://" a2 event = None.
Proof.
  assert (H : type example_wallet = web) by reflexivity.
  assert (Hu : Forall (unmatched "myapp://") ["other://callback?x"])
    by (repeat constructor).
  split; [exact H |].
  destruct (timeout_fires_and_close_decides "myapp://" "request"
              example_wallet H) as (a0 & H0 & _ & Hfire).
  destruct (Hfire "https://example.com?request" ["other://callback?x"]
              eq_refl Hu)
    as (a1 & Hrun & _ & Hcc & _ & _ & Hrej).
  exists a0, a1. split; [exact H0 |]. split; [exact Hrun |].
  split; [exact Hcc |]. exact (Hrej (Thrown "no browser")).
Defined.

(** A wallet whose scheme is no URL: the promise is rejected with what
    [new URL] threw. *)
Lemma unguarded_steps_are_not_normalized_witness :
  type misconfigured_wallet = web /\
  requestUrl (scheme misconfigured_wallet) "request"
  = inl (Thrown "Invalid URL") /\
  Thrown "Invalid URL" <> userRejectedRequest /\
  exists a0 : Attempt string,
    postRequestToWallet "request" "myapp://" misconfigured_wallet = inr a0 /\
    promise a0 = {| settlement := Rejected (Thrown "Invalid URL");
                    settle_calls := 1 |}.
Proof.
  assert (H : type misconfigured_wallet = web) by reflexivity.
  assert (Hurl : requestUrl (scheme misconfigured_wallet) "request"
                 = inl (Thrown "Invalid URL")) by reflexivity.
  split; [exact H |]. split; [exact Hurl |]. split; [discriminate |].
  destruct (unguarded_steps_are_not_normalized "myapp://" "request"
              misconfigured_wallet H) as (a0 & H0 & _ & Hthrown).
  exists a0. split; [exact H0 |].
  exact (proj1 (Hthrown (Thrown "Invalid URL") Hurl)).
Defined.

(** The deep link of the repository's test, delivered right after the
    call. *)
Lemma early_deep_link_removes_no_listener_witness :
  type example_wallet = web /\
  requestUrl (scheme example_wallet) "request"
  = inr "https://example.com?request" /\
  String.prefix "myapp://" "myapp://?response=data" = true /\
  decodeResponse "myapp://?response=data" = inr "response=data" /\
  exists a0 a : Attempt string,
    postRequestToWallet "request" "myapp://" example_wallet = inr a0 /\
    run "myapp://" a0
      [ appUrlOpen "myapp://?response=data"; start_resumes Fulfils;
        close_settles Fulfils; start_resumes Fulfils; start_resumes Fulfils ]
    = Some a /\
    promise a = {| settlement := Completed "response=data";
                   settle_calls := 1 |} /\
    appUrlOpen_listening (host a) = true /\
    browserClosed_listening (host a) = true.
Proof.
  assert (H : type example_wallet = web) by reflexivity.
  assert (Hurl : requestUrl (scheme example_wallet) "request"
                 = inr "https://example.com?request") by reflexivity.
  assert (Hlink : String.prefix "myapp://" "myapp://?response=data" = true)
    by reflexivity.
  assert (Hdec : decodeResponse "myapp://?response=data"
                 = inr "response=data") by reflexivity.
  split; [exact H |]. split; [exact Hurl |]. split; [exact Hlink |].
  split; [exact Hdec |].
  destruct (early_deep_link_removes_no_listener "myapp://" "request"
              example_wallet "https://example.com?request"
              "myapp://?response=data" "response=data" H Hurl Hlink Hdec)
    as (a0 & a & H0 & _ & _ & Hrun & Hp & Ha & Hb & _).
  exists a0, a. auto.
Defined.

(** *** The chain switch *)

Lemma addEthereumChain_urls_witness :
  List.find (fun chain => N.eqb (Chain.id chain) 5) [bare_chain]
  = Some bare_chain /\
  unrecognized_chain
    (wallet_switchEthereumChain (example_numberToHex (Chain.id bare_chain)))
  = inl {| code := 4902; message := "Unrecognized chain ID" |} /\
  code {| code := 4902; message := "Unrecognized chain ID" |} = 4902%Z /\
  exists payload result,
    switchChain example_numberToHex unrecognized_chain [bare_chain] None 5 =
    ([ wallet_switchEthereumChain (example_numberToHex (Chain.id bare_chain));
       wallet_addEthereumChain payload ], result) /\
    AddEthereumChain.blockExplorerUrls payload = [] /\
    AddEthereumChain.rpcUrls payload = [""].
Proof.
  split; [reflexivity |]. split; [reflexivity |]. split; [reflexivity |].
  exact (addEthereumChain_urls example_numberToHex unrecognized_chain
           [bare_chain] None 5 bare_chain
           {| code := 4902; message := "Unrecognized chain ID" |}
           eq_refl eq_refl eq_refl).
Defined.

(** C5 as claimed fails: with no RPC URL from the caller and none in the
    network's defaults, the add-chain request carries one RPC URL, the
    empty string, not an empty array. *)
Lemma rpcUrls_not_empty_without_default :
  supplied_rpcUrls None = None /\
  default_rpcUrl bare_chain = None /\
  exists payload result,
    switchChain example_numberToHex unrecognized_chain [bare_chain] None 5 =
    ([ wallet_switchEthereumChain (example_numberToHex (Chain.id bare_chain));
       wallet_addEthereumChain payload ], result) /\
    AddEthereumChain.rpcUrls payload = [""] /\
    AddEthereumChain.rpcUrls payload <> [].
Proof.
  split; [reflexivity |]. split; [reflexivity |].
  eexists. eexists. split; [reflexivity |].
  split; [reflexivity | discriminate].
Qed.

End Witnesses.

(** * More proofs: the key manager *)

Section KeyManagerMoreProofs.

Context {CryptoKey : Type} {cipher : Cipher CryptoKey} {storage : Storage}.

Abbreviation St := (State CryptoKey).
Abbreviation M := (Async CryptoKey).

Ltac split_case :=
  match goal with
  | |- context [is_null ?o] => is_var o; destruct o
  | |- context [match ?x with _ => _ end] =>
      lazymatch x with
      | context [match _ with _ => _ end] => fail
      | _ => destruct x eqn:?
      end
  end.

Ltac exec_statement :=
  let s := fresh "s" in
  let H := fresh "Hpre" in
  intros s H;
  destruct s as [[own_priv own_pub peer secret] [prefs log count]];
  unfold load_ownPrivateKey, load_ownPublicKey, generate_if_incomplete,
    load_peerPublicKey, derive_if_possible, generateKeyPair, loadKey,
    storeKey, getItem, setItem, removeItem, next_key_pair,
    preferences_call, bind, when, get_this, set_this, ret, await;
  simpl in *;
  repeat (split_case; simpl in * ).

(** ** The own key pair stays *)

Section OwnPairStays.

Variable kp : KeyPair CryptoKey.
Variable n : nat.
Variable log0 : list PreferencesCall.

(** The manager holds [kp], nothing was generated and the plugin was only
    asked about the slot of the peer key. *)
Let kept : St -> Prop :=
  fun s => holds kp s /\ generated (world s) = n /\
           appended peer_slot_call log0 s.

Ltac solve_kept :=
  unfold holds, appended, set_ownPrivateKey, set_ownPublicKey,
    set_peerPublicKey, set_sharedSecret in *; simpl in *;
  match goal with
  | H : (_ /\ _) /\ _ /\ exists new, _ = _ ++ new /\ Forall _ new |- _ =>
      let new := fresh "new" in
      let HF := fresh "HF" in
      let Ha := fresh "Ha" in
      let Hb := fresh "Hb" in
      let Hn := fresh "Hn" in
      destruct H as ((Ha & Hb) & Hn & new & -> & HF);
      try discriminate Ha; try discriminate Hb;
      repeat split; try assumption;
      repeat rewrite <- app_assoc;
      eexists; (split; [reflexivity |]);
      rewrite ?Forall_app, ?Forall_cons, ?Forall_nil;
      repeat split; try exact HF; simpl; try reflexivity
  end.

Lemma load_ownPrivateKey_kept :
  hoare kept load_ownPrivateKey (fun _ => kept) kept.
Proof. subst kept. exec_statement; solve_kept. Qed.

Lemma load_ownPublicKey_kept :
  hoare kept load_ownPublicKey (fun _ => kept) kept.
Proof. subst kept. exec_statement; solve_kept. Qed.

Lemma generate_if_incomplete_kept :
  hoare kept generate_if_incomplete (fun _ => kept) kept.
Proof. subst kept. exec_statement; solve_kept. Qed.

Lemma load_peerPublicKey_kept :
  hoare kept load_peerPublicKey (fun _ => kept) kept.
Proof. subst kept. exec_statement; solve_kept. Qed.

Lemma derive_if_possible_kept :
  hoare kept derive_if_possible (fun _ => kept) kept.
Proof. subst kept. exec_statement; solve_kept. Qed.

Lemma loadKeysIfNeeded_kept :
  hoare kept loadKeysIfNeeded (fun _ => kept) kept.
Proof.
  unfold loadKeysIfNeeded.
  eapply hoare_seq; [apply load_ownPrivateKey_kept | intros _].
  eapply hoare_seq; [apply load_ownPublicKey_kept | intros _].
  eapply hoare_seq; [apply generate_if_incomplete_kept | intros _].
  eapply hoare_seq; [apply load_peerPublicKey_kept | intros _].
  apply derive_if_possible_kept.
Qed.

Lemma getOwnPublicKey_kept :
  hoare kept getOwnPublicKey
        (fun r s => kept s /\ r = Some (publicKey kp)) kept.
Proof.
  unfold getOwnPublicKey.
  eapply hoare_seq; [apply loadKeysIfNeeded_kept | intros u].
  intros s H. unfold bind, get_this, ret; simpl.
  split; [exact H | apply H].
Qed.

Lemma getSharedSecret_kept :
  hoare kept getSharedSecret (fun _ => kept) kept.
Proof.
  unfold getSharedSecret.
  eapply hoare_seq; [apply loadKeysIfNeeded_kept | intros u].
  intros s H. exact H.
Qed.

Lemma setPeerPublicKey_kept (key : CryptoKey) :
  hoare kept (setPeerPublicKey key) (fun _ => kept) kept.
Proof.
  unfold setPeerPublicKey.
  eapply hoare_seq with (R := kept); [intros s H; exact H | intros _].
  eapply hoare_seq with (R := kept); [intros s H; exact H | intros _].
  eapply hoare_seq with (R := kept);
    [subst kept; exec_statement; solve_kept | intros _].
  apply loadKeysIfNeeded_kept.
Qed.

Lemma call_kept (c : Call) (s : St) :
  is_clear c = false -> kept s -> kept (call_after c s).
Proof.
  intros Hc Hs. destruct c as [| | key |]; simpl in *; try discriminate.
  - pose proof (getOwnPublicKey_kept s Hs) as H.
    destruct (getOwnPublicKey s) as [s1 [e | r]]; simpl; [exact H | apply H].
  - pose proof (getSharedSecret_kept s Hs) as H.
    destruct (getSharedSecret s) as [s1 [e | r]]; exact H.
  - pose proof (setPeerPublicKey_kept key s Hs) as H.
    destruct (setPeerPublicKey key s) as [s1 [e | r]]; exact H.
Qed.

Lemma calls_after_kept (cs : list Call) (s : St) :
  forallb (fun c => negb (is_clear c)) cs = true ->
  kept s -> kept (calls_after cs s).
Proof.
  revert s. induction cs as [| c cs IH]; intros s Hcs Hs; simpl; [exact Hs |].
  simpl in Hcs. apply andb_true_iff in Hcs as [Hc Hcs].
  apply negb_true_iff in Hc.
  apply IH; [exact Hcs |]. apply call_kept; assumption.
Qed.

End OwnPairStays.

(** X1. Once the manager holds an own key pair, no sequence of calls
    other than clear() changes it: the pair stays in the fields, no key
    pair is generated, the plugin is only asked to read or write the slot
    of the peer key, and every getOwnPublicKey that returns gives the same
    public key. *)
Theorem own_pair_stays_until_clear
    (kp : KeyPair CryptoKey) (cs : list Call) (s : St) :
  holds kp s ->
  forallb (fun c => negb (is_clear c)) cs = true ->
  let s' := calls_after cs s in
  holds kp s' /\
  generated (world s') = generated (world s) /\
  appended peer_slot_call (calls (world s)) s' /\
  (forall s'' r, getOwnPublicKey s' = (s'', inr r) -> r = Some (publicKey kp)).
Proof.
  intros Hh Hcs s'.
  assert (H0 : holds kp s /\ generated (world s) = generated (world s) /\
               appended peer_slot_call (calls (world s)) s).
  { split; [exact Hh | split; [reflexivity |]].
    exists []. split; [symmetry; apply app_nil_r | constructor]. }
  pose proof (calls_after_kept kp _ _ cs s Hcs H0) as (H1 & H2 & H3).
  fold s' in H1, H2, H3.
  repeat split; try apply H1; try assumption.
  intros s'' r Hget.
  pose proof (getOwnPublicKey_kept kp _ _ s' (conj H1 (conj H2 H3))) as H.
  rewrite Hget in H. apply H.
Qed.

(** ** At most one new pair per call, and it is held *)

Section OneGeneration.

Variable n : nat.

Let generated_once : St -> Prop :=
  fun s => generated (world s) = n \/
           (generated (world s) = S n /\
            forall kp, cipher_generateKeyPair n = inr kp -> holds kp s).

Let not_yet : St -> Prop := fun s => generated (world s) = n.

Ltac solve_once :=
  unfold holds, set_ownPrivateKey, set_ownPublicKey,
    set_peerPublicKey, set_sharedSecret in *; simpl in *;
  try solve [ intuition (try congruence)
            | right; split; [congruence |];
              intros; simplify_eq; split; reflexivity
            | right; split; [reflexivity |]; intros; simplify_eq
            | right; split; [lia |];
              intros; simplify_eq; split; reflexivity ].

Lemma load_ownPrivateKey_once :
  hoare not_yet load_ownPrivateKey (fun _ => not_yet) generated_once.
Proof. subst not_yet generated_once. exec_statement; solve_once. Qed.

Lemma load_ownPublicKey_once :
  hoare not_yet load_ownPublicKey (fun _ => not_yet) generated_once.
Proof. subst not_yet generated_once. exec_statement; solve_once. Qed.

Lemma generate_if_incomplete_once :
  hoare not_yet generate_if_incomplete
        (fun _ => generated_once) generated_once.
Proof. subst not_yet generated_once. exec_statement; solve_once. Qed.

Lemma load_peerPublicKey_once :
  hoare generated_once load_peerPublicKey
        (fun _ => generated_once) generated_once.
Proof. subst generated_once. exec_statement; solve_once. Qed.

Lemma derive_if_possible_once :
  hoare generated_once derive_if_possible
        (fun _ => generated_once) generated_once.
Proof. subst generated_once. exec_statement; solve_once. Qed.

Lemma loadKeysIfNeeded_once :
  hoare not_yet loadKeysIfNeeded (fun _ => generated_once) generated_once.
Proof.
  unfold loadKeysIfNeeded.
  eapply hoare_seq; [apply load_ownPrivateKey_once | intros _].
  eapply hoare_seq; [apply load_ownPublicKey_once | intros _].
  eapply hoare_seq; [apply generate_if_incomplete_once | intros _].
  eapply hoare_seq; [apply load_peerPublicKey_once | intros _].
  apply derive_if_possible_once.
Qed.

Lemma setPeerPublicKey_once (key : CryptoKey) :
  hoare not_yet (setPeerPublicKey key)
        (fun _ => generated_once) generated_once.
Proof.
  unfold setPeerPublicKey.
  eapply hoare_seq with (R := not_yet); [intros s H; exact H | intros _].
  eapply hoare_seq with (R := not_yet); [intros s H; exact H | intros _].
  eapply hoare_seq with (R := not_yet);
    [subst not_yet generated_once; exec_statement; solve_once | intros _].
  apply loadKeysIfNeeded_once.
Qed.

End OneGeneration.

Lemma promise_all_removals_generated (keys : list string) (s : St) :
  generated (world (fst (promise_all (map removeItem keys) s)))
  = generated (world s).
Proof.
  revert s. induction keys as [| key keys IH]; intros s; simpl; [reflexivity |].
  destruct (removeItem key s) as [s1 r1] eqn:H1.
  specialize (IH s1). destruct (promise_all (map removeItem keys) s1) as [s2 r2].
  simpl in *. rewrite IH.
  unfold removeItem, preferences_call in H1.
  destruct (preferences_fault _ _); injection H1 as <- _; reflexivity.
Qed.

(** X2. A call of a public method generates at most one key pair, and a
    pair that was generated is in the fields when the call ends, whether
    it returned or threw on the way to storing it; clear() generates
    none. *)
Theorem at_most_one_pair_generated_and_held (c : Call) (s : St) :
  let n := generated (world s) in
  let s' := call_after c s in
  (generated (world s') = n \/
   (generated (world s') = S n /\
    forall kp, cipher_generateKeyPair n = inr kp -> holds kp s')) /\
  (c = Clear -> generated (world s') = n).
Proof.
  intros n s'. subst s'.
  assert (Hclear : generated (world (call_after Clear s)) = n).
  { simpl. rewrite clear_unfold.
    apply (promise_all_removals_generated
             [storageKey OWN_PUBLIC_KEY; storageKey OWN_PRIVATE_KEY;
              storageKey PEER_PUBLIC_KEY]). }
  split; [| intros ->; exact Hclear].
  destruct c as [| | key |]; simpl.
  - unfold getOwnPublicKey.
    pose proof (loadKeysIfNeeded_once n s eq_refl) as H.
    unfold bind, get_this, ret.
    destruct (loadKeysIfNeeded s) as [s1 [e | []]]; exact H.
  - unfold getSharedSecret.
    pose proof (loadKeysIfNeeded_once n s eq_refl) as H.
    unfold bind, get_this, ret.
    destruct (loadKeysIfNeeded s) as [s1 [e | []]]; exact H.
  - pose proof (setPeerPublicKey_once n key s eq_refl) as H.
    destruct (setPeerPublicKey key s) as [s1 [e | []]]; exact H.
  - left. exact Hclear.
Qed.

(** ** A new manager on the same device *)

Section Restart.

Variable kp : KeyPair CryptoKey.
Variable P : gmap string string.
Variable n : nat.
Variables hex_private hex_public : string.

Hypothesis private_stored : P !! scopedKey "ownPrivateKey" = Some hex_private.
Hypothesis private_imports :
  importKeyFromHexString private hex_private = inr (privateKey kp).
Hypothesis private_not_empty : hex_private <> "".
Hypothesis public_stored : P !! scopedKey "ownPublicKey" = Some hex_public.
Hypothesis public_imports :
  importKeyFromHexString public hex_public = inr (publicKey kp).
Hypothesis public_not_empty : hex_public <> "".

(** Nothing was written or generated, no peer key and no secret are in
    the fields yet. *)
Let untouched : St -> Prop :=
  fun s => preferences (world s) = P /\ generated (world s) = n /\
           peerPublicKey (this s) = None /\ sharedSecret (this s) = None.

Ltac solve_restart :=
  unfold holds, set_ownPrivateKey, set_ownPublicKey,
    set_peerPublicKey, set_sharedSecret in *; simpl in *;
  repeat match goal with
         | H : _ /\ _ |- _ => destruct H
         end;
  subst;
  try solve [ exact I
            | congruence
            | repeat split; congruence ].

Lemma load_ownPrivateKey_restart :
  hoare (fun s => untouched s /\ ownPrivateKey (this s) = None /\
                  ownPublicKey (this s) = None)
        load_ownPrivateKey
        (fun _ s => untouched s /\
                    ownPrivateKey (this s) = Some (privateKey kp) /\
                    ownPublicKey (this s) = None)
        (fun _ => True).
Proof. subst untouched. exec_statement; solve_restart. Qed.

Lemma load_ownPublicKey_restart :
  hoare (fun s => untouched s /\
                  ownPrivateKey (this s) = Some (privateKey kp) /\
                  ownPublicKey (this s) = None)
        load_ownPublicKey
        (fun _ s => untouched s /\ holds kp s)
        (fun _ => True).
Proof. subst untouched. exec_statement; solve_restart. Qed.

Lemma generate_if_incomplete_restart :
  hoare (fun s => untouched s /\ holds kp s)
        generate_if_incomplete
        (fun _ s => untouched s /\ holds kp s)
        (fun _ => True).
Proof. subst untouched. exec_statement; solve_restart. Qed.

(** Whatever the slot of the peer key holds, the own pair is the stored
    one. *)
Lemma load_peerPublicKey_restart :
  hoare (fun s => untouched s /\ holds kp s)
        load_peerPublicKey
        (fun _ s => holds kp s /\ generated (world s) = n)
        (fun _ => True).
Proof. subst untouched. exec_statement; solve_restart. Qed.

Lemma derive_if_possible_restart :
  hoare (fun s => holds kp s /\ generated (world s) = n)
        derive_if_possible
        (fun _ s => holds kp s /\ generated (world s) = n)
        (fun _ => True).
Proof. exec_statement; solve_restart. Qed.

Lemma loadKeysIfNeeded_restart :
  hoare (fun s => untouched s /\ ownPrivateKey (this s) = None /\
                  ownPublicKey (this s) = None)
        loadKeysIfNeeded
        (fun _ s => holds kp s /\ generated (world s) = n)
        (fun _ => True).
Proof.
  unfold loadKeysIfNeeded.
  eapply hoare_seq; [apply load_ownPrivateKey_restart | intros _].
  eapply hoare_seq; [apply load_ownPublicKey_restart | intros _].
  eapply hoare_seq; [apply generate_if_incomplete_restart | intros _].
  eapply hoare_seq; [apply load_peerPublicKey_restart | intros _].
  apply derive_if_possible_restart.
Qed.

(** With the peer key stored too. *)
Variable peer_key : CryptoKey.
Variable hex_peer : string.

Hypothesis peer_stored : P !! scopedKey "peerPublicKey" = Some hex_peer.
Hypothesis peer_imports : importKeyFromHexString public hex_peer = inr peer_key.
Hypothesis peer_not_empty : hex_peer <> "".

Lemma load_peerPublicKey_restart_peer :
  hoare (fun s => untouched s /\ holds kp s)
        load_peerPublicKey
        (fun _ s => holds kp s /\ peerPublicKey (this s) = Some peer_key /\
                    sharedSecret (this s) = None)
        (fun _ => True).
Proof. subst untouched. exec_statement; solve_restart. Qed.

Lemma derive_if_possible_restart_peer :
  hoare (fun s => holds kp s /\ peerPublicKey (this s) = Some peer_key /\
                  sharedSecret (this s) = None)
        derive_if_possible
        (fun _ s => peerPublicKey (this s) = Some peer_key /\
                    exists secret,
                      sharedSecret (this s) = Some secret /\
                      deriveSharedSecret (privateKey kp) peer_key = inr secret)
        (fun _ => True).
Proof.
  exec_statement; solve_restart;
    simplify_eq; split; [reflexivity | eauto].
Qed.

Lemma loadKeysIfNeeded_restart_peer :
  hoare (fun s => untouched s /\ ownPrivateKey (this s) = None /\
                  ownPublicKey (this s) = None)
        loadKeysIfNeeded
        (fun _ s => peerPublicKey (this s) = Some peer_key /\
                    exists secret,
                      sharedSecret (this s) = Some secret /\
                      deriveSharedSecret (privateKey kp) peer_key = inr secret)
        (fun _ => True).
Proof.
  unfold loadKeysIfNeeded.
  eapply hoare_seq; [apply load_ownPrivateKey_restart | intros _].
  eapply hoare_seq; [apply load_ownPublicKey_restart | intros _].
  eapply hoare_seq; [apply generate_if_incomplete_restart | intros _].
  eapply hoare_seq; [apply load_peerPublicKey_restart_peer | intros _].
  apply derive_if_possible_restart_peer.
Qed.

End Restart.

Lemma persisted_loadable (item : StorageItem) (key : CryptoKey) (s : St) :
  exports_import_back -> persisted item key s ->
  exists hex, stored item s = Some hex /\ hex <> "" /\
              importKeyFromHexString (keyType item) hex = inr key.
Proof.
  intros Hrt (hex & Hexp & Hst).
  destruct (Hrt (keyType item) key) as (hex' & Hexp' & Hne & Himp).
  rewrite Hexp in Hexp'. injection Hexp' as <-. eauto.
Qed.

Lemma restarted_untouched (s : St) :
  preferences (world (restarted s)) = preferences (world s) /\
  generated (world (restarted s)) = generated (world s) /\
  peerPublicKey (this (restarted s)) = None /\
  sharedSecret (this (restarted s)) = None.
Proof. repeat split. Qed.

(** X3. Own keys survive a restart: when both halves of a pair are in
    storage and keys come back from their exports, a manager constructed
    anew returns the stored public key, holds the stored pair and
    generates nothing; with collaborators that do not fail and a peer slot
    that can be read it does return. *)
Theorem restart_keeps_own_pair (kp : KeyPair CryptoKey) (s : St) :
  exports_import_back ->
  persisted OWN_PRIVATE_KEY (privateKey kp) s ->
  persisted OWN_PUBLIC_KEY (publicKey kp) s ->
  (forall s' r,
      getOwnPublicKey (restarted s) = (s', inr r) ->
      r = Some (publicKey kp) /\ holds kp s' /\
      generated (world s') = generated (world s)) /\
  ((forall a b : string, scopedKey a = scopedKey b -> a = b) ->
   storage_reliable -> cipher_reliable ->
   readable PeerPublic (restarted s) ->
   exists s', getOwnPublicKey (restarted s) = (s', inr (Some (publicKey kp)))).
Proof.
  intros Hrt Hpriv Hpub.
  destruct (persisted_loadable _ _ _ Hrt Hpriv) as (h1 & Hs1 & Hn1 & Hi1).
  destruct (persisted_loadable _ _ _ Hrt Hpub) as (h2 & Hs2 & Hn2 & Hi2).
  assert (Hown : forall s' r,
             getOwnPublicKey (restarted s) = (s', inr r) ->
             r = Some (publicKey kp) /\ holds kp s' /\
             generated (world s') = generated (world s)).
  { intros s' r Hget.
    pose proof (loadKeysIfNeeded_restart kp (preferences (world s))
                  (generated (world s)) h1 h2 Hs1 Hi1 Hn1 Hs2 Hi2 Hn2
                  (restarted s)
                  (conj (restarted_untouched s) (conj eq_refl eq_refl))) as H.
    unfold getOwnPublicKey, bind, get_this, ret in Hget.
    destruct (loadKeysIfNeeded (restarted s)) as [s1 [e | []]];
      [discriminate |].
    injection Hget as <- <-. destruct H as [[Ha Hb] Hg]. repeat split; assumption. }
  split; [exact Hown |].
  intros Hinj Hst Hci Hpeer.
  assert (Hall : all_readable (restarted s)).
  { intros slot. destruct slot; [| | exact Hpeer]; intros _; right.
    - exists h1, (privateKey kp). auto.
    - exists h2, (publicKey kp). auto. }
  pose proof (getOwnPublicKey_returns Hinj Hst Hci (restarted s) Hall) as H.
  destruct (getOwnPublicKey (restarted s)) as [s' [e | r]] eqn:Hget;
    [contradiction |].
  destruct (Hown s' r eq_refl) as (-> & _). eauto.
Qed.

(** X4. The channel survives a restart: when the own pair and the peer
    key are in storage and keys come back from their exports, a manager
    constructed anew returns from getSharedSecret the derivation from the
    stored own private key and the stored peer key, and with collaborators
    that do not fail it does return. *)
Theorem restart_rederives_secret
    (kp : KeyPair CryptoKey) (peer : CryptoKey) (s : St) :
  exports_import_back ->
  persisted OWN_PRIVATE_KEY (privateKey kp) s ->
  persisted OWN_PUBLIC_KEY (publicKey kp) s ->
  persisted PEER_PUBLIC_KEY peer s ->
  (forall s' r,
      getSharedSecret (restarted s) = (s', inr r) ->
      peerPublicKey (this s') = Some peer /\
      exists secret,
        r = Some secret /\
        deriveSharedSecret (privateKey kp) peer = inr secret) /\
  ((forall a b : string, scopedKey a = scopedKey b -> a = b) ->
   storage_reliable -> cipher_reliable ->
   exists s' secret,
     getSharedSecret (restarted s) = (s', inr (Some secret)) /\
     deriveSharedSecret (privateKey kp) peer = inr secret).
Proof.
  intros Hrt Hpriv Hpub Hpeer.
  destruct (persisted_loadable _ _ _ Hrt Hpriv) as (h1 & Hs1 & Hn1 & Hi1).
  destruct (persisted_loadable _ _ _ Hrt Hpub) as (h2 & Hs2 & Hn2 & Hi2).
  destruct (persisted_loadable _ _ _ Hrt Hpeer) as (h3 & Hs3 & Hn3 & Hi3).
  assert (Hsec : forall s' r,
             getSharedSecret (restarted s) = (s', inr r) ->
             peerPublicKey (this s') = Some peer /\
             exists secret,
               r = Some secret /\
               deriveSharedSecret (privateKey kp) peer = inr secret).
  { intros s' r Hget.
    pose proof (loadKeysIfNeeded_restart_peer kp (preferences (world s))
                  (generated (world s)) h1 h2 Hs1 Hi1 Hn1 Hs2 Hi2 Hn2
                  peer h3 Hs3 Hi3 Hn3 (restarted s)
                  (conj (restarted_untouched s) (conj eq_refl eq_refl))) as H.
    unfold getSharedSecret, bind, get_this, ret in Hget.
    destruct (loadKeysIfNeeded (restarted s)) as [s1 [e | []]];
      [discriminate |].
    injection Hget as <- <-. destruct H as (Hp & secret & Hsome & Hder).
    split; [exact Hp |]. exists secret. split; assumption. }
  split; [exact Hsec |].
  intros Hinj Hst Hci.
  assert (Hall : all_readable (restarted s)).
  { intros slot _. right. destruct slot.
    - exists h1, (privateKey kp). auto.
    - exists h2, (publicKey kp). auto.
    - exists h3, peer. auto. }
  pose proof (getSharedSecret_returns Hinj Hst Hci (restarted s) Hall) as H.
  destruct (getSharedSecret (restarted s)) as [s' [e | r]] eqn:Hget;
    [contradiction |].
  destruct (Hsec s' r eq_refl) as (_ & secret & -> & Hder). eauto.
Qed.

(** ** What setPeerPublicKey leaves in storage *)

Section PeerSlot.

Hypothesis scopedKey_inj : forall a b : string, scopedKey a = scopedKey b -> a = b.

Variable hex : string.

Let peer_slot_holds : St -> Prop :=
  fun s => stored PEER_PUBLIC_KEY s = Some hex.

Ltac solve_slot :=
  pose proof (private_peer_apart scopedKey_inj);
  pose proof (public_peer_apart scopedKey_inj);
  unfold stored in *; simpl in *;
  rewrite ?lookup_insert_ne by congruence;
  try assumption.

Lemma load_ownPrivateKey_slot :
  hoare peer_slot_holds load_ownPrivateKey
        (fun _ => peer_slot_holds) peer_slot_holds.
Proof. subst peer_slot_holds. exec_statement; solve_slot. Qed.

Lemma load_ownPublicKey_slot :
  hoare peer_slot_holds load_ownPublicKey
        (fun _ => peer_slot_holds) peer_slot_holds.
Proof. subst peer_slot_holds. exec_statement; solve_slot. Qed.

Lemma generate_if_incomplete_slot :
  hoare peer_slot_holds generate_if_incomplete
        (fun _ => peer_slot_holds) peer_slot_holds.
Proof. subst peer_slot_holds. exec_statement; solve_slot. Qed.

Lemma load_peerPublicKey_slot :
  hoare peer_slot_holds load_peerPublicKey
        (fun _ => peer_slot_holds) peer_slot_holds.
Proof. subst peer_slot_holds. exec_statement; solve_slot. Qed.

Lemma derive_if_possible_slot :
  hoare peer_slot_holds derive_if_possible
        (fun _ => peer_slot_holds) peer_slot_holds.
Proof. subst peer_slot_holds. exec_statement; solve_slot. Qed.

Lemma loadKeysIfNeeded_slot :
  hoare peer_slot_holds loadKeysIfNeeded
        (fun _ => peer_slot_holds) peer_slot_holds.
Proof.
  unfold loadKeysIfNeeded.
  eapply hoare_seq; [apply load_ownPrivateKey_slot | intros _].
  eapply hoare_seq; [apply load_ownPublicKey_slot | intros _].
  eapply hoare_seq; [apply generate_if_incomplete_slot | intros _].
  eapply hoare_seq; [apply load_peerPublicKey_slot | intros _].
  apply derive_if_possible_slot.
Qed.

End PeerSlot.

(** X5. setPeerPublicKey and storage.  When the call returns, the slot of
    the peer key holds the export of the key.  When the export or the
    write fails, the call throws and the preferences are as before, yet
    the manager already holds the new key, with no secret and the own keys
    it had: memory and storage disagree. *)
Theorem setPeerPublicKey_and_storage (key : CryptoKey) (s : St) :
  ((forall a b : string, scopedKey a = scopedKey b -> a = b) ->
   forall s', setPeerPublicKey key s = (s', inr tt) ->
              persisted PEER_PUBLIC_KEY key s') /\
  (forall e,
      exportKeyToHexString public key = inl e \/
      (exists hex,
          exportKeyToHexString public key = inr hex /\
          preferences_fault (length (calls (world s)))
            (PreferencesSet (scopedKey "peerPublicKey") hex) = Some e) ->
      exists s',
        setPeerPublicKey key s = (s', inl e) /\
        preferences (world s') = preferences (world s) /\
        peerPublicKey (this s') = Some key /\
        sharedSecret (this s') = None /\
        ownPrivateKey (this s') = ownPrivateKey (this s) /\
        ownPublicKey (this s') = ownPublicKey (this s)).
Proof.
  split.
  - intros Hinj s'. rewrite setPeerPublicKey_unfold.
    unfold storeKey, setItem, preferences_call, bind, await; simpl.
    destruct (exportKeyToHexString public key) as [e | hex] eqn:Hexp; simpl;
      [discriminate |].
    destruct (preferences_fault _ _) as [e |]; simpl; [discriminate |].
    intros Hload.
    match type of Hload with
    | loadKeysIfNeeded ?s1 = _ =>
        pose proof (loadKeysIfNeeded_slot Hinj hex s1) as H
    end.
    rewrite Hload in H. exists hex. split; [exact Hexp |].
    apply H. unfold stored. simpl. apply lookup_insert_eq.
  - intros e Hfail. rewrite setPeerPublicKey_unfold.
    unfold storeKey, setItem, preferences_call, bind, await; simpl.
    destruct Hfail as [-> | (hex & -> & ->)]; simpl;
      eexists; (split; [reflexivity |]); simpl; auto.
Qed.

(** X6. clear() forgets whatever happens: when it ends, returned or
    thrown, the four fields are null, no key pair was generated, and the
    preferences hold nothing that they did not hold before. *)
Theorem clear_always_forgets (s : St) :
  let s' := fst (clear s) in
  this s' = new_KeyManager /\
  generated (world s') = generated (world s) /\
  preferences (world s') ⊆ preferences (world s).
Proof.
  intros s'. subst s'. split; [apply clear_this |].
  rewrite clear_unfold. destruct s as [k [prefs log count]].
  unfold promise_all, removeItem, preferences_call; simpl.
  repeat (split_case; simpl); split; try reflexivity;
    repeat (etransitivity; [apply delete_subseteq |]); reflexivity.
Qed.

(** ** The storage: objects and clear *)

Lemma getItem_unfold (key : string) (s : St) :
  getItem key s =
  match preferences_fault (length (calls (world s)))
          (PreferencesGet (scopedKey key)) with
  | Some e =>
      ({| this := this s;
          world := {| preferences := preferences (world s);
                      calls := calls (world s) ++ [PreferencesGet (scopedKey key)];
                      generated := generated (world s) |} |}, inl e)
  | None =>
      ({| this := this s;
          world := {| preferences := preferences (world s);
                      calls := calls (world s) ++ [PreferencesGet (scopedKey key)];
                      generated := generated (world s) |} |},
       inr (preferences (world s) !! scopedKey key))
  end.
Proof. reflexivity. Qed.

(** X7. Objects in the storage.  An object stored with storeObject is
    what loadObject returns next, provided its JSON text parses back to it
    and is not empty; loadObject returns undefined, without parsing, for a
    key that holds nothing and for a key that holds the empty string. *)
Theorem storeObject_loadObject {T : Type} {json : Json T}
    (key : string) (item : T) (s s1 : St) :
  JSON_parse (JSON_stringify item) = inr item ->
  JSON_stringify item <> "" ->
  storeObject key item s = (s1, inr tt) ->
  (forall s2 r, loadObject key s1 = (s2, inr r) -> r = Some item) /\
  (preferences_fault (length (calls (world s1)))
     (PreferencesGet (scopedKey key)) = None ->
   exists s2, loadObject key s1 = (s2, inr (Some item))) /\
  (forall (t : St) t' r,
      preferences (world t) !! scopedKey key = None \/
      preferences (world t) !! scopedKey key = Some "" ->
      loadObject (T := T) key t = (t', inr r) -> r = None).
Proof.
  intros Hparse Hne Hstore.
  assert (Hheld : preferences (world s1) !! scopedKey key
                  = Some (JSON_stringify item)).
  { unfold storeObject, setItem, preferences_call in Hstore.
    destruct (preferences_fault _ _); [discriminate |].
    injection Hstore as <-. simpl. apply lookup_insert_eq. }
  assert (Hload : forall s2 r, loadObject key s1 = (s2, inr r) -> r = Some item).
  { intros s2 r. unfold loadObject, bind. rewrite getItem_unfold.
    destruct (preferences_fault _ _); [discriminate |].
    rewrite Hheld. destruct (JSON_stringify item) as [| a text] eqn:Htext;
      [contradiction |].
    unfold await, ret. rewrite Hparse. intros H. injection H as _ <-.
    reflexivity. }
  split; [exact Hload | split].
  - intros Hok. unfold loadObject, bind. rewrite getItem_unfold, Hok, Hheld.
    destruct (JSON_stringify item) as [| a text] eqn:Htext; [contradiction |].
    unfold await, ret. rewrite Hparse. eauto.
  - intros t t' r Hnone. unfold loadObject, bind. rewrite getItem_unfold.
    destruct (preferences_fault _ _); [discriminate |].
    destruct Hnone as [-> | ->]; unfold ret; intros H; injection H as _ <-;
      reflexivity.
Qed.

(** The removals that [storage_clear] starts: every one is made, the
    fulfilled ones take effect, no other key is touched. *)
Lemma promise_all_removals (keys : list string) (s s' : St) (r : Error + unit) :
  promise_all (map Preferences_remove keys) s = (s', r) ->
  calls (world s') = calls (world s) ++ map PreferencesRemove keys /\
  (forall key, ~ In key keys ->
               preferences (world s') !! key = preferences (world s) !! key) /\
  preferences (world s') ⊆ preferences (world s) /\
  (returned r = true ->
   forall key, In key keys -> preferences (world s') !! key = None).
Proof.
  revert s s' r. induction keys as [| k keys IH]; intros s s' r; simpl.
  - intros H. injection H as <- <-. rewrite app_nil_r.
    repeat split; auto. intros _ key [].
  - destruct (Preferences_remove k s) as [s1 r1] eqn:H1.
    destruct (promise_all (map Preferences_remove keys) s1) as [s2 r2] eqn:H2.
    intros H. injection H as <- <-.
    destruct (IH s1 s2 r2 H2) as (Hc & Hout & Hsub & Hret).
    unfold Preferences_remove, preferences_call in H1.
    destruct (preferences_fault _ _) as [e |] eqn:Hf;
      injection H1 as <- <-; simpl in *;
      rewrite Hc, <- app_assoc; simpl; (split; [reflexivity |]).
    + split; [intros key Hk; apply Hout; tauto |].
      split; [exact Hsub | discriminate].
    + split.
      { intros key Hk. rewrite Hout by tauto.
        apply lookup_delete_ne. intros ->. tauto. }
      split; [etransitivity; [exact Hsub | apply delete_subseteq] |].
      intros Hr key [<- | Hk]; [| apply Hret; assumption].
      destruct (preferences (world s2) !! k) as [v |] eqn:Hv; [| reflexivity].
      pose proof (lookup_weaken _ _ _ _ Hv Hsub) as Hw.
      rewrite lookup_delete_eq in Hw. discriminate.
Qed.

(** X8. clear() of the storage.  When the plugin lists its keys, one
    removal is started for every listed key that begins with the prefix
    [scopedKey ""], in the order of the list and whatever fails; no key
    without the prefix is ever touched and nothing is added; and when the
    call returns and the list was complete, no key with the prefix
    remains.  When the listing itself rejects, nothing is removed. *)
Theorem storage_clear_removes_the_scope (keys : list string) (s : St) :
  let scoped := List.filter (fun key => String.prefix (scopedKey "") key) keys in
  let s' := fst (storage_clear (inr keys) s) in
  calls (world s') = calls (world s) ++ map PreferencesRemove scoped /\
  (forall key, String.prefix (scopedKey "") key = false ->
               preferences (world s') !! key = preferences (world s) !! key) /\
  preferences (world s') ⊆ preferences (world s) /\
  (lists_the_keys keys s ->
   returned (snd (storage_clear (inr keys) s)) = true ->
   forall key, String.prefix (scopedKey "") key = true ->
               preferences (world s') !! key = None) /\
  (forall e, storage_clear (inl e) s = (s, inl e)).
Proof.
  intros scoped s'. subst s'. unfold storage_clear, bind, await. fold scoped.
  destruct (promise_all (map Preferences_remove scoped) s) as [s1 r1] eqn:Hp.
  destruct (promise_all_removals scoped s s1 r1 Hp) as (Hc & Hout & Hsub & Hret).
  simpl in *.
  split; [exact Hc | split; [| split; [exact Hsub | split; [| reflexivity]]]].
  - intros key Hk. apply Hout. subst scoped. rewrite filter_In.
    intros [_ H]. congruence.
  - intros Hlist Hr key Hk.
    destruct (preferences (world s) !! key) as [v |] eqn:Hv.
    + apply Hret; [exact Hr |]. subst scoped. apply filter_In.
      split; [apply Hlist; rewrite Hv; eauto | exact Hk].
    + destruct (preferences (world s1) !! key) as [w |] eqn:Hw; [| reflexivity].
      pose proof (lookup_weaken _ _ _ _ Hw Hsub). congruence.
Qed.

End KeyManagerMoreProofs.

(** * More proofs: the round trip *)

Section RoundTripMoreProofs.

Context {Request Response : Type} {codec : Codec Request Response}.

Abbreviation Att := (Attempt Response).

Variable appCustomScheme : string.

Ltac break_attempt a :=
  destruct a as [[l b t] [st n] [al bl tm bo cc] ss ca].

Lemma on_appUrlOpen_matched (link : string) (a : Att) :
  String.prefix appCustomScheme link = true ->
  on_appUrlOpen appCustomScheme link a
  = await_close (decode_and_settle link) (cleanup a).
Proof. unfold on_appUrlOpen. intros ->. reflexivity. Qed.

(** ** After a launch that went through first *)

Lemma over_silent (a : Att) (e : Event) :
  over a -> deliver appCustomScheme a e = None.
Proof.
  intros (Ht & Hs & Hc & _). apply torn_down_silent; assumption.
Qed.

Ltac over_now :=
  unfold over, torn_down, settled; simpl;
  split; [repeat split |];
  split; [reflexivity |]; split; [reflexivity |]; split; [lia |];
  split; [first [left; split; reflexivity | right; split; reflexivity]
         | first [intros ? [= <-]; reflexivity | intros ? ?; discriminate]].

Lemma deliver_launched (url : string) (a a' : Att) (e : Event) :
  launched_moment url a -> deliver appCustomScheme a e = Some a' ->
  launched_moment url a'.
Proof.
  intros [-> | [Hw | Ho]] Hd.
  - destruct e as [link | | | reply | reply]; simpl in Hd;
      try discriminate.
    + injection Hd as <-. unfold on_appUrlOpen.
      destruct (String.prefix appCustomScheme link); [| left; reflexivity].
      right. left. repeat split. exists (decode_and_settle link). reflexivity.
    + injection Hd as <-. right. right. over_now.
    + injection Hd as <-. right. left. repeat split.
      exists reject_after_close. reflexivity.
  - destruct Hw as ((Ha & Hb & Ht) & Hs & (rest & Hc) & Hcc & Hp).
    break_attempt a. simpl in *. subst.
    destruct e as [link | | | reply | reply]; simpl in Hd;
      try discriminate.
    injection Hp as -> ->.
    destruct reply as [| e]; injection Hd as <-; right; right.
    + destruct rest as [link |]; simpl;
        [destruct (decodeResponse link) |]; over_now.
    + over_now.
  - rewrite (over_silent a e Ho) in Hd. discriminate.
Qed.

Lemma run_launched (url : string) (es : list Event) (a a' : Att) :
  launched_moment url a -> run appCustomScheme a es = Some a' ->
  launched_moment url a'.
Proof.
  revert a. induction es as [| e es IH]; intros a H Hr; simpl in Hr.
  - injection Hr as <-. exact H.
  - destruct (deliver appCustomScheme a e) as [a1 |] eqn:Hd; [| discriminate].
    exact (IH a1 (deliver_launched url a a1 e H Hd) Hr).
Qed.

(** X9. After a launch that went through before anything else
    happened, the attempt is settled at most once, whatever is delivered
    and however [InAppBrowser.close()] is settled: [resolve] or [reject]
    is called at most once and exactly when the promise is settled,
    [InAppBrowser.close()] is called at most once, a rejection carries
    the user-rejected error, and as soon as the attempt is no longer
    what it was when the launch ended, nothing is registered with the
    host any more. *)
Theorem launched_attempt_settles_at_most_once
    (url : string) (events : list Event) (a : Att) :
  run appCustomScheme (executor (inr url)) (launch ++ events) = Some a ->
  settle_calls (promise a) <= 1 /\
  (settled a = true <-> settle_calls (promise a) = 1) /\
  close_calls (host a) <= 1 /\
  (a = awaiting_return url \/ torn_down a) /\
  (forall e, settlement (promise a) = Rejected e -> e = userRejectedRequest).
Proof.
  rewrite run_app, launch_awaiting_return. intros Hrun.
  destruct (run_launched url events _ a (or_introl eq_refl) Hrun)
    as [-> | [Hw | Ho]].
  - split; [simpl; lia |]. split; [split; simpl; discriminate |].
    split; [simpl; lia |]. split; [left; reflexivity |].
    simpl. discriminate.
  - destruct Hw as (Ht & _ & _ & Hcc & Hp). unfold settled.
    rewrite Hp, Hcc. simpl.
    split; [lia |]. split; [split; discriminate |].
    split; [lia |]. split; [right; exact Ht | discriminate].
  - destruct Ho as (Ht & _ & _ & Hcc & Hp & Hk).
    split; [destruct Hp as [[-> _] | [-> _]]; simpl; lia |].
    split.
    { destruct Hp as [[Hn Hs] | [Hp _]].
      - split; auto.
      - unfold settled. rewrite Hp. simpl. split; discriminate. }
    split; [exact Hcc |]. split; [right; exact Ht | exact Hk].
Qed.

(** ** What completes the promise *)

Lemma cleanup_kept (a : Att) :
  promise (cleanup a) = promise a /\
  close_awaited (cleanup a) = close_awaited a /\
  closure (cleanup a) = closure a /\
  start_state (cleanup a) = start_state a /\
  close_calls (host (cleanup a)) = close_calls (host a) /\
  browser_open (host (cleanup a)) = browser_open (host a).
Proof.
  break_attempt a. destruct l as [[|] |], b as [[|] |], t; repeat split.
Qed.

Lemma remove_listeners_kept (a : Att) :
  promise (remove_listeners a) = promise a /\
  close_awaited (remove_listeners a) = close_awaited a /\
  timer (host (remove_listeners a)) = timer (host a).
Proof.
  break_attempt a. destruct l as [[|] |], b as [[|] |]; repeat split.
Qed.

Lemma accounted_more (seen seen' : list Event) (a : Att) :
  accounted appCustomScheme seen a ->
  accounted appCustomScheme (seen ++ seen') a.
Proof.
  intros [H1 H2]. split.
  - intros link Hin. destruct (H1 link Hin) as [Hs Hp].
    split; [apply in_or_app; auto | exact Hp].
  - intros r Hr. destruct (H2 r Hr) as (link & Hs & Hp & Hd).
    exists link. split; [apply in_or_app; auto | auto].
Qed.

(** A state with the same awaiting callbacks whose promise was at most
    rejected in between. *)
Lemma accounted_rejected (seen : list Event) (a a' : Att) (e : Error) :
  accounted appCustomScheme seen a ->
  close_awaited a' = close_awaited a ->
  promise a' = promise a \/ promise a' = settle (Rejected e) (promise a) ->
  accounted appCustomScheme seen a'.
Proof.
  intros [H1 H2] Hc Hp. split.
  - rewrite Hc. exact H1.
  - intros r Hr. apply H2. destruct Hp as [Hp | Hp]; rewrite Hp in Hr;
      [exact Hr |].
    simpl in Hr. destruct (settlement (promise a)); [discriminate | | ];
      exact Hr.
Qed.

Lemma deliver_accounted (seen : list Event) (a a' : Att) (e : Event) :
  accounted appCustomScheme seen a ->
  deliver appCustomScheme a e = Some a' ->
  accounted appCustomScheme (seen ++ [e]) a'.
Proof.
  intros Hacc Hd.
  destruct e as [link | | | reply | reply]; simpl in Hd.
  - destruct (appUrlOpen_listening (host a)); [| discriminate].
    injection Hd as <-. unfold on_appUrlOpen.
    destruct (String.prefix appCustomScheme link) eqn:Hp;
      [| apply accounted_more, Hacc].
    destruct (cleanup_kept a) as (Hpr & Hca & _).
    destruct Hacc as [H1 H2]. split.
    + intros link'. simpl. rewrite Hca. intros Hin.
      apply in_app_or in Hin as [Hin | [[= <-] | []]].
      * destruct (H1 link' Hin) as [Hs Hq].
        split; [apply in_or_app; auto | exact Hq].
      * split; [apply in_or_app; right; left; reflexivity | exact Hp].
    + simpl. rewrite Hpr. intros r Hr.
      destruct (H2 r Hr) as (link' & Hs & Hq & Hdec).
      exists link'. split; [apply in_or_app; auto | auto].
  - destruct (browserClosed_listening (host a)); [| discriminate].
    injection Hd as <-. apply accounted_more.
    destruct (cleanup_kept (with_host dismissed a)) as (Hpr & Hca & _).
    apply (accounted_rejected seen a _ userRejectedRequest Hacc).
    + simpl. exact Hca.
    + right. simpl. rewrite Hpr. reflexivity.
  - destruct (timer (host a)); [| discriminate].
    injection Hd as <-.
    destruct (remove_listeners_kept (with_host fired a)) as (Hpr & Hca & _).
    destruct Hacc as [H1 H2]. split.
    + intros link'. simpl. rewrite Hca. intros Hin.
      apply in_app_or in Hin as [Hin | [[=] | []]].
      destruct (H1 link' Hin) as [Hs Hq].
      split; [apply in_or_app; auto | exact Hq].
    + simpl. rewrite Hpr. intros r Hr.
      destruct (H2 r Hr) as (link' & Hs & Hq & Hdec).
      exists link'. split; [apply in_or_app; auto | auto].
  - apply accounted_more. unfold on_start_resumed in Hd.
    destruct (start_state a) as [[| |] url |]; [| | | discriminate];
      destruct reply as [| e]; injection Hd as <-;
      try (apply (accounted_rejected seen a _ userRejectedRequest Hacc);
           [reflexivity | left; reflexivity]);
      unfold start_catch;
      match goal with
      | |- context [cleanup ?x] =>
          destruct (cleanup_kept x) as (Hpr & Hca & _);
          apply (accounted_rejected seen a _ userRejectedRequest Hacc);
          [simpl; exact Hca | right; simpl; rewrite Hpr; reflexivity]
      end.
  - unfold on_close_settled in Hd.
    destruct (close_awaited a) as [| rest others] eqn:Hca; [discriminate |].
    destruct Hacc as [H1 H2].
    assert (G1 : forall link,
               In (decode_and_settle link) others ->
               In (appUrlOpen link) (seen ++ [close_settles reply]) /\
               String.prefix appCustomScheme link = true).
    { intros link Hin. destruct (H1 link) as [Hs Hq];
        [rewrite Hca; right; exact Hin |].
      split; [apply in_or_app; auto | exact Hq]. }
    assert (G2 : forall r,
               settlement (promise a) = Completed r ->
               exists link,
                 In (appUrlOpen link) (seen ++ [close_settles reply]) /\
                 String.prefix appCustomScheme link = true /\
                 decodeResponse link = inr r).
    { intros r Hr. destruct (H2 r Hr) as (link & Hs & Hq & Hdec).
      exists link. split; [apply in_or_app; auto | auto]. }
    destruct reply as [| e]; injection Hd as <-.
    + destruct rest as [link |]; simpl.
      * destruct (decodeResponse link) as [e | r] eqn:Hdec; split;
          try exact G1; simpl; intros r' Hr';
          destruct (settlement (promise a)) eqn:Hset;
          try discriminate; try (apply G2; exact Hr').
        injection Hr' as <-. destruct (H1 link) as [Hs Hq];
          [rewrite Hca; left; reflexivity |].
        exists link. split; [apply in_or_app; auto | auto].
      * split; [exact G1 |]. simpl. intros r' Hr'.
        destruct (settlement (promise a)) eqn:Hset;
          try discriminate; apply G2; exact Hr'.
    + split; [exact G1 | exact G2].
Qed.

Lemma run_accounted (es seen : list Event) (a a' : Att) :
  accounted appCustomScheme seen a ->
  run appCustomScheme a es = Some a' ->
  accounted appCustomScheme (seen ++ es) a'.
Proof.
  revert seen a. induction es as [| e es IH]; intros seen a H Hr; simpl in Hr.
  - injection Hr as <-. rewrite app_nil_r. exact H.
  - destruct (deliver appCustomScheme a e) as [a1 |] eqn:Hd; [| discriminate].
    replace (seen ++ e :: es) with ((seen ++ [e]) ++ es)
      by (rewrite <- app_assoc; reflexivity).
    exact (IH _ a1 (deliver_accounted seen a a1 e H Hd) Hr).
Qed.

Lemma executor_accounted (url : Error + string) :
  accounted appCustomScheme [] (executor url : Att).
Proof.
  destruct url as [e | u]; split; simpl; try tauto; discriminate.
Qed.

(** X10. The round trip that succeeds, and the only way to a response.
    After a launch that went through before anything else happened and
    any deep links that do not match, a deep link that matches and
    decodes, followed by the fulfilment of [InAppBrowser.close()],
    resolves the promise with the decoded response by the one call of
    [resolve], with both listeners removed, the timer cleared and the
    browser closed, after which nothing is delivered.  And in every run
    of every attempt, whatever the order of the events, a promise that
    is completed with a response was completed by a deep link that was
    delivered, matches and decodes to that response. *)
Theorem matching_deep_link_completes_with_response
    (url link : string) (urls : list string) (response : Response) :
  Forall (unmatched appCustomScheme) urls ->
  String.prefix appCustomScheme link = true ->
  decodeResponse link = inr response ->
  (exists a : Att,
      run appCustomScheme (executor (inr url))
        (launch ++ deep_links urls ++
         [appUrlOpen link; close_settles Fulfils])
      = Some a /\
      promise a = {| settlement := Completed response; settle_calls := 1 |} /\
      torn_down a /\
      browser_open (host a) = None /\ close_calls (host a) = 1 /\
      forall event, deliver appCustomScheme a event = None) /\
  (forall (request : Request) (wallet : Wallet) (a0 a : Att) events response',
      postRequestToWallet request appCustomScheme wallet = inr a0 ->
      run appCustomScheme a0 events = Some a ->
      settlement (promise a) = Completed response' ->
      exists link',
        In (appUrlOpen link') events /\
        String.prefix appCustomScheme link' = true /\
        decodeResponse link' = inr response').
Proof.
  intros Hu Hlink Hdec. split.
  - rewrite run_app, launch_awaiting_return.
    rewrite run_app, run_unmatched by (exact Hu || reflexivity).
    assert (S1 : deliver appCustomScheme (awaiting_return url)
                   (appUrlOpen link)
                 = Some (await_close (decode_and_settle link)
                           (cleanup (awaiting_return url)))).
    { unfold deliver. simpl appUrlOpen_listening. cbv iota.
      rewrite on_appUrlOpen_matched by exact Hlink. reflexivity. }
    cbn [run]. rewrite S1. cbn [run]. unfold deliver, on_close_settled.
    simpl close_awaited. cbv iota. unfold continue. rewrite Hdec.
    eexists. split; [reflexivity |]. split; [reflexivity |].
    split; [repeat split |]. split; [reflexivity |]. split; [reflexivity |].
    intros event. apply torn_down_silent; repeat split.
  - intros request wallet a0 a events r H0 Hrun Hr.
    apply postRequestToWallet_web in H0 as [_ ->].
    destruct (run_accounted events [] _ a (executor_accounted _) Hrun)
      as [_ H2].
    exact (H2 r Hr).
Qed.

(** ** What rejects the promise *)




End RoundTripMoreProofs.

(** * More proofs: the connector *)

Section SwitchChainMoreProofs.

Variable numberToHex : N -> string.
Variable provider_request : RpcRequest -> ProviderRpcError + unit.

Lemma switchChain_not_found (chains : list Chain.t)
    (supplied : option Supplied.t) (chainId : N) :
  List.find (fun chain => N.eqb (Chain.id chain) chainId) chains = None ->
  switchChain numberToHex provider_request chains supplied chainId =
  ([], ThrowsChainNotConfigured).
Proof. intros H. unfold switchChain. rewrite H. reflexivity. Qed.

Lemma switchChain_found (chains : list Chain.t)
    (supplied : option Supplied.t) (chainId : N) (chain : Chain.t) :
  List.find (fun chain => N.eqb (Chain.id chain) chainId) chains = Some chain ->
  match snd (switchChain numberToHex provider_request chains supplied chainId) with
  | Returns chain' => chain' = chain
  | ThrowsChainNotConfigured => False
  | _ => True
  end.
Proof.
  intros H. unfold switchChain. rewrite H.
  destruct (provider_request _) as [error | []]; [| reflexivity].
  destruct (Z.eqb (code error) 4902); [| exact I].
  destruct (provider_request _) as [error' | []]; [exact I | reflexivity].
Qed.

Lemma switchChain_returns_asked (chains : list Chain.t)
    (supplied : option Supplied.t) (chainId : N) (chain : Chain.t) :
  snd (switchChain numberToHex provider_request chains supplied chainId)
  = Returns chain ->
  Chain.id chain = chainId /\ In chain chains.
Proof.
  intros H.
  destruct (List.find (fun chain => N.eqb (Chain.id chain) chainId) chains)
    as [found |] eqn:Hfind.
  - pose proof (switchChain_found chains supplied chainId found Hfind) as Hs.
    rewrite H in Hs. subst found.
    apply find_some in Hfind as [Hin Hid]. apply N.eqb_eq in Hid. auto.
  - rewrite (switchChain_not_found chains supplied chainId Hfind) in H.
    discriminate H.
Qed.

(** The requests that [switchChain] makes of a provider and its
    outcome, the provider being there. *)
Lemma switch_requests_and_outcome (chains : list Chain.t)
    (supplied : option Supplied.t) (chainId : N) :
  let sent := fst (switchChain numberToHex provider_request chains supplied chainId) in
  let result := snd (switchChain numberToHex provider_request chains supplied chainId) in
  let found := List.find (fun chain => N.eqb (Chain.id chain) chainId) chains in
  (sent = [] <-> found = None) /\
  (result = ThrowsChainNotConfigured <-> found = None) /\
  (forall chain, found = Some chain ->
     In chain chains /\ Chain.id chain = chainId /\
     let switch := wallet_switchEthereumChain (numberToHex chainId) in
     let add := wallet_addEthereumChain
                  (addEthereumChain numberToHex supplied chain chainId) in
     (sent = [switch] \/ sent = [switch; add]) /\
     (sent = [switch; add] <->
      exists error, provider_request switch = inl error /\ code error = 4902%Z) /\
     (forall chain', result = Returns chain' ->
        chain' = chain /\
        exists last, List.last sent switch = last /\
                     provider_request last = inr tt) /\
     (forall cause, result = ThrowsSwitchChainError cause ->
        sent = [switch] /\ provider_request switch = inl cause /\
        code cause <> 4902%Z) /\
     (forall cause, result = ThrowsUserRejectedRequestError cause ->
        sent = [switch; add] /\ provider_request add = inl cause)).
Proof.
  unfold switchChain.
  destruct (List.find (fun chain => N.eqb (Chain.id chain) chainId) chains)
    as [chain |] eqn:Hfind; simpl.
  2: { repeat split; auto; discriminate. }
  assert (Hid : Chain.id chain = chainId).
  { apply find_some in Hfind as [_ H]. apply N.eqb_eq in H. exact H. }
  assert (Hin : In chain chains) by (apply find_some in Hfind; tauto).
  rewrite Hid.
  destruct (provider_request (wallet_switchEthereumChain (numberToHex chainId)))
    as [error | []] eqn:Hswitch.
  - destruct (Z.eqb (code error) 4902) eqn:Hcode.
    + apply Z.eqb_eq in Hcode.
      destruct (provider_request
                  (wallet_addEthereumChain
                     (addEthereumChain numberToHex supplied chain chainId)))
        as [error' | []] eqn:Hadd; simpl.
      * split; [split; discriminate |]. split; [split; discriminate |].
        intros chain0 [= <-]. split; [exact Hin |]. split; [exact Hid |].
        split; [auto |]. split; [split; eauto |].
        split; [discriminate |]. split; [discriminate |].
        intros cause [= <-]. auto.
      * split; [split; discriminate |]. split; [split; discriminate |].
        intros chain0 [= <-]. split; [exact Hin |]. split; [exact Hid |].
        split; [auto |]. split; [split; eauto |].
        split; [| split; discriminate].
        intros chain' [= <-]. split; [reflexivity |].
        eexists. split; [reflexivity | exact Hadd].
    + apply Z.eqb_neq in Hcode. simpl.
      split; [split; discriminate |]. split; [split; discriminate |].
      intros chain0 [= <-]. split; [exact Hin |]. split; [exact Hid |].
      split; [auto |].
      split; [split; [discriminate | intros (error' & He & Hc); congruence] |].
      split; [discriminate |]. split; [| discriminate].
      intros cause [= <-]. auto.
  - simpl.
    split; [split; discriminate |]. split; [split; discriminate |].
    intros chain0 [= <-]. split; [exact Hin |]. split; [exact Hid |].
    split; [auto |].
    split; [split; [discriminate | intros (error' & He & Hc); congruence] |].
    split; [| split; discriminate].
    intros chain' [= <-]. split; [reflexivity |].
    eexists. split; [reflexivity | exact Hswitch].
Qed.

End SwitchChainMoreProofs.

Section ConnectorProofs.

Import Connector.

Variable chains : list Chain.t.
Variable numberToHex : N -> string.
Variable getAddress : string -> ProviderRpcError + string.
Variable Number : string -> option N.
Variable viem_message : ConnectorError -> string.

Abbreviation connect' := (connect chains numberToHex getAddress Number viem_message).
Abbreviation switchChain' := (Connector.switchChain_with_provider chains numberToHex).
Abbreviation getAccounts' := (getAccounts getAddress).
Abbreviation getChainId' := (getChainId Number).
Abbreviation isAuthorized' := (isAuthorized getAddress).
Abbreviation onAccountsChanged' := (onAccountsChanged getAddress).
Abbreviation onChainChanged' := (onChainChanged Number).
Abbreviation call' := (call chains numberToHex getAddress Number viem_message).
Abbreviation invocations_after' :=
  (invocations_after chains numberToHex getAddress Number viem_message).

(** ** The steps that leave the closure and the listeners alone *)

Lemma same_listeners_refl (c : t) : same_listeners c c.
Proof. repeat split; auto. Qed.

Lemma same_listeners_trans (c1 c2 c3 : t) :
  same_listeners c1 c2 -> same_listeners c2 c3 -> same_listeners c1 c3.
Proof.
  intros (H1 & H2 & H3 & H4 & H5) (G1 & G2 & G3 & G4 & G5).
  repeat split; try congruence. auto.
Qed.

Lemma same_listeners_in_step (c c' : t) :
  same_listeners c c' -> in_step c -> in_step c'.
Proof.
  intros (H1 & H2 & H3 & H4 & H5) [(Ha & Hc & Hd & Hl) | (i & j & k & Hw & Ha & Hc & Hd & Hl)].
  - left. repeat split; congruence.
  - right. exists i, j, k. repeat split; try congruence. auto.
Qed.

Lemma keeps_ret {A : Type} (a : A) : keeps (pure a).
Proof. intros c. apply same_listeners_refl. Qed.

Lemma keeps_throw {A : Type} (e : ConnectorError) : keeps (throw (A := A) e).
Proof. intros c. apply same_listeners_refl. Qed.

Lemma keeps_answered {A : Type} (r : ProviderRpcError + A) : keeps (answered r).
Proof. intros c. apply same_listeners_refl. Qed.

Lemma keeps_request {A : Type} (method : Method) (r : ProviderRpcError + A) :
  keeps (request method r).
Proof. intros c. repeat split; auto. Qed.

Lemma keeps_emit (e : Emitted) : keeps (emit e).
Proof. intros c. repeat split; auto. Qed.

Lemma keeps_provider_disconnect : keeps provider_disconnect.
Proof. intros c. repeat split; auto. Qed.

Lemma keeps_switched (sent : list RpcRequest * SwitchChainResult) :
  keeps (switched sent).
Proof. intros c. repeat split; auto. Qed.

Lemma keeps_bind {A B : Type} (m : C A) (k : A -> C B) :
  keeps m -> (forall a, keeps (k a)) -> keeps (and_then m k).
Proof.
  intros Hm Hk c. unfold and_then. specialize (Hm c).
  destruct (m c) as [c1 [e | a]] eqn:Hmc; simpl in *; [exact Hm |].
  eapply same_listeners_trans; [exact Hm | apply Hk].
Qed.

Lemma keeps_try_catch {A : Type} (m : C A) (handler : ConnectorError -> C A) :
  keeps m -> (forall e, keeps (handler e)) -> keeps (try_catch m handler).
Proof.
  intros Hm Hh c. unfold try_catch. specialize (Hm c).
  destruct (m c) as [c1 [e | a]] eqn:Hmc; simpl in *; [| exact Hm].
  eapply same_listeners_trans; [exact Hm | apply Hh].
Qed.

Lemma keeps_getProvider (replies : Replies) : keeps (getProvider replies).
Proof.
  intros c. unfold getProvider.
  destruct (Closure.walletProvider (closure c)) eqn:Hw;
    [apply same_listeners_refl |].
  unfold and_then, answered. destruct (import_reply replies) as [e | []]; simpl.
  - apply same_listeners_refl.
  - repeat split; auto.
Qed.

(** A [getProvider] that returned left a provider, with or without the
    import; one that threw changed nothing. *)
Lemma getProvider_spec (replies : Replies) (c : t) :
  match getProvider replies c with
  | (c', inr _) =>
      Closure.walletProvider (closure c') = true /\
      c' = with_closure (set_walletProvider true) c /\
      (Closure.walletProvider (closure c) = true \/ import_reply replies = inr tt)
  | (c', inl e) =>
      c' = c /\ Closure.walletProvider (closure c) = false /\
      exists error, e = Raised error /\ import_reply replies = inl error
  end.
Proof.
  unfold getProvider.
  destruct (Closure.walletProvider (closure c)) eqn:Hw.
  - split; [exact Hw |]. split; [| auto].
    destruct c as [[w a ch d] l r dc b em]. simpl in *. subst. reflexivity.
  - unfold and_then, answered. destruct (import_reply replies) as [e | []]; simpl.
    + eauto.
    + auto.
Qed.

Lemma getProvider_again (replies : Replies) (c : t) :
  Closure.walletProvider (closure c) = true ->
  getProvider replies c = (c, inr tt).
Proof. intros Hw. unfold getProvider. rewrite Hw. reflexivity. Qed.

Lemma keeps_getAccounts (replies : Replies) : keeps (getAccounts' replies).
Proof.
  unfold getAccounts. apply keeps_bind; [apply keeps_getProvider |].
  intros _. apply keeps_bind; [apply keeps_request |].
  intros accounts. apply keeps_answered.
Qed.

Lemma keeps_getChainId (replies : Replies) : keeps (getChainId' replies).
Proof.
  unfold getChainId. apply keeps_bind; [apply keeps_getProvider |].
  intros _. apply keeps_bind; [apply keeps_request |].
  intros chainId. apply keeps_ret.
Qed.

Lemma keeps_isAuthorized (replies : Replies) : keeps (isAuthorized' replies).
Proof.
  unfold isAuthorized. apply keeps_try_catch.
  - apply keeps_bind; [apply keeps_getAccounts |]. intros a. apply keeps_ret.
  - intros e. apply keeps_ret.
Qed.

Lemma keeps_switchChain (replies : Replies) (supplied : option Supplied.t)
    (chainId : N) :
  keeps (switchChain' replies supplied chainId).
Proof.
  unfold Connector.switchChain_with_provider.
  destruct (List.find _ chains); [| apply keeps_throw].
  apply keeps_bind; [apply keeps_getProvider |]. intros _. apply keeps_switched.
Qed.

Lemma keeps_onChainChanged (chain : string) : keeps (onChainChanged' chain).
Proof. apply keeps_emit. Qed.

(** ** Registering and removing the listeners *)

Lemma register_all_in_step (c : t) :
  in_step c -> Closure.walletProvider (closure c) = true ->
  exists c' i j k,
    register_all c = (c', inr tt) /\
    Closure.walletProvider (closure c') = true /\
    Closure.accountsChanged (closure c') = Some i /\
    Closure.chainChanged (closure c') = Some j /\
    Closure.disconnect (closure c') = Some k /\
    listeners c' =
    [ ("accountsChanged", i); ("chainChanged", j); ("disconnect", k) ] /\
    requested c' = requested c /\ emitted c' = emitted c /\
    disconnect_calls c' = disconnect_calls c.
Proof.
  destruct c as [[w a ch d] l r dc b em]. simpl.
  intros [(Ha & Hc & Hd & Hl) | (i & j & k & Hw & Ha & Hc & Hd & Hl)] Hw';
    simpl in *; subst.
  - eexists _, _, _, _. split; [reflexivity |]. simpl. repeat split.
  - eexists _, i, j, k. split; [reflexivity |]. simpl. repeat split.
Qed.

Lemma unregister_all_in_step (c : t) :
  in_step c ->
  exists c',
    unregister_all c = (c', inr tt) /\
    Closure.walletProvider (closure c') = Closure.walletProvider (closure c) /\
    Closure.accountsChanged (closure c') = None /\
    Closure.chainChanged (closure c') = None /\
    Closure.disconnect (closure c') = None /\
    listeners c' = [] /\
    requested c' = requested c /\ emitted c' = emitted c /\
    disconnect_calls c' = disconnect_calls c.
Proof.
  destruct c as [[w a ch d] l r dc b em]. simpl.
  intros [(Ha & Hc & Hd & Hl) | (i & j & k & Hw & Ha & Hc & Hd & Hl)];
    simpl in *; subst.
  - eexists. split; [reflexivity |]. simpl. repeat split.
  - eexists. split; [reflexivity |]. simpl.
    unfold same_listener. simpl.
    repeat (rewrite Nat.eqb_refl; simpl). repeat split.
Qed.


(** ** [connect], step by step *)

Lemma register_all_returns (c : t) :
  register_all c = (fst (register_all c), inr tt) /\
  requested (fst (register_all c)) = requested c /\
  emitted (fst (register_all c)) = emitted c /\
  disconnect_calls (fst (register_all c)) = disconnect_calls c /\
  Closure.walletProvider (closure (fst (register_all c))) =
  Closure.walletProvider (closure c).
Proof.
  destruct c as [[w [a |] [ch |] [d |]] l r dc b em]; repeat split.
Qed.

Lemma unregister_all_returns (c : t) :
  unregister_all c = (fst (unregister_all c), inr tt) /\
  requested (fst (unregister_all c)) = requested c /\
  emitted (fst (unregister_all c)) = emitted c /\
  disconnect_calls (fst (unregister_all c)) = disconnect_calls c /\
  Closure.walletProvider (closure (fst (unregister_all c))) =
  Closure.walletProvider (closure c).
Proof.
  destruct c as [[w [a |] [ch |] [d |]] l r dc b em]; repeat split.
Qed.

Lemma handler_caught {A : Type} (e : ConnectorError) (c : t) :
  (if names_a_rejection (error_message viem_message e)
   then throw (A := A) (UserRejectedRequestError e)
   else throw e) c = (c, inl (caught viem_message e)).
Proof.
  unfold caught. destruct (names_a_rejection _); reflexivity.
Qed.

Lemma connect_steps (replies : Replies) (chainId : option N) (c : t) :
  connect' replies chainId c =
  match getProvider replies c with
  | (c1, inl e) => (c1, inl (caught viem_message e))
  | (c1, inr _) =>
      let c2 := with_requested [eth_requestAccounts] c1 in
      match eth_requestAccounts_reply replies with
      | inl e => (c2, inl (caught viem_message (Raised e)))
      | inr requested_accounts =>
          match addresses getAddress requested_accounts with
          | inl e => (c2, inl (caught viem_message (Raised e)))
          | inr accounts =>
              let c4 := with_requested [eth_chainId] (fst (register_all c2)) in
              match eth_chainId_reply replies with
              | inl e => (c4, inl (caught viem_message (Raised e)))
              | inr hex =>
                  match asks_to_switch chainId (Number hex) with
                  | None => (c4, inr (accounts, Number hex))
                  | Some n =>
                      let sent := switch_requests chains numberToHex
                                    replies None n in
                      match snd sent with
                      | Returns chain =>
                          (with_requested (map rpc (fst sent)) c4,
                           inr (accounts, Some (Chain.id chain)))
                      | ThrowsUserRejectedRequestError cause =>
                          (with_requested (map rpc (fst sent)) c4,
                           inl (caught viem_message
                                  (UserRejectedRequestError (Raised cause))))
                      | ThrowsChainNotConfigured =>
                          (c4, inr (accounts, Number hex))
                      | ThrowsSwitchChainError _ =>
                          (with_requested (map rpc (fst sent)) c4,
                           inr (accounts, Number hex))
                      end
                  end
              end
          end
      end
  end.
Proof.
  unfold connect, try_catch, and_then at 1.
  pose proof (getProvider_spec replies c) as Hp.
  destruct (getProvider replies c) as [c1 [e | []]].
  { apply handler_caught. }
  destruct Hp as (Hw & _ & _).
  unfold and_then at 1, request, answered at 1.
  destruct (eth_requestAccounts_reply replies) as [e | raw]; [apply handler_caught |].
  unfold and_then at 1, answered at 1.
  destruct (addresses getAddress raw) as [e | accounts]; [apply handler_caught |].
  unfold and_then at 1.
  fold (with_requested [eth_requestAccounts] c1).
  destruct (register_all_returns (with_requested [eth_requestAccounts] c1))
    as (Hr & _ & _ & _ & Hw3).
  rewrite Hr. simpl in Hw3. rewrite Hw in Hw3.
  set (c3 := fst (register_all (with_requested [eth_requestAccounts] c1))) in *.
  unfold and_then at 1, getChainId, and_then at 1.
  rewrite (getProvider_again replies c3 Hw3).
  unfold and_then at 1, request, answered.
  fold (with_requested [eth_chainId] c3).
  destruct (eth_chainId_reply replies) as [e | hex]; [apply handler_caught |].
  unfold pure at 1.
  destruct (asks_to_switch chainId (Number hex)) as [n |]; [| reflexivity].
  unfold and_then at 1, try_catch, and_then at 1, Connector.switchChain_with_provider.
  destruct (List.find (fun chain => N.eqb (Chain.id chain) n) chains)
    as [chain |] eqn:Hfind.
  - unfold and_then at 1.
    rewrite (getProvider_again replies (with_requested [eth_chainId] c3) Hw3).
    unfold switched.
    pose proof (switchChain_found numberToHex (provider_request replies)
                  chains None n chain Hfind) as Hs.
    fold (switch_requests chains numberToHex replies None n) in Hs.
    destruct (snd (switch_requests chains numberToHex replies None n));
      try reflexivity; [destruct Hs | apply handler_caught].
  - unfold switch_requests.
    rewrite (switchChain_not_found numberToHex (provider_request replies)
               chains None n Hfind).
    reflexivity.
Qed.


(** ** The listeners and the closure *)

Lemma same_listeners_logged (l : list Method) (c : t) :
  same_listeners c (with_requested l c).
Proof. repeat split; auto. Qed.

Lemma same_listeners_registered (c c' : t) :
  same_listeners c c' -> registered c -> registered c'.
Proof.
  intros (H1 & H2 & H3 & H4 & H5) (i & j & k & Ha & Hc & Hd & Hl).
  exists i, j, k. repeat split; congruence.
Qed.

Lemma connect_in_step (replies : Replies) (chainId : option N) (c : t) :
  in_step c ->
  in_step (fst (connect' replies chainId c)) /\
  (forall r, snd (connect' replies chainId c) = inr r ->
             registered (fst (connect' replies chainId c))).
Proof.
  intros Hc. rewrite connect_steps.
  pose proof (getProvider_spec replies c) as Hp.
  pose proof (keeps_getProvider replies c) as Hk.
  destruct (getProvider replies c) as [c1 [e | []]]; simpl in Hk.
  { destruct Hp as (-> & _). split; [exact Hc | discriminate]. }
  destruct Hp as (Hw & _ & _).
  assert (H1 : in_step c1) by (eapply same_listeners_in_step; eauto).
  assert (H2 : in_step (with_requested [eth_requestAccounts] c1)).
  { eapply same_listeners_in_step; [apply same_listeners_logged | exact H1]. }
  cbv zeta.
  destruct (eth_requestAccounts_reply replies) as [e | raw];
    [split; [exact H2 | discriminate] |].
  destruct (addresses getAddress raw) as [e | accounts];
    [split; [exact H2 | discriminate] |].
  destruct (register_all_in_step (with_requested [eth_requestAccounts] c1) H2 Hw)
    as (c3 & i & j & k & Hr & Hw3 & Ha & Hch & Hd & Hl & _).
  rewrite Hr. simpl fst.
  assert (H3 : in_step c3).
  { right. exists i, j, k. auto. }
  assert (R3 : registered c3).
  { exists i, j, k. auto. }
  assert (H4 : forall l, in_step (with_requested l c3)).
  { intros l. eapply same_listeners_in_step;
      [apply same_listeners_logged | exact H3]. }
  assert (R4 : forall l, registered (with_requested l c3)).
  { intros l. eapply same_listeners_registered;
      [apply same_listeners_logged | exact R3]. }
  assert (H5 : forall l l', in_step (with_requested l' (with_requested l c3))).
  { intros l l'. eapply same_listeners_in_step;
      [apply same_listeners_logged | apply H4]. }
  assert (R5 : forall l l', registered (with_requested l' (with_requested l c3))).
  { intros l l'. eapply same_listeners_registered;
      [apply same_listeners_logged | apply R4]. }
  destruct (eth_chainId_reply replies) as [e | hex];
    [split; [apply H4 | discriminate] |].
  destruct (asks_to_switch chainId (Number hex)) as [n |];
    [| split; [apply H4 | intros; apply R4]].
  destruct (snd (switch_requests chains numberToHex replies None n));
    simpl; split; auto; discriminate.
Qed.

Lemma disconnect_in_step (replies : Replies) (c : t) :
  in_step c ->
  in_step (fst (disconnect replies c)) /\
  listeners (fst (disconnect replies c)) = [] /\
  emitted (fst (disconnect replies c)) = emitted c /\
  requested (fst (disconnect replies c)) = requested c /\
  (forall r, snd (disconnect replies c) = inr r ->
     disconnect_calls (fst (disconnect replies c)) = S (disconnect_calls c)) /\
  (forall e, snd (disconnect replies c) = inl e ->
     fst (disconnect replies c) = c).
Proof.
  intros Hc. destruct (disconnect replies c) as [c' r] eqn:Hrun. simpl.
  unfold disconnect, and_then in Hrun.
  pose proof (getProvider_spec replies c) as Hp.
  pose proof (keeps_getProvider replies c) as Hk.
  destruct (getProvider replies c) as [c1 [e | []]]; simpl in Hk.
  - destruct Hp as (-> & Hw & _). injection Hrun as <- <-.
    destruct Hc as [(Ha & Hch & Hd & Hl) | (i & j & k & Hw' & _)];
      [| congruence].
    split; [left; auto |]. repeat split; auto; discriminate.
  - destruct Hp as (Hw & -> & _).
    assert (H1 : in_step (with_closure (set_walletProvider true) c))
      by (eapply same_listeners_in_step; eauto).
    destruct (unregister_all_in_step _ H1)
      as (c2 & Hu & Hw2 & Ha & Hch & Hd & Hl & Hr & He & Hdc).
    rewrite Hu in Hrun. injection Hrun as <- <-. simpl.
    split; [left; auto |].
    repeat split; auto; try discriminate.
Qed.

Lemma onDisconnect_in_step (replies : Replies) (c : t) :
  in_step c ->
  in_step (fst (onDisconnect replies c)) /\
  listeners (fst (onDisconnect replies c)) = [] /\
  emitted (fst (onDisconnect replies c)) = emitted c ++ [emitted_disconnect] /\
  disconnect_calls (fst (onDisconnect replies c)) = disconnect_calls c /\
  requested (fst (onDisconnect replies c)) = requested c.
Proof.
  intros Hc. destruct (onDisconnect replies c) as [c' r] eqn:Hrun. simpl.
  unfold onDisconnect, and_then at 1 in Hrun.
  set (c0 := fst (emit emitted_disconnect c)).
  assert (H0 : in_step c0).
  { eapply same_listeners_in_step;
      [apply (keeps_emit emitted_disconnect c) | exact Hc]. }
  change (emit emitted_disconnect c)
    with (c0, inr (B := unit) (A := ConnectorError) tt) in Hrun.
  cbv iota beta in Hrun. unfold and_then in Hrun.
  pose proof (getProvider_spec replies c0) as Hp.
  pose proof (keeps_getProvider replies c0) as Hk.
  destruct (getProvider replies c0) as [c1 [e | []]]; simpl in Hk.
  - destruct Hp as (-> & Hw & _). injection Hrun as <- <-.
    destruct H0 as [(Ha & Hch & Hd & Hl) | (i & j & k & Hw' & _)];
      [| simpl in *; congruence].
    split; [left; auto |]. repeat split; auto.
  - destruct Hp as (Hw & -> & _).
    assert (H1 : in_step (with_closure (set_walletProvider true) c0))
      by (eapply same_listeners_in_step; eauto).
    destruct (unregister_all_in_step _ H1)
      as (c2 & Hu & Hw2 & Ha & Hch & Hd & Hl & Hr & He & Hdc).
    rewrite Hu in Hrun. injection Hrun as <- <-.
    split; [left; auto |]. repeat split; auto.
Qed.

Lemma keeps_in_step {A : Type} (m : C A) (c : t) :
  keeps m -> in_step c -> in_step (fst (m c)).
Proof. intros Hk Hc. eapply same_listeners_in_step; [apply Hk | exact Hc]. Qed.

Lemma keeps_onAccountsChanged_some (replies : Replies) (x : string)
    (rest : list string) :
  keeps (onAccountsChanged' replies (x :: rest)).
Proof.
  unfold onAccountsChanged. apply keeps_bind; [apply keeps_answered |].
  intros normalized. apply keeps_emit.
Qed.

Lemma call_in_step (replies : Replies) (k : Invocation) (c : t) :
  in_step c -> in_step (call' replies k c).
Proof.
  intros Hc.
  destruct k as [chainId | | | | | | supplied chainId | accounts | chain |];
    unfold call.
  - apply connect_in_step, Hc.
  - apply disconnect_in_step, Hc.
  - apply keeps_in_step; [apply keeps_getAccounts | exact Hc].
  - apply keeps_in_step; [apply keeps_getChainId | exact Hc].
  - apply keeps_in_step; [apply keeps_getProvider | exact Hc].
  - apply keeps_in_step; [apply keeps_isAuthorized | exact Hc].
  - apply keeps_in_step; [apply keeps_switchChain | exact Hc].
  - destruct accounts as [| x rest].
    + change (in_step (fst (onDisconnect replies c))).
      apply onDisconnect_in_step, Hc.
    + apply keeps_in_step; [apply keeps_onAccountsChanged_some | exact Hc].
  - apply keeps_in_step; [apply keeps_onChainChanged | exact Hc].
  - apply onDisconnect_in_step, Hc.
Qed.

Lemma calls_after_in_step (ks : list (Invocation * Replies)) (c : t) :
  in_step c -> in_step (invocations_after' ks c).
Proof.
  revert c. induction ks as [| [k replies] ks IH]; intros c Hc; simpl.
  - exact Hc.
  - apply IH, call_in_step, Hc.
Qed.

Lemma new_in_step : in_step new.
Proof. left. repeat split. Qed.

(** X13. The listeners follow the closure.  After any calls of a new
    connector, with any answers, the provider has no listener of the
    connector and the three variables are undefined, or it has exactly
    three, one per event and each the one its variable holds, and the
    provider exists: no listener is registered twice and none is left
    behind.  From there a [connect] that returns leaves the three
    registered, and [disconnect], [onDisconnect] and
    [onAccountsChanged] of no account leave none, whether they return
    or throw. *)
Theorem listeners_follow_the_closure (ks : list (Invocation * Replies)) :
  let c := invocations_after' ks new in
  in_step c /\
  forall replies,
    (forall chainId r,
        snd (connect' replies chainId c) = inr r ->
        registered (fst (connect' replies chainId c))) /\
    listeners (fst (disconnect replies c)) = [] /\
    listeners (fst (onDisconnect replies c)) = [] /\
    listeners (fst (onAccountsChanged' replies [] c)) = [].
Proof.
  intros c.
  assert (Hc : in_step c) by (apply calls_after_in_step, new_in_step).
  split; [exact Hc |]. intros replies. repeat split.
  - intros chainId r. apply connect_in_step, Hc.
  - apply disconnect_in_step, Hc.
  - apply onDisconnect_in_step, Hc.
  - change (listeners (fst (onDisconnect replies c)) = []).
    apply onDisconnect_in_step, Hc.
Qed.


(** ** What [connect] asks of the wallet *)

Lemma asks_to_switch_some (chainId current : option N) (n : N) :
  asks_to_switch chainId current = Some n <->
  chainId = Some n /\ n <> 0%N /\ current <> Some n.
Proof.
  unfold asks_to_switch. destruct chainId as [m |]; [| split; [discriminate | intros ([=] & _)]].
  destruct (N.eqb m 0) eqn:H0.
  - apply N.eqb_eq in H0. subst m.
    split; [discriminate | intros ([= <-] & Hn & _); congruence].
  - apply N.eqb_neq in H0. destruct current as [cur |].
    + destruct (N.eqb cur m) eqn:Hc.
      * apply N.eqb_eq in Hc. subst cur.
        split; [discriminate | intros ([= <-] & _ & Hn); congruence].
      * apply N.eqb_neq in Hc.
        split; [intros [= <-] | intros ([= <-] & _)]; auto.
        repeat split; auto. congruence.
    + split; [intros [= <-] | intros ([= <-] & _)]; auto.
Qed.

Lemma getProvider_logged (replies : Replies) (c c1 : t)
    (r : ConnectorError + unit) :
  getProvider replies c = (c1, r) ->
  requested c1 = requested c /\ emitted c1 = emitted c /\
  disconnect_calls c1 = disconnect_calls c.
Proof.
  intros H. pose proof (getProvider_spec replies c) as Hp. rewrite H in Hp.
  destruct r as [e | u].
  - destruct Hp as (-> & _). auto.
  - destruct Hp as (_ & -> & _). auto.
Qed.


(** X15. A switch that fails does not fail [connect], unless the user
    rejected it.  Once the provider is there, the accounts are in and
    the wallet reported a chain other than the one asked for: when the
    switch returns, [connect] returns the accounts with the chain asked
    for; when the switch throws a UserRejectedRequestError, [connect]
    throws one; when it throws anything else, [connect] returns the
    accounts with the chain the wallet reported. *)
Theorem connect_survives_a_failed_switch (replies : Replies) (c : t)
    (requested_accounts accounts : list string) (hex : string) (n : N) :
  Closure.walletProvider (closure c) = true \/ import_reply replies = inr tt ->
  eth_requestAccounts_reply replies = inr requested_accounts ->
  addresses getAddress requested_accounts = inr accounts ->
  eth_chainId_reply replies = inr hex ->
  n <> 0%N -> Number hex <> Some n ->
  match snd (switch_requests chains numberToHex replies None n) with
  | Returns chain =>
      snd (connect' replies (Some n) c) = inr (accounts, Some n)
  | ThrowsUserRejectedRequestError cause =>
      exists e, snd (connect' replies (Some n) c)
                = inl (UserRejectedRequestError e)
  | _ => snd (connect' replies (Some n) c) = inr (accounts, Number hex)
  end.
Proof.
  intros Hp Hacc Haddr Hhex Hn0 Hcur. rewrite connect_steps.
  pose proof (getProvider_spec replies c) as Hg.
  destruct (getProvider replies c) as [c1 [e | []]].
  { destruct Hg as (_ & Hw & error & _ & Hi).
    destruct Hp as [Hp | Hp]; congruence. }
  cbv zeta. rewrite Hacc, Haddr, Hhex.
  assert (Hask : asks_to_switch (Some n) (Number hex) = Some n)
    by (apply asks_to_switch_some; auto).
  rewrite Hask.
  destruct (snd (switch_requests chains numberToHex replies None n)) eqn:Hs;
    try reflexivity.
  - apply switchChain_returns_asked in Hs as [-> _]. reflexivity.
  - simpl. unfold caught. destruct (names_a_rejection _); eauto.
Qed.

(** X16. What [connect] throws.  A [connect] that throws, throws a
    UserRejectedRequestError or what a collaborator threw, unchanged,
    and the latter only when its message names no rejection: never a
    SwitchChainError or a ChainNotConfiguredError. *)
Theorem connect_throws_no_switch_error (replies : Replies)
    (chainId : option N) (c : t) :
  match snd (connect' replies chainId c) with
  | inl (Raised error) => names_a_rejection (message error) = false
  | inl (UserRejectedRequestError _) => True
  | inl _ => False
  | inr _ => True
  end.
Proof.
  assert (Hcaught : forall error,
             match caught viem_message (Raised error) with
             | Raised error' => names_a_rejection (message error') = false
             | UserRejectedRequestError _ => True
             | _ => False
             end).
  { intros error. unfold caught. simpl.
    destruct (names_a_rejection (message error)) eqn:H; [exact I | exact H]. }
  rewrite connect_steps.
  pose proof (getProvider_spec replies c) as Hg.
  destruct (getProvider replies c) as [c1 [e | []]].
  { destruct Hg as (_ & _ & error & -> & _). simpl. apply Hcaught. }
  cbv zeta.
  destruct (eth_requestAccounts_reply replies) as [e | raw];
    [simpl; apply Hcaught |].
  destruct (addresses getAddress raw) as [e | accounts];
    [simpl; apply Hcaught |].
  destruct (eth_chainId_reply replies) as [e | hex];
    [simpl; apply Hcaught |].
  destruct (asks_to_switch chainId (Number hex)) as [n |]; [| exact I].
  destruct (snd (switch_requests chains numberToHex replies None n));
    try exact I.
  simpl. unfold caught. destruct (names_a_rejection _); exact I.
Qed.

(** X17. [connect] and the listeners.  From a state in which the
    listeners follow the closure, a [connect] that got the accounts has
    registered the three listeners even if it throws afterwards, at the
    request of the chain or at the switch; one that failed before, at
    the provider, at the request of the accounts or at an address, has
    altered neither the listeners nor the variables. *)
Theorem connect_registers_after_the_accounts (replies : Replies)
    (chainId : option N) (c : t) :
  in_step c ->
  let c' := fst (connect' replies chainId c) in
  match getProvider replies c with
  | (_, inl _) => same_listeners c c'
  | (_, inr _) =>
      match eth_requestAccounts_reply replies with
      | inl _ => same_listeners c c'
      | inr requested_accounts =>
          match addresses getAddress requested_accounts with
          | inl _ => same_listeners c c'
          | inr _ => registered c'
          end
      end
  end.
Proof.
  intros Hc. cbv zeta. rewrite connect_steps.
  pose proof (getProvider_spec replies c) as Hp.
  pose proof (keeps_getProvider replies c) as Hk.
  destruct (getProvider replies c) as [c1 [e | []]]; simpl in Hk.
  { exact Hk. }
  destruct Hp as (Hw & _ & _).
  assert (H2 : same_listeners c (with_requested [eth_requestAccounts] c1)).
  { eapply same_listeners_trans; [exact Hk | apply same_listeners_logged]. }
  cbv zeta.
  destruct (eth_requestAccounts_reply replies) as [e | raw]; [exact H2 |].
  destruct (addresses getAddress raw) as [e | accounts]; [exact H2 |].
  destruct (register_all_in_step (with_requested [eth_requestAccounts] c1)
              (same_listeners_in_step _ _ H2 Hc) Hw)
    as (c3 & i & j & k & Hr & Hw3 & Ha & Hch & Hd & Hl & _).
  rewrite Hr. simpl fst.
  assert (R3 : registered c3) by (exists i, j, k; auto).
  assert (R4 : forall l, registered (with_requested l c3)).
  { intros l. eapply same_listeners_registered;
      [apply same_listeners_logged | exact R3]. }
  assert (R5 : forall l l', registered (with_requested l' (with_requested l c3))).
  { intros l l'. eapply same_listeners_registered;
      [apply same_listeners_logged | apply R4]. }
  destruct (eth_chainId_reply replies) as [e | hex]; [apply R4 |].
  destruct (asks_to_switch chainId (Number hex)) as [n |]; [| apply R4].
  destruct (snd (switch_requests chains numberToHex replies None n));
    simpl; auto.
Qed.

Lemma onDisconnect_logged (replies : Replies) (c : t) :
  emitted (fst (onDisconnect replies c)) = emitted c ++ [emitted_disconnect] /\
  requested (fst (onDisconnect replies c)) = requested c /\
  disconnect_calls (fst (onDisconnect replies c)) = disconnect_calls c.
Proof.
  unfold onDisconnect, and_then, emit.
  match goal with
  | |- context [getProvider replies ?c0] =>
      destruct (getProvider replies c0) as [c1 r] eqn:Hg;
      destruct (getProvider_logged _ _ _ _ Hg) as (Hr1 & He1 & Hd1)
  end.
  simpl in Hr1, He1, Hd1. destruct r as [e | []].
  - simpl. auto.
  - destruct (unregister_all_returns c1) as (Hu & Hr2 & He2 & Hd2 & _).
    rewrite Hu. simpl. repeat split; congruence.
Qed.

(** ** The other methods *)

(** X18. [isAuthorized] never throws.  It does what [getAccounts] does
    and returns true exactly when [getAccounts] returns at least one
    account: false when there is none and false when [getAccounts]
    throws, at the import, at the request or at an address. *)
Theorem isAuthorized_never_throws (replies : Replies) (c : t) :
  exists b,
    isAuthorized' replies c = (fst (getAccounts' replies c), inr b) /\
    (b = true <->
     exists accounts,
       snd (getAccounts' replies c) = inr accounts /\ accounts <> []).
Proof.
  unfold isAuthorized, try_catch, and_then at 1.
  destruct (getAccounts' replies c) as [c1 [e | accounts]]; simpl.
  - exists false. split; [reflexivity |].
    split; [discriminate | intros (a & [=] & _)].
  - exists (negb (Nat.eqb (length accounts) 0)). split; [reflexivity |].
    destruct accounts as [| x rest]; simpl.
    + split; [discriminate | intros (a & [= <-] & Hn); congruence].
    + split; [| reflexivity]. intros _. exists (x :: rest).
      split; [reflexivity | discriminate].
Qed.

Lemma addresses_length (accounts normalized : list string) :
  addresses getAddress accounts = inr normalized ->
  length normalized = length accounts.
Proof.
  revert normalized. induction accounts as [| x rest IH]; simpl.
  - intros normalized [= <-]. reflexivity.
  - intros normalized. destruct (getAddress x) as [e | a]; [discriminate |].
    destruct (addresses getAddress rest) as [e | l]; [discriminate |].
    intros [= <-]. simpl. rewrite (IH l eq_refl). reflexivity.
Qed.

(** X19. The wallet's account events.  [onAccountsChanged] of no
    account returns, even where [onDisconnect] throws, emits
    "disconnect" and no "change", and from a state in which the
    listeners follow the closure leaves no listener.  With accounts it
    emits one "change" with as many addresses, each from [getAddress],
    and alters nothing else; when [getAddress] throws it throws the same
    and emits nothing. *)
Theorem onAccountsChanged_without_accounts_disconnects (replies : Replies)
    (accounts : list string) (c : t) :
  match accounts with
  | [] =>
      snd (onAccountsChanged' replies [] c) = inr tt /\
      emitted (fst (onAccountsChanged' replies [] c))
      = emitted c ++ [emitted_disconnect] /\
      (in_step c -> listeners (fst (onAccountsChanged' replies [] c)) = [])
  | _ =>
      match addresses getAddress accounts with
      | inr normalized =>
          length normalized = length accounts /\
          onAccountsChanged' replies accounts c =
          ({| closure := closure c; listeners := listeners c;
              requested := requested c;
              disconnect_calls := disconnect_calls c;
              bound := bound c;
              emitted := emitted c ++ [change_accounts normalized] |}, inr tt)
      | inl e => onAccountsChanged' replies accounts c = (c, inl (Raised e))
      end
  end.
Proof.
  destruct accounts as [| x rest].
  - split; [reflexivity |]. split.
    + change (emitted (fst (onDisconnect replies c))
              = emitted c ++ [emitted_disconnect]).
      apply onDisconnect_logged.
    + intros Hc.
      change (listeners (fst (onDisconnect replies c)) = []).
      apply onDisconnect_in_step, Hc.
  - destruct (addresses getAddress (x :: rest)) as [e | normalized] eqn:Ha.
    + unfold onAccountsChanged, and_then, answered. rewrite Ha. reflexivity.
    + split; [apply addresses_length, Ha |].
      unfold onAccountsChanged, and_then, answered. rewrite Ha. reflexivity.
Qed.

(** X20. [disconnect] and [onDisconnect] are not each other's.
    [disconnect] emits nothing and, when it returns, has called the
    provider's [disconnect] once; it throws only when the import of the
    provider failed, and then nothing changed.  [onDisconnect] emits
    "disconnect" once, whether it returns or throws, and never calls the
    provider's [disconnect].  Neither sends a request. *)
Theorem disconnect_and_onDisconnect (replies : Replies) (c : t) :
  (emitted (fst (disconnect replies c)) = emitted c /\
   requested (fst (disconnect replies c)) = requested c /\
   match snd (disconnect replies c) with
   | inr _ =>
       disconnect_calls (fst (disconnect replies c)) = S (disconnect_calls c)
   | inl e =>
       fst (disconnect replies c) = c /\
       Closure.walletProvider (closure c) = false /\
       exists error, e = Raised error /\ import_reply replies = inl error
   end) /\
  (emitted (fst (onDisconnect replies c)) = emitted c ++ [emitted_disconnect] /\
   requested (fst (onDisconnect replies c)) = requested c /\
   disconnect_calls (fst (onDisconnect replies c)) = disconnect_calls c).
Proof.
  split; [| apply onDisconnect_logged].
  unfold disconnect, and_then.
  pose proof (getProvider_spec replies c) as Hp.
  destruct (getProvider replies c) as [c1 [e | []]] eqn:Hg.
  - destruct Hp as (-> & Hw & Herr). simpl. auto.
  - destruct (getProvider_logged _ _ _ _ Hg) as (Hr1 & He1 & Hd1).
    destruct (unregister_all_returns c1) as (Hu & Hr2 & He2 & Hd2 & _).
    rewrite Hu. simpl. repeat split; congruence.
Qed.


(** ** [switchChain], the method *)

(** X12. The requests of [switchChain] and its outcome.  When the chain
    is not configured the method throws the not-configured error, which
    it throws in no other case, before it asks for the provider: nothing
    is imported and nothing requested.  When the chain is configured and
    the provider cannot be made, it throws what the import threw and
    requests nothing.  Otherwise the first request is the switch to the
    chain found, which has the identifier asked for; the add request is
    sent only after the wallet answered the switch with code 4902, and
    nothing is sent after it.  A returned chain is the configured chain
    found and the last request was fulfilled; a SwitchChainError carries
    what the wallet answered to the switch, of another code than 4902,
    and a UserRejectedRequestError carries what the wallet answered to
    the add request. *)
Theorem switchChain_requests_and_outcome (replies : Replies)
    (supplied : option Supplied.t) (chainId : N) (c : t) :
  let found := List.find (fun chain => N.eqb (Chain.id chain) chainId) chains in
  let c' := fst (switchChain' replies supplied chainId c) in
  let result := snd (switchChain' replies supplied chainId c) in
  let switch := wallet_switchEthereumChain (numberToHex chainId) in
  (result = inl (SwitchChainError ChainNotConfiguredError) <-> found = None) /\
  (found = None -> c' = c) /\
  (forall chain, found = Some chain ->
     In chain chains /\ Chain.id chain = chainId /\
     let add := wallet_addEthereumChain
                  (addEthereumChain numberToHex supplied chain chainId) in
     match getProvider replies c with
     | (_, inl e) => c' = c /\ result = inl e
     | (c1, inr _) =>
         exists sent,
           c' = with_requested (map rpc sent) c1 /\
           (sent = [switch] \/ sent = [switch; add]) /\
           (sent = [switch; add] <->
            exists error, provider_request replies switch = inl error /\
                          code error = 4902%Z) /\
           (forall chain', result = inr chain' ->
              chain' = chain /\
              provider_request replies (List.last sent switch) = inr tt) /\
           (forall cause, result = inl (SwitchChainError cause) ->
              exists error,
                cause = Raised error /\ sent = [switch] /\
                provider_request replies switch = inl error /\
                code error <> 4902%Z) /\
           (forall cause, result = inl (UserRejectedRequestError cause) ->
              exists error,
                cause = Raised error /\ sent = [switch; add] /\
                provider_request replies add = inl error) /\
           (forall error, result <> inl (Raised error))
     end).
Proof.
  cbv zeta. unfold Connector.switchChain_with_provider.
  pose proof (switch_requests_and_outcome numberToHex
                (provider_request replies) chains supplied chainId) as H.
  cbv zeta in H. fold (switch_requests chains numberToHex replies supplied chainId) in H.
  destruct H as (Hnil & Hnc & Hfound).
  destruct (List.find (fun chain => N.eqb (Chain.id chain) chainId) chains)
    as [chain |] eqn:Hfind.
  2: { simpl. repeat split; auto; discriminate. }
  destruct (Hfound chain eq_refl)
    as (Hin & Hid & Hsent & Hadd & Hret & Hsw & Hur).
  split.
  { split; [| discriminate]. unfold and_then.
    pose proof (getProvider_spec replies c) as Hp.
    destruct (getProvider replies c) as [c1 [e | []]].
    - destruct Hp as (_ & _ & error & -> & _). simpl. discriminate.
    - simpl. destruct (snd (switch_requests chains numberToHex replies
                              supplied chainId)) eqn:Hres;
        try discriminate.
      intros _. apply Hnc. reflexivity. }
  split; [discriminate |].
  intros chain0 [= <-]. split; [exact Hin |]. split; [exact Hid |].
  unfold and_then.
  pose proof (getProvider_spec replies c) as Hp.
  destruct (getProvider replies c) as [c1 [e | []]].
  - destruct Hp as (-> & _). simpl. auto.
  - exists (fst (switch_requests chains numberToHex replies supplied chainId)).
    split; [reflexivity |]. split; [exact Hsent |]. split; [exact Hadd |].
    simpl.
    destruct (snd (switch_requests chains numberToHex replies supplied chainId))
      as [chain' | | cause | cause] eqn:Hres.
    + split; [| repeat split; discriminate].
      intros chain'' [= <-]. destruct (Hret chain' eq_refl) as (-> & last & <- & Hl).
      auto.
    + exfalso. assert (Hno : Some chain = None) by (apply Hnc; reflexivity).
      discriminate Hno.
    + split; [discriminate |]. split; [discriminate |].
      split; [| discriminate].
      intros cause' [= <-]. exists cause.
      destruct (Hur cause eq_refl) as (Hs & Hr). auto.
    + split; [discriminate |]. split; [| split; discriminate].
      intros cause' [= <-]. exists cause.
      destruct (Hsw cause eq_refl) as (Hs & Hr & Hc). auto.
Qed.

(** ** The provider is made once *)

Lemma keeps_provider_stays {A : Type} (m : C A) : keeps m -> provider_stays m.
Proof. intros Hk c Hw. apply (Hk c), Hw. Qed.

Lemma provider_stays_and_then {A B : Type} (m : C A) (k : A -> C B) :
  provider_stays m -> (forall a, provider_stays (k a)) ->
  provider_stays (and_then m k).
Proof.
  intros Hm Hk c Hw. unfold and_then. specialize (Hm c Hw).
  destruct (m c) as [c1 [e | a]]; simpl in *; [exact Hm |].
  apply Hk, Hm.
Qed.

Lemma provider_stays_try_catch {A : Type} (m : C A)
    (handler : ConnectorError -> C A) :
  provider_stays m -> (forall e, provider_stays (handler e)) ->
  provider_stays (try_catch m handler).
Proof.
  intros Hm Hh c Hw. unfold try_catch. specialize (Hm c Hw).
  destruct (m c) as [c1 [e | a]]; simpl in *; [| exact Hm].
  apply Hh, Hm.
Qed.

Lemma provider_stays_register_all : provider_stays register_all.
Proof.
  intros c Hw. destruct (register_all_returns c) as (_ & _ & _ & _ & H).
  congruence.
Qed.

Lemma provider_stays_unregister_all : provider_stays unregister_all.
Proof.
  intros c Hw. destruct (unregister_all_returns c) as (_ & _ & _ & _ & H).
  congruence.
Qed.

Lemma provider_stays_connect (replies : Replies) (chainId : option N) :
  provider_stays (connect' replies chainId).
Proof.
  unfold connect. apply provider_stays_try_catch.
  - apply provider_stays_and_then;
      [apply keeps_provider_stays, keeps_getProvider |].
    intros _. apply provider_stays_and_then;
      [apply keeps_provider_stays, keeps_request |].
    intros raw. apply provider_stays_and_then;
      [apply keeps_provider_stays, keeps_answered |].
    intros accounts. apply provider_stays_and_then;
      [apply provider_stays_register_all |].
    intros _. apply provider_stays_and_then;
      [apply keeps_provider_stays, keeps_getChainId |].
    intros current. destruct (asks_to_switch chainId current) as [n |];
      [| apply keeps_provider_stays, keeps_ret].
    apply provider_stays_and_then;
      [| intros id; apply keeps_provider_stays, keeps_ret].
    apply provider_stays_try_catch.
    + apply provider_stays_and_then;
        [apply keeps_provider_stays, keeps_switchChain |].
      intros chain. apply keeps_provider_stays, keeps_ret.
    + intros e. destruct (is_user_rejection e);
        apply keeps_provider_stays; [apply keeps_throw | apply keeps_ret].
  - intros e. destruct (names_a_rejection _);
      apply keeps_provider_stays, keeps_throw.
Qed.

Lemma provider_stays_disconnect (replies : Replies) :
  provider_stays (disconnect replies).
Proof.
  unfold disconnect. apply provider_stays_and_then;
    [apply keeps_provider_stays, keeps_getProvider |].
  intros _. apply provider_stays_and_then;
    [apply provider_stays_unregister_all |].
  intros _. apply keeps_provider_stays, keeps_provider_disconnect.
Qed.

Lemma provider_stays_onDisconnect (replies : Replies) :
  provider_stays (onDisconnect replies).
Proof.
  unfold onDisconnect. apply provider_stays_and_then;
    [apply keeps_provider_stays, keeps_emit |].
  intros _. apply provider_stays_and_then;
    [apply keeps_provider_stays, keeps_getProvider |].
  intros _. apply provider_stays_unregister_all.
Qed.

Lemma call_provider_stays (replies : Replies) (k : Invocation) (c : t) :
  Closure.walletProvider (closure c) = true ->
  Closure.walletProvider (closure (call' replies k c)) = true.
Proof.
  intros Hw.
  destruct k as [chainId | | | | | | supplied chainId | accounts | chain |];
    unfold call.
  - apply provider_stays_connect, Hw.
  - apply provider_stays_disconnect, Hw.
  - apply (keeps_provider_stays _ (keeps_getAccounts replies)), Hw.
  - apply (keeps_provider_stays _ (keeps_getChainId replies)), Hw.
  - apply (keeps_provider_stays _ (keeps_getProvider replies)), Hw.
  - apply (keeps_provider_stays _ (keeps_isAuthorized replies)), Hw.
  - apply (keeps_provider_stays _ (keeps_switchChain replies supplied chainId)),
      Hw.
  - destruct accounts as [| x rest].
    + change (Closure.walletProvider
                (closure (fst (onDisconnect replies c))) = true).
      apply provider_stays_onDisconnect, Hw.
    + apply (keeps_provider_stays _
               (keeps_onAccountsChanged_some replies x rest)), Hw.
  - apply (keeps_provider_stays _ (keeps_onChainChanged chain)), Hw.
  - apply provider_stays_onDisconnect, Hw.
Qed.

(** X21. The provider is made once.  After a [getProvider] that
    returned, whatever is called afterwards and whatever is answered, the
    provider stays: every later [getProvider] returns at once, without
    the import and without a change, also where the import would now
    fail.  A [getProvider] that throws, throws what the import threw,
    leaves no provider and changes nothing, so that the next call imports
    again. *)
Theorem provider_is_made_once (replies : Replies) (c : t) :
  match getProvider replies c with
  | (c1, inr _) =>
      forall ks replies',
        getProvider replies' (invocations_after' ks c1)
        = (invocations_after' ks c1, inr tt)
  | (c1, inl e) =>
      c1 = c /\ Closure.walletProvider (closure c) = false /\
      exists error, e = Raised error /\ import_reply replies = inl error
  end.
Proof.
  pose proof (getProvider_spec replies c) as Hp.
  destruct (getProvider replies c) as [c1 [e | []]]; [exact Hp |].
  destruct Hp as (Hw & _). intros ks replies'.
  apply getProvider_again.
  clear - Hw. revert c1 Hw.
  induction ks as [| [k r] ks IH]; intros c1 Hw; simpl; [exact Hw |].
  apply IH, call_provider_stays, Hw.
Qed.

End ConnectorProofs.

(** * More examples and witnesses *)

Module MoreWitnesses.

Import Examples MoreExamples.

Lemma strokes_length (n : nat) : String.length (strokes n) = n.
Proof. induction n as [| n IH]; simpl; [reflexivity | now rewrite IH]. Qed.

Lemma stroke_cipher_exports_import_back :
  exports_import_back (cipher := stroke_cipher).
Proof.
  intros t key. exists (String "k" (strokes key)).
  split; [reflexivity |]. split; [discriminate |].
  simpl. rewrite strokes_length. reflexivity.
Qed.

(** *** The key manager *)

Lemma own_pair_stays_until_clear_witness :
  let kp := {| privateKey := 4; publicKey := 5 |} in
  let cs := [GetOwnPublicKey; SetPeerPublicKey 7; GetSharedSecret] in
  holds kp full_state /\
  forallb (fun c => negb (is_clear c)) cs = true /\
  holds kp (calls_after cs full_state) /\
  generated (world (calls_after cs full_state)) = 3.
Proof.
  intros kp cs.
  assert (H1 : holds kp full_state) by (split; reflexivity).
  assert (H2 : forallb (fun c => negb (is_clear c)) cs = true) by reflexivity.
  split; [exact H1 |]. split; [exact H2 |].
  pose proof (own_pair_stays_until_clear kp cs full_state H1 H2) as H.
  exact (conj (proj1 H) (proj1 (proj2 H))).
Defined.

Lemma restart_keeps_own_pair_witness :
  let kp := {| privateKey := 2; publicKey := 3 |} in
  exports_import_back (cipher := stroke_cipher) /\
  persisted (cipher := stroke_cipher) OWN_PRIVATE_KEY 2 stroke_state /\
  persisted (cipher := stroke_cipher) OWN_PUBLIC_KEY 3 stroke_state /\
  forall s' r,
    getOwnPublicKey (cipher := stroke_cipher) (restarted stroke_state)
    = (s', inr r) ->
    r = Some 3 /\ holds kp s' /\ generated (world s') = 2.
Proof.
  intros kp.
  assert (H2 : persisted (cipher := stroke_cipher) OWN_PRIVATE_KEY 2 stroke_state)
    by (eexists; split; [reflexivity | vm_compute; reflexivity]).
  assert (H3 : persisted (cipher := stroke_cipher) OWN_PUBLIC_KEY 3 stroke_state)
    by (eexists; split; [reflexivity | vm_compute; reflexivity]).
  split; [exact stroke_cipher_exports_import_back |].
  split; [exact H2 |]. split; [exact H3 |].
  exact (proj1 (restart_keeps_own_pair (cipher := stroke_cipher) kp stroke_state
                  stroke_cipher_exports_import_back H2 H3)).
Defined.

Lemma restart_rederives_secret_witness :
  let kp := {| privateKey := 2; publicKey := 3 |} in
  exports_import_back (cipher := stroke_cipher) /\
  persisted (cipher := stroke_cipher) OWN_PRIVATE_KEY 2 stroke_state /\
  persisted (cipher := stroke_cipher) OWN_PUBLIC_KEY 3 stroke_state /\
  persisted (cipher := stroke_cipher) PEER_PUBLIC_KEY 4 stroke_state /\
  forall s' r,
    getSharedSecret (cipher := stroke_cipher) (restarted stroke_state)
    = (s', inr r) ->
    peerPublicKey (this s') = Some 4 /\
    exists secret,
      r = Some secret /\
      deriveSharedSecret (Cipher := stroke_cipher) 2 4 = inr secret.
Proof.
  intros kp.
  assert (H2 : persisted (cipher := stroke_cipher) OWN_PRIVATE_KEY 2 stroke_state)
    by (eexists; split; [reflexivity | vm_compute; reflexivity]).
  assert (H3 : persisted (cipher := stroke_cipher) OWN_PUBLIC_KEY 3 stroke_state)
    by (eexists; split; [reflexivity | vm_compute; reflexivity]).
  assert (H4 : persisted (cipher := stroke_cipher) PEER_PUBLIC_KEY 4 stroke_state)
    by (eexists; split; [reflexivity | vm_compute; reflexivity]).
  split; [exact stroke_cipher_exports_import_back |].
  split; [exact H2 |]. split; [exact H3 |]. split; [exact H4 |].
  exact (proj1 (restart_rederives_secret (cipher := stroke_cipher) kp 4
                  stroke_state stroke_cipher_exports_import_back H2 H3 H4)).
Defined.

Lemma storeObject_loadObject_witness :
  let s1 := fst (storeObject (json := quoted_json) "session" "data" new_state) in
  JSON_parse (Json := quoted_json) (JSON_stringify (Json := quoted_json) "data") = inr "data" /\
  JSON_stringify (Json := quoted_json) "data" <> "" /\
  storeObject (json := quoted_json) "session" "data" new_state = (s1, inr tt) /\
  exists s2, loadObject (json := quoted_json) "session" s1
             = (s2, inr (Some "data")).
Proof.
  intros s1.
  assert (H1 : JSON_parse (Json := quoted_json) (JSON_stringify (Json := quoted_json) "data")
               = inr "data") by reflexivity.
  assert (H2 : JSON_stringify (Json := quoted_json) "data" <> "")
    by discriminate.
  assert (H3 : storeObject (json := quoted_json) "session" "data" new_state
               = (s1, inr tt)) by reflexivity.
  split; [exact H1 |]. split; [exact H2 |]. split; [exact H3 |].
  exact (proj1 (proj2 (storeObject_loadObject (json := quoted_json)
                         "session" "data" new_state s1 H1 H2 H3))
           eq_refl).
Defined.

(** *** The round trip *)

Lemma launched_attempt_settles_at_most_once_witness :
  exists a : Attempt string,
    run "myapp://" (executor (inr "https://example.com?request"))
      (launch ++ [ appUrlOpen "other://callback?x"; browserClosed ])
    = Some a /\
    settle_calls (promise a) <= 1 /\
    (settled a = true <-> settle_calls (promise a) = 1) /\
    close_calls (host a) <= 1.
Proof.
  eexists. split; [reflexivity |].
  pose proof (launched_attempt_settles_at_most_once "myapp://"
                "https://example.com?request"
                [ appUrlOpen "other://callback?x"; browserClosed ] _ eq_refl)
    as (H1 & H2 & H3 & _).
  exact (conj H1 (conj H2 H3)).
Defined.

Lemma matching_deep_link_completes_with_response_witness :
  Forall (unmatched "myapp://") ["other://callback?x"] /\
  String.prefix "myapp://" "myapp://callback?signed" = true /\
  decodeResponse "myapp://callback?signed" = inr "signed" /\
  exists a : Attempt string,
    run "myapp://" (executor (inr "https://example.com?request"))
      (launch ++ deep_links ["other://callback?x"] ++
       [appUrlOpen "myapp://callback?signed"; close_settles Fulfils])
    = Some a /\
    promise a = {| settlement := Completed "signed"; settle_calls := 1 |} /\
    torn_down a /\
    browser_open (host a) = None /\ close_calls (host a) = 1 /\
    forall event, deliver "myapp://" a event = None.
Proof.
  assert (Hu : Forall (unmatched "myapp://") ["other://callback?x"])
    by (repeat constructor).
  assert (Hlink : String.prefix "myapp://" "myapp://callback?signed" = true)
    by reflexivity.
  assert (Hdec : decodeResponse "myapp://callback?signed" = inr "signed")
    by reflexivity.
  split; [exact Hu |]. split; [exact Hlink |]. split; [exact Hdec |].
  exact (proj1 (matching_deep_link_completes_with_response (Request := string)
                  "myapp://" "https://example.com?request"
                  "myapp://callback?signed" ["other://callback?x"] "signed"
                  Hu Hlink Hdec)).
Defined.

(** *** The connector *)

Lemma connect_survives_a_failed_switch_witness :
  import_reply refusing_wallet = inr tt /\
  eth_requestAccounts_reply refusing_wallet = inr ["0xab"] /\
  Connector.addresses example_getAddress ["0xab"] = inr ["0xab"] /\
  eth_chainId_reply refusing_wallet = inr "0x1" /\
  5%N <> 0%N /\ example_Number "0x1" <> Some 5%N /\
  snd (Connector.connect [bare_chain] example_numberToHex example_getAddress
         example_Number example_viem_message refusing_wallet (Some 5%N)
         Connector.new)
  = inr (["0xab"], Some 1%N).
Proof.
  assert (H5 : 5%N <> 0%N) by discriminate.
  assert (H6 : example_Number "0x1" <> Some 5%N) by discriminate.
  split; [reflexivity |]. split; [reflexivity |]. split; [reflexivity |].
  split; [reflexivity |]. split; [exact H5 |]. split; [exact H6 |].
  exact (connect_survives_a_failed_switch [bare_chain] example_numberToHex
           example_getAddress example_Number example_viem_message
           refusing_wallet Connector.new ["0xab"] ["0xab"] "0x1" 5
           (or_intror eq_refl) eq_refl eq_refl eq_refl H5 H6).
Defined.

Lemma connect_registers_after_the_accounts_witness :
  Connector.in_step Connector.new /\
  Connector.registered
    (fst (Connector.connect [bare_chain] example_numberToHex example_getAddress
            example_Number example_viem_message refusing_wallet (Some 5%N)
            Connector.new)).
Proof.
  assert (H : Connector.in_step Connector.new) by (left; repeat split).
  split; [exact H |].
  exact (connect_registers_after_the_accounts [bare_chain] example_numberToHex
           example_getAddress example_Number example_viem_message
           refusing_wallet (Some 5%N) Connector.new H).
Defined.

End MoreWitnesses.
